(** * product-service: the event pipeline's resilience components

    A shallow embedding of the Go packages

      - [pkg/retry]            (retry.go),
      - [pkg/circuitbreaker]   (circuit_breaker.go),
      - [pkg/queue]            (event_queue.go, batch_processor.go, errors.go),
      - [internal/repositories] and [internal/services]

    together with the properties their specification states about them.

    Conventions of the embedding.

      - Go's [int] and [time.Duration] are 64-bit signed integers; they are
        values of [Z] and every arithmetic operation of the source that can
        leave the range is wrapped by [wrap64].
      - A Go [error] is [option error]: [None] is [nil], [Some msg] an error
        whose [Error()] text is [msg].
      - A call can return or panic: [outcome].
      - Go code runs in a [World]: the clock read by [time.Now], the log of
        the [time.Sleep] calls, and the heap [U] the closures passed around
        capture.  A [func() error] is an [Op]: a function from worlds to an
        outcome and a world.
      - [float64] is Rocq's primitive binary64 [float].
      - Each function is what one goroutine runs while it holds the
        component's mutex; goroutines parked on a channel are counted in
        the channel ([recvq]). *)

From Stdlib Require Import ZArith Lia List Bool String Floats DecimalString.
From stdpp Require Import base option gmap strings.
Import ListNotations.

#[local] Open Scope string_scope.
#[local] Open Scope list_scope.
#[local] Open Scope Z_scope.

(** ** Go basics *)

Module Go.

Definition int64_min : Z := - 2 ^ 63.
Definition int64_max : Z := 2 ^ 63 - 1.

Definition int64_range (z : Z) : Prop := int64_min <= z <= int64_max.

(** Two's complement wrap-around of [int] arithmetic. *)
Definition wrap64 (z : Z) : Z := (z + 2 ^ 63) mod 2 ^ 64 - 2 ^ 63.

(** The message of a non-nil [error]. *)
Definition error : Type := string.

Inductive outcome (A : Type) : Type :=
| Returns (a : A)
| Panics (msg : string).
#[global] Arguments Returns {A} a.
#[global] Arguments Panics {A} msg.

(** [%d] of [fmt]. *)
Definition fmt_d (z : Z) : string := NilZero.string_of_int (Z.to_int z).

(** float64(z) for an [int64] z: the nearest binary64, ties to even. *)
Definition float64_of_int64 (z : Z) : float :=
  if z =? int64_min then (- (PrimFloat.of_uint63 (Uint63.of_Z (2 ^ 62)) * 2))%float
  else if z <? 0 then (- PrimFloat.of_uint63 (Uint63.of_Z (- z)))%float
  else PrimFloat.of_uint63 (Uint63.of_Z z).

(** int64(f) for a [float64] f: truncation toward zero.  A NaN, an
    infinity or a value outside the range converts to an
    implementation-specific value; this is amd64's, the "integer
    indefinite" 0x8000000000000000. *)
Definition int64_of_float64 (f : float) : Z :=
  match Prim2SF f with
  | S754_zero _ => 0
  | S754_finite s m e =>
      let mag := if 0 <=? e then Z.shiftl (Z.pos m) e else Z.shiftr (Z.pos m) (- e) in
      let v := if s then - mag else mag in
      if (int64_min <=? v) && (v <=? int64_max) then v else int64_min
  | S754_infinity _ | S754_nan => int64_min
  end.

End Go.
Export Go.

(** ** Time and the world *)

(** A [time.Time] is a number of nanoseconds counted from the zero [Time];
    a [time.Duration] is an [int64] number of nanoseconds. *)
Definition Time : Type := Z.
Definition Duration : Type := Z.

Definition Millisecond : Duration := 1000000.
Definition Second : Duration := 1000 * Millisecond.

(** [t.Sub(u)]: the difference, saturated to the range of [Duration]. *)
Definition Time_Sub (t u : Time) : Duration :=
  Z.max int64_min (Z.min int64_max (t - u)).

Record World (U : Type) : Type := mkWorld {
  clock : Time;             (* what [time.Now()] returns *)
  sleeps : list Duration;   (* arguments of the [time.Sleep] calls so far *)
  heap : U                  (* state captured by the closures *)
}.
Arguments mkWorld {U} clock sleeps heap.
Arguments clock {U} w.
Arguments sleeps {U} w.
Arguments heap {U} w.

Definition Op (U : Type) : Type := World U -> outcome (option error) * World U.

Section Time.
Context {U : Type}.

Definition time_Now (w : World U) : Time := clock w.

Definition time_Since (t : Time) (w : World U) : Duration :=
  Time_Sub (time_Now w) t.

(** [time.Sleep(d)] pauses for [d]; a negative or zero [d] returns at
    once. *)
Definition time_Sleep (d : Duration) (w : World U) : World U :=
  mkWorld (clock w + Z.max 0 d) (sleeps w ++ [d]) (heap w).

(** The world with another heap. *)
Definition set_heap {V : Type} (v : V) (w : World U) : World V :=
  mkWorld (clock w) (sleeps w) v.

End Time.

(** ** pkg/retry *)

Module retry.

Record RetryConfig : Type := {
  MaxAttempts : Z;
  InitialDelay : Duration;
  MaxDelay : Duration;
  Multiplier : float
}.

Definition DefaultRetryConfig : RetryConfig := {|
  MaxAttempts := 3;
  InitialDelay := 100 * Millisecond;
  MaxDelay := 30 * Second;
  Multiplier := 2%float
|}.

(** [time.Duration(float64(delay) * r.Multiplier)] *)
Definition scale (delay : Duration) (m : float) : Duration :=
  int64_of_float64 (float64_of_int64 delay * m)%float.

(** The three statements that end an iteration of both loops:
      delay = time.Duration(float64(delay) * r.Multiplier)
      if delay > r.MaxDelay { delay = r.MaxDelay } *)
Definition backoff (r : RetryConfig) (delay : Duration) : Duration :=
  let delay := scale delay (Multiplier r) in
  if delay >? MaxDelay r then MaxDelay r else delay.

(** [fmt.Errorf("operation failed after %d attempts", r.MaxAttempts)] *)
Definition exhausted (r : RetryConfig) : error :=
  String.append "operation failed after "
    (String.append (fmt_d (MaxAttempts r)) " attempts").

(** [fmt.Errorf("attempt %d failed", attempt)] *)
Definition attempt_failed (attempt : Z) : error :=
  String.append "attempt " (String.append (fmt_d attempt) " failed").

Section Loops.
Context {U : Type}.

(** [for attempt := 1; attempt <= r.MaxAttempts; attempt++ { ... }] of
    [ExecuteWithRetry], from the loop test on; [fuel] bounds the number
    of loop tests and [None] says it was too small. *)
Fixpoint retry_loop (r : RetryConfig) (operation : Op U) (fuel : nat)
    (attempt : Z) (delay : Duration) (w : World U)
    : option (outcome (option error) * World U) :=
  match fuel with
  | O => None
  | S fuel =>
      if attempt <=? MaxAttempts r then
        match operation w with
        | (Panics msg, w) => Some (Panics msg, w)
        | (Returns None, w) => Some (Returns None, w)
        | (Returns (Some _), w) =>
            if attempt =? MaxAttempts r then
              Some (Returns (Some (exhausted r)), w)
            else
              let w := time_Sleep delay w in
              let delay := backoff r delay in
              retry_loop r operation fuel (wrap64 (attempt + 1)) delay w
        end
      else Some (Returns None, w)
  end.

(** The same loop of [ExecuteWithRetryAndCallback]; [onFailure] is
    [None] for a nil callback. *)
Fixpoint callback_loop (r : RetryConfig) (operation : Op U)
    (onFailure : option (Z -> error -> World U -> World U)) (fuel : nat)
    (attempt : Z) (delay : Duration) (w : World U)
    : option (outcome (option error) * World U) :=
  match fuel with
  | O => None
  | S fuel =>
      if attempt <=? MaxAttempts r then
        match operation w with
        | (Panics msg, w) => Some (Panics msg, w)
        | (Returns None, w) => Some (Returns None, w)
        | (Returns (Some _), w) =>
            let w := match onFailure with
                     | Some f => f attempt (attempt_failed attempt) w
                     | None => w
                     end in
            if attempt =? MaxAttempts r then
              Some (Returns (Some (exhausted r)), w)
            else
              let w := time_Sleep delay w in
              let delay := backoff r delay in
              callback_loop r operation onFailure fuel (wrap64 (attempt + 1)) delay w
        end
      else Some (Returns None, w)
  end.

(** The loop test runs at most [MaxAttempts + 1] times. *)
Definition loop_tests (r : RetryConfig) : nat := S (Z.to_nat (MaxAttempts r)).

Definition ExecuteWithRetry (r : RetryConfig) (operation : Op U) (w : World U)
    : option (outcome (option error) * World U) :=
  retry_loop r operation (loop_tests r) 1 (InitialDelay r) w.

Definition ExecuteWithRetryAndCallback (r : RetryConfig) (operation : Op U)
    (onFailure : option (Z -> error -> World U -> World U)) (w : World U)
    : option (outcome (option error) * World U) :=
  callback_loop r operation onFailure (loop_tests r) 1 (InitialDelay r) w.

End Loops.

End retry.

(** ** pkg/circuitbreaker *)

Module circuitbreaker.

Inductive State : Set := Closed | Open | HalfOpen.

Record CircuitBreaker : Type := {
  failureThreshold : Z;
  timeout : Duration;
  state : State;
  failures : Z;
  lastFailureTime : Time
}.

(** [lastFailureTime] starts as the zero [Time]. *)
Definition NewCircuitBreaker (failureThreshold : Z) (timeout : Duration)
    : CircuitBreaker := {|
  failureThreshold := failureThreshold;
  timeout := timeout;
  state := Closed;
  failures := 0;
  lastFailureTime := 0
|}.

Definition set_state (s : State) (cb : CircuitBreaker) : CircuitBreaker := {|
  failureThreshold := failureThreshold cb;
  timeout := timeout cb;
  state := s;
  failures := failures cb;
  lastFailureTime := lastFailureTime cb
|}.

Section Methods.
Context {U : Type}.

Definition recordFailure (cb : CircuitBreaker) (w : World U) : CircuitBreaker :=
  let failures := wrap64 (failures cb + 1) in
  {| failureThreshold := failureThreshold cb;
     timeout := timeout cb;
     state := if failures >=? failureThreshold cb then Open else state cb;
     failures := failures;
     lastFailureTime := time_Now w |}.

Definition recordSuccess (cb : CircuitBreaker) : CircuitBreaker :=
  {| failureThreshold := failureThreshold cb;
     timeout := timeout cb;
     state := match state cb with HalfOpen => Closed | s => s end;
     failures := 0;
     lastFailureTime := lastFailureTime cb |}.

(** [Execute] from "Execute the operation" on.  A panic of the
    operation unwinds through [Execute]: the deferred [Unlock] runs and
    nothing is recorded. *)
Definition run (cb : CircuitBreaker) (operation : Op U) (w : World U)
    : outcome (option error) * CircuitBreaker * World U :=
  match operation w with
  | (Panics msg, w) => (Panics msg, cb, w)
  | (Returns (Some err), w) => (Returns (Some err), recordFailure cb w, w)
  | (Returns None, w) => (Returns None, recordSuccess cb, w)
  end.

Definition Execute (cb : CircuitBreaker) (operation : Op U) (w : World U)
    : outcome (option error) * CircuitBreaker * World U :=
  match state cb with
  | Open =>
      if time_Since (lastFailureTime cb) w <? timeout cb then
        (Returns (Some "circuit breaker is open"), cb, w)
      else
        (* Timeout has passed, move to half-open state *)
        run (set_state HalfOpen cb) operation w
  | _ => run cb operation w
  end.

End Methods.

Definition GetState (cb : CircuitBreaker) : State := state cb.

Definition GetFailureCount (cb : CircuitBreaker) : Z := failures cb.

Definition Reset (cb : CircuitBreaker) : CircuitBreaker := {|
  failureThreshold := failureThreshold cb;
  timeout := timeout cb;
  state := Closed;
  failures := 0;
  lastFailureTime := lastFailureTime cb
|}.

End circuitbreaker.

(** ** Channels *)

(** A Go channel as the operations of this repository use it: sends are
    always the [case] of a [select] with a [default], so no sender ever
    parks; receivers park.  [recvq] counts the parked receivers and
    [handed] holds the values a send passed directly to one of them. *)
Module channel.

Record chan (A : Type) : Type := mkChan {
  buf : list A;
  cap : Z;
  closed : bool;
  recvq : nat;
  handed : list A
}.
Arguments mkChan {A} buf cap closed recvq handed.
Arguments buf {A} c.
Arguments cap {A} c.
Arguments closed {A} c.
Arguments recvq {A} c.
Arguments handed {A} c.

Section Ops.
Context {A : Type}.

(** [make(chan A, size)]; the limit the runtime puts on the memory
    of the buffer is left out. *)
Definition make (size : Z) : outcome (chan A) :=
  if size <? 0 then Panics "makechan: size out of range"
  else Returns (mkChan [] size false 0 []).

Definition len (c : chan A) : Z := Z.of_nat (length (buf c)).

(** [select { case c <- v: ...  default: ... }]: [Some c'] when the
    send proceeds, [None] when the [default] is taken. *)
Definition select_send (c : chan A) (v : A) : outcome (option (chan A)) :=
  if closed c then Panics "send on closed channel"
  else match recvq c with
       | S n => Returns (Some (mkChan (buf c) (cap c) false n (handed c ++ [v])))
       | O =>
           if len c <? cap c then
             Returns (Some (mkChan (buf c ++ [v]) (cap c) false O (handed c)))
           else Returns None
       end.

Inductive received : Type :=
| Received (v : A) (ok : bool) (c : chan A)
| Parks (c : chan A).

(** [v, ok := <-c] *)
Definition recv (zero : A) (c : chan A) : received :=
  match buf c with
  | v :: rest => Received v true (mkChan rest (cap c) (closed c) (recvq c) (handed c))
  | [] =>
      if closed c then Received zero false c
      else Parks (mkChan [] (cap c) false (S (recvq c)) (handed c))
  end.

(** [close(c)]; the parked receivers wake up with the zero value. *)
Definition close (c : chan A) : outcome (chan A) :=
  if closed c then Panics "close of closed channel"
  else Returns (mkChan (buf c) (cap c) true O (handed c)).

(** No send can proceed. *)
Definition full (c : chan A) : Prop := recvq c = O /\ cap c <= len c.

End Ops.

End channel.

(** ** internal/models *)

Module models.

Record Product : Type := {
  ID : string;
  Price : float;
  Stock : Z
}.

Record ProductEvent : Type := {
  ProductID : string;
  EventPrice : float;   (* field [Price] of [ProductEvent] *)
  EventStock : Z        (* field [Stock] of [ProductEvent] *)
}.

Definition zero_ProductEvent : ProductEvent :=
  {| ProductID := ""; EventPrice := 0%float; EventStock := 0 |}.

End models.

(** ** pkg/queue *)

Module queue.
Import channel models.

Definition ErrQueueFull : error := "queue is full".
Definition ErrQueueClosed : error := "queue is closed".
Definition ErrBatchProcessorFull : error := "batch processor is full".

(** *** event_queue.go *)

Record InMemoryEventQueue : Type := { events : chan ProductEvent }.

Definition NewInMemoryEventQueue (bufferSize : Z) : outcome InMemoryEventQueue :=
  match make bufferSize with
  | Returns c => Returns {| events := c |}
  | Panics msg => Panics msg
  end.

(** The error of the [default] case is [fmt.Errorf("queue is full")]. *)
Definition Enqueue (q : InMemoryEventQueue) (event : ProductEvent)
    : outcome (option error * InMemoryEventQueue) :=
  match select_send (events q) event with
  | Panics msg => Panics msg
  | Returns (Some c) => Returns (None, {| events := c |})
  | Returns None => Returns (Some "queue is full", q)
  end.

Definition Dequeue (q : InMemoryEventQueue) : received (A := ProductEvent) :=
  recv zero_ProductEvent (events q).

Definition Close (q : InMemoryEventQueue) : outcome InMemoryEventQueue :=
  match close (events q) with
  | Returns c => Returns {| events := c |}
  | Panics msg => Panics msg
  end.

(** *** batch_processor.go *)

Record BatchProcessor : Type := {
  batchSize : Z;
  flushInterval : Duration;
  batch : list ProductEvent;               (* field [events] *)
  flushChan : chan (list ProductEvent)
}.

(** [make([]models.ProductEvent, 0, batchSize)] panics on a negative
    capacity; the goroutine started by [go bp.processBatches()] has not
    yet parked on [flushChan]. *)
Definition NewBatchProcessor (batchSize : Z) (flushInterval : Duration)
    : outcome BatchProcessor :=
  if batchSize <? 0 then Panics "makeslice: cap out of range"
  else Returns {| batchSize := batchSize;
                  flushInterval := flushInterval;
                  batch := [];
                  flushChan := mkChan [] 10 false 0 [] |}.

Definition set_batch (l : list ProductEvent) (bp : BatchProcessor) : BatchProcessor :=
  {| batchSize := batchSize bp; flushInterval := flushInterval bp;
     batch := l; flushChan := flushChan bp |}.

Definition set_flushChan (c : chan (list ProductEvent)) (bp : BatchProcessor)
    : BatchProcessor :=
  {| batchSize := batchSize bp; flushInterval := flushInterval bp;
     batch := batch bp; flushChan := c |}.

Definition flushBatch (bp : BatchProcessor) : outcome (option error) * BatchProcessor :=
  if Z.of_nat (length (batch bp)) =? 0 then (Returns None, bp)
  else
    (* Create a copy of the events to send *)
    let eventsToProcess := batch bp in
    (* Clear the current batch *)
    let bp := set_batch [] bp in
    (* Send to processing channel *)
    match select_send (flushChan bp) eventsToProcess with
    | Panics msg => (Panics msg, bp)
    | Returns (Some c) => (Returns None, set_flushChan c bp)
    | Returns None => (Returns (Some ErrBatchProcessorFull), bp)
    end.

Definition AddEvent (bp : BatchProcessor) (event : ProductEvent)
    : outcome (option error) * BatchProcessor :=
  let bp := set_batch (batch bp ++ [event]) bp in
  (* Flush if batch is full *)
  if Z.of_nat (length (batch bp)) >=? batchSize bp then flushBatch bp
  else (Returns None, bp).

Definition GetPendingEvents (bp : BatchProcessor) : Z :=
  Z.of_nat (length (batch bp)).

End queue.

(** ** internal/repositories *)

Module repositories.
Import models.

Record InMemoryProductRepository : Type := { data : gmap string Product }.

Definition NewInMemoryProductRepository : InMemoryProductRepository :=
  {| data := ∅ |}.

(** [product, exists := r.data[id]] *)
Definition Get (r : InMemoryProductRepository) (id : string) : option Product :=
  data r !! id.

Definition Update (r : InMemoryProductRepository) (id : string) (price : float)
    (stock : Z) : InMemoryProductRepository :=
  {| data := <[id := {| ID := id; Price := price; Stock := stock |}]> (data r) |}.

End repositories.

(** ** internal/services *)

(** The objects a [ProductService] and its [WorkerPool] point to make up
    the heap; [cancelled] is the state of the pool's context.  Writes to
    the loggers are left out. *)
Module services.
Import channel models queue repositories circuitbreaker retry.

Record Heap : Type := {
  repository : InMemoryProductRepository;
  eventQueue : InMemoryEventQueue;
  circuitBreaker : CircuitBreaker;
  retryConfig : RetryConfig;
  workers : Z;
  cancelled : bool
}.

Definition set_repository (r : InMemoryProductRepository) (h : Heap) : Heap :=
  {| repository := r; eventQueue := eventQueue h;
     circuitBreaker := circuitBreaker h; retryConfig := retryConfig h;
     workers := workers h; cancelled := cancelled h |}.

Definition set_eventQueue (q : InMemoryEventQueue) (h : Heap) : Heap :=
  {| repository := repository h; eventQueue := q;
     circuitBreaker := circuitBreaker h; retryConfig := retryConfig h;
     workers := workers h; cancelled := cancelled h |}.

Definition set_circuitBreaker (cb : CircuitBreaker) (h : Heap) : Heap :=
  {| repository := repository h; eventQueue := eventQueue h;
     circuitBreaker := cb; retryConfig := retryConfig h;
     workers := workers h; cancelled := cancelled h |}.

Definition set_cancelled (b : bool) (h : Heap) : Heap :=
  {| repository := repository h; eventQueue := eventQueue h;
     circuitBreaker := circuitBreaker h; retryConfig := retryConfig h;
     workers := workers h; cancelled := b |}.

Definition NewProductService (repo : InMemoryProductRepository)
    (eventQueue : InMemoryEventQueue) (workers : Z) : Heap :=
  {| repository := repo;
     eventQueue := eventQueue;
     circuitBreaker := NewCircuitBreaker 5 (60 * Second);
     retryConfig := DefaultRetryConfig;
     workers := workers;
     cancelled := false |}.

(** [s.circuitBreaker.Execute(operation)] on the breaker in the heap. *)
Definition circuitBreaker_Execute (operation : Op Heap) : Op Heap :=
  fun w =>
    let '(res, cb, w) := Execute (circuitBreaker (heap w)) operation w in
    (res, set_heap (set_circuitBreaker cb (heap w)) w).

(** [s.queue.Enqueue(event)] on the queue in the heap. *)
Definition queue_Enqueue (event : ProductEvent) : Op Heap :=
  fun w =>
    match Enqueue (eventQueue (heap w)) event with
    | Panics msg => (Panics msg, w)
    | Returns (err, q) => (Returns err, set_heap (set_eventQueue q (heap w)) w)
    end.

Definition ProcessEvent (event : ProductEvent) (w : World Heap)
    : option (outcome (option error) * World Heap) :=
  ExecuteWithRetry (retryConfig (heap w))
    (circuitBreaker_Execute (queue_Enqueue event)) w.

Definition GetProduct (id : string) (w : World Heap) : option Product :=
  Get (repository (heap w)) id.

(** The function literal [processEvent] passes to the breaker. *)
Definition update_product (event : ProductEvent) : Op Heap :=
  fun w =>
    (* Simulate some processing time *)
    let w := time_Sleep (10 * Millisecond) w in
    (* Update the product repository *)
    let repo := Update (repository (heap w))
                  (ProductID event) (EventPrice event) (EventStock event) in
    (Returns None, set_heap (set_repository repo (heap w)) w).

(** [processEvent]; its callbacks only log.  A panic of the operation
    leaves [processEvent] as a panic. *)
Definition processEvent (event : ProductEvent) (workerID : Z) (w : World Heap)
    : option (outcome unit * World Heap) :=
  match ExecuteWithRetryAndCallback (retryConfig (heap w))
          (circuitBreaker_Execute (update_product event))
          (Some (fun _ _ w => w)) w with
  | None => None
  | Some (Panics msg, w) => Some (Panics msg, w)
  | Some (Returns _, w) => Some (Returns tt, w)
  end.

(** How a run of [worker] ends: it returned, it parked in [Dequeue], it
    panicked, or [fuel] was too small. *)
Inductive worker_end : Set := Exited | Parked | Panicked | OutOfFuel.

(** The [for] loop of [worker], one iteration for each unit of fuel. *)
Fixpoint worker (fuel : nat) (id : Z) (w : World Heap) : worker_end * World Heap :=
  match fuel with
  | O => (OutOfFuel, w)
  | S fuel =>
      if cancelled (heap w) then (Exited, w)
      else
        match Dequeue (eventQueue (heap w)) with
        | Parks c =>
            (Parked, set_heap (set_eventQueue {| events := c |} (heap w)) w)
        | Received _ false _ => (Exited, w)
        | Received event true c =>
            let w := set_heap (set_eventQueue {| events := c |} (heap w)) w in
            match processEvent event id w with
            | None => (OutOfFuel, w)
            | Some (Panics _, w) => (Panicked, w)
            | Some (Returns _, w) => worker fuel id w
            end
        end
  end.

(** A worker parked in [Dequeue] is woken by a send: [Dequeue] returns
    the value handed to it and the loop goes on. *)
Definition worker_wakeup (fuel : nat) (id : Z) (w : World Heap)
    : worker_end * World Heap :=
  let q := events (eventQueue (heap w)) in
  match handed q with
  | [] => (Parked, w)
  | event :: rest =>
      let c := mkChan (buf q) (cap q) (closed q) (recvq q) rest in
      let w := set_heap (set_eventQueue {| events := c |} (heap w)) w in
      match processEvent event id w with
      | None => (OutOfFuel, w)
      | Some (Panics _, w) => (Panicked, w)
      | Some (Returns _, w) => worker fuel id w
      end
  end.

(** [Stop] cancels the context; the workers see it at their next loop
    test. *)
Definition Stop (w : World Heap) : World Heap :=
  set_heap (set_cancelled true (heap w)) w.

End services.

(** ** pkg/queue, batch_processor.go: the dispatch loop *)

(** [NewBatchProcessor] also makes [stopChan] and starts the goroutine
    that runs [processBatches]; a [Processor] is a [BatchProcessor] with
    the two.  The loop is followed one [select] at a time.  It takes its
    batches from the buffer of [flushChan] and is not counted in the
    [recvq] of that channel: for a channel with a buffer a send to a
    parked receiver and a send to the buffer followed by the receive give
    the receiver the same value. *)
Module dispatch.
Import channel models queue.

Record Processor : Type := {
  bp : BatchProcessor;
  stopChan : chan unit;
  returned : bool          (* [processBatches] has returned *)
}.

(** [BatchProcessorFunc] *)
Definition BatchProcessorFunc (U : Type) : Type := list ProductEvent -> Op U.

(** The rest of [NewBatchProcessor]: [stopChan: make(chan struct{})] and
    [go bp.processBatches()]. *)
Definition started (b : BatchProcessor) : Processor :=
  {| bp := b; stopChan := mkChan [] 0 false O []; returned := false |}.

Definition set_bp (b : BatchProcessor) (p : Processor) : Processor :=
  {| bp := b; stopChan := stopChan p; returned := returned p |}.

(** The cases of the [select] of [processBatches]. *)
Inductive select_case : Set :=
| BatchReady      (* [case events := <-bp.flushChan] *)
| TickerFired     (* [case <-ticker.C] *)
| StopRequested.  (* [case <-bp.stopChan] *)

(** [if len(bp.events) > 0 { bp.flushBatch() }] under the mutex; the
    result of [flushBatch] is dropped. *)
Definition flush_pending (b : BatchProcessor) : outcome BatchProcessor :=
  if Z.of_nat (length (batch b)) >? 0 then
    match flushBatch b with
    | (Panics msg, _) => Panics msg
    | (Returns _, b) => Returns b
    end
  else Returns b.

Section Loop.
Context {U : Type}.

(** One iteration of the [for] of [processBatches] in which the [select]
    takes the case [c]; [None] when that case is not ready, or the loop
    has returned.  An error of the processor is dropped. *)
Definition processBatches_case (processor : BatchProcessorFunc U) (c : select_case)
    (p : Processor) (w : World U) : option (outcome Processor * World U) :=
  if returned p then None
  else
    match c with
    | BatchReady =>
        let ch := flushChan (bp p) in
        match buf ch with
        | [] => None
        | events :: rest =>
            let ch := mkChan rest (cap ch) (closed ch) (recvq ch) (handed ch) in
            let p := set_bp (set_flushChan ch (bp p)) p in
            match processor events w with
            | (Panics msg, w) => Some (Panics msg, w)
            | (Returns _, w) => Some (Returns p, w)
            end
        end
    | TickerFired =>
        (* Periodic flush *)
        match flush_pending (bp p) with
        | Panics msg => Some (Panics msg, w)
        | Returns b => Some (Returns (set_bp b p), w)
        end
    | StopRequested =>
        if closed (stopChan p) then
          (* Flush remaining events before stopping *)
          match flush_pending (bp p) with
          | Panics msg => Some (Panics msg, w)
          | Returns b =>
              Some (Returns {| bp := b; stopChan := stopChan p; returned := true |}, w)
          end
        else None
    end.

End Loop.

(** [Stop]: [close(bp.stopChan)] *)
Definition Stop (p : Processor) : outcome Processor :=
  match close (stopChan p) with
  | Panics msg => Panics msg
  | Returns ch => Returns {| bp := bp p; stopChan := ch; returned := returned p |}
  end.

(** [GetBatchSize] returns the number of buffered events, as
    [GetPendingEvents] does. *)
Definition GetBatchSize (b : BatchProcessor) : Z := Z.of_nat (length (batch b)).

End dispatch.

(** ** pkg/errors *)

Module errors.

(** [ErrorType] is an [int]; the constants are those of the [iota]
    block. *)
Definition ErrorType : Type := Z.

Definition RetryableError : ErrorType := 0.
Definition NonRetryableError : ErrorType := 1.
Definition ValidationError : ErrorType := 2.
Definition SystemError : ErrorType := 3.
Definition NetworkError : ErrorType := 4.
Definition TimeoutError : ErrorType := 5.

(** [func (et ErrorType) String() string] *)
Definition String (et : ErrorType) : string :=
  if et =? RetryableError then "RetryableError"
  else if et =? NonRetryableError then "NonRetryableError"
  else if et =? ValidationError then "ValidationError"
  else if et =? SystemError then "SystemError"
  else if et =? NetworkError then "NetworkError"
  else if et =? TimeoutError then "TimeoutError"
  else "UnknownError".

(** [Cause] is [None] for a nil cause, else the text of the cause. *)
Record ClassifiedError : Type := {
  Type_ : ErrorType;         (* field [Type] *)
  Message : string;
  Cause : option error
}.

(** [fmt.Sprintf("%s: %v", ce.Message, ce.Cause)] with a cause *)
Definition Error (ce : ClassifiedError) : string :=
  match Cause ce with
  | Some cause => String.append (Message ce) (String.append ": " cause)
  | None => Message ce
  end.

Definition Unwrap (ce : ClassifiedError) : option error := Cause ce.

Definition ShouldRetry (ce : ClassifiedError) : bool :=
  (Type_ ce =? RetryableError) || (Type_ ce =? NetworkError) || (Type_ ce =? TimeoutError).

Definition IsValidationError (ce : ClassifiedError) : bool :=
  Type_ ce =? ValidationError.

Definition IsSystemError (ce : ClassifiedError) : bool :=
  Type_ ce =? SystemError.

Definition NewClassifiedError (errorType : ErrorType) (message : string)
    (cause : option error) : ClassifiedError :=
  {| Type_ := errorType; Message := message; Cause := cause |}.

Definition NewRetryableError (message : string) (cause : option error) :=
  NewClassifiedError RetryableError message cause.

Definition NewNonRetryableError (message : string) (cause : option error) :=
  NewClassifiedError NonRetryableError message cause.

Definition NewValidationError (message : string) (cause : option error) :=
  NewClassifiedError ValidationError message cause.

Definition NewSystemError (message : string) (cause : option error) :=
  NewClassifiedError SystemError message cause.

Definition NewNetworkError (message : string) (cause : option error) :=
  NewClassifiedError NetworkError message cause.

Definition NewTimeoutError (message : string) (cause : option error) :=
  NewClassifiedError TimeoutError message cause.

Definition NewRetryableErrorWithCause (message : string) (cause : option error) :=
  NewClassifiedError RetryableError message cause.

Definition NewNonRetryableErrorWithCause (message : string) (cause : option error) :=
  NewClassifiedError NonRetryableError message cause.

End errors.

(** ** internal/controllers *)

(** A handler gets what gin has made of the request and gives the status
    and the value it passes to [c.JSON]. *)
Module controllers.
Import models services.

Definition StatusOK : Z := 200.
Definition StatusAccepted : Z := 202.
Definition StatusBadRequest : Z := 400.
Definition StatusNotFound : Z := 404.
Definition StatusServiceUnavailable : Z := 503.

(** The values of [internal/models] that the handlers send. *)
Inductive body : Type :=
| HealthResponse (Status : string)
| ErrorResponse (Error : string)
| EventResponse (Message : string) (ProductID : string)
| ProductBody (product : Product).

Record response : Type := { code : Z; json : body }.

(** [Health] *)
Definition Health : response :=
  {| code := StatusOK; json := HealthResponse "healthy" |}.

(** [HandleEvent]; [bound] is the event [c.ShouldBindJSON(&event)] has
    filled in, [None] when it returned an error. *)
Definition HandleEvent (bound : option ProductEvent) (w : World Heap)
    : option (outcome response * World Heap) :=
  match bound with
  | None =>
      Some (Returns {| code := StatusBadRequest;
                       json := ErrorResponse "Invalid JSON payload" |}, w)
  | Some event =>
      (* Validate required fields *)
      if String.eqb (ProductID event) "" then
        Some (Returns {| code := StatusBadRequest;
                         json := ErrorResponse "product_id is required" |}, w)
      else
        (* Process the event *)
        match ProcessEvent event w with
        | None => None
        | Some (Panics msg, w) => Some (Panics msg, w)
        | Some (Returns (Some _), w) =>
            Some (Returns {| code := StatusServiceUnavailable;
                             json := ErrorResponse "Queue is full" |}, w)
        | Some (Returns None, w) =>
            Some (Returns {| code := StatusAccepted;
                             json := EventResponse "Event accepted for processing"
                                       (ProductID event) |}, w)
        end
  end.

(** [GetProduct]; [productID] is [c.Param("id")]. *)
Definition GetProduct (productID : string) (w : World Heap) : response :=
  match services.GetProduct productID w with
  | None => {| code := StatusNotFound; json := ErrorResponse "Product not found" |}
  | Some product => {| code := StatusOK; json := ProductBody product |}
  end.

End controllers.

(** ** Vocabulary of the specification *)

Module spec.
Import retry.

Section Operations.
Context {U : Type}.

(** The operation returns a non-nil error when invoked in [w]. *)
Definition fails (operation : Op U) (w : World U) : Prop :=
  exists e, fst (operation w) = Returns (Some e).

(** The operation returns nil when invoked in [w]. *)
Definition succeeds (operation : Op U) (w : World U) : Prop :=
  fst (operation w) = Returns None.

(** [calls] reads a counter of the heap that every invocation of the
    operation advances by one, as the [attempts++] of the tests' closures
    does. *)
Definition counts_calls (calls : U -> nat) (operation : Op U) : Prop :=
  forall w, calls (heap (snd (operation w))) = S (calls (heap w)).

(** Any operation can be made to keep what its invocations return:
    [traced operation] runs [operation] on the second component of the
    heap and appends the result of the invocation to the first. *)
Definition traced (operation : Op U) : Op (list (outcome (option error)) * U) :=
  fun w =>
    let '(res, w') := operation (set_heap (snd (heap w)) w) in
    (res, set_heap (fst (heap w) ++ [res], heap w') w').

(** The world the operation under [traced] runs in. *)
Definition untraced (w : World (list (outcome (option error)) * U)) : World U :=
  set_heap (snd (heap w)) w.

(** The invocation returned a non-nil error. *)
Definition failed (res : outcome (option error)) : Prop :=
  exists e, res = Returns (Some e).

(** The callback leaves that counter alone. *)
Definition keeps_calls (calls : U -> nat)
    (onFailure : option (Z -> error -> World U -> World U)) : Prop :=
  forall f, onFailure = Some f ->
  forall attempt err w, calls (heap (f attempt err w)) = calls (heap w).

(** The operation, or the callback, does not itself call [time.Sleep]. *)
Definition sleepless (operation : Op U) : Prop :=
  forall w, sleeps (snd (operation w)) = sleeps w.

Definition sleepless_callback
    (onFailure : option (Z -> error -> World U -> World U)) : Prop :=
  forall f, onFailure = Some f ->
  forall attempt err w, sleeps (f attempt err w) = sleeps w.

End Operations.

(** The first [n] delays of a backoff that starts at [delay]. *)
Fixpoint backoffs (r : RetryConfig) (delay : Duration) (n : nat) : list Duration :=
  match n with
  | O => []
  | S n => delay :: backoffs r (backoff r delay) n
  end.

(** The float64 [f] is the fraction [a / b], exactly: [f] is finite and
    positive, of mantissa [m] and exponent [e], and
    [a / b = m * 2 ^ e]. *)
Definition ratio (f : float) (a b : Z) : Prop :=
  0 < b
  /\ match Prim2SF f with
     | S754_finite false m e =>
         a * 2 ^ Z.max 0 (- e) = b * (Z.pos m * 2 ^ Z.max 0 e)
     | _ => False
     end.

(** [d] is the closed form of the [i]-th delay, [i] from 0, for the
    multiplier [a / b]:
    [d = min (InitialDelay * (a / b) ^ i) MaxDelay],
    both sides multiplied by [b ^ i]. *)
Definition capped_at (r : RetryConfig) (a b : Z) (i : nat) (d : Duration) : Prop :=
  d * b ^ Z.of_nat i
  = Z.min (InitialDelay r * a ^ Z.of_nat i) (MaxDelay r * b ^ Z.of_nat i).

(** That closed form times [a / b] is an integer [p] below [2 ^ 53] in
    magnitude, that is, an integer that float64 has:
    [p = min (InitialDelay * (a / b) ^ i) MaxDelay * (a / b)],
    both sides multiplied by [b ^ (i + 1)]. *)
Definition exact_product (r : RetryConfig) (a b : Z) (i : nat) : Prop :=
  exists p : Z,
    p * b ^ Z.of_nat (S i)
    = Z.min (InitialDelay r * a ^ Z.of_nat i) (MaxDelay r * b ^ Z.of_nat i) * a
    /\ - 2 ^ 53 < p < 2 ^ 53.

(** The magnitude [int64_of_float64] reads off a finite float64. *)
Definition magnitude (m : positive) (e : Z) : Z :=
  if 0 <=? e then Z.shiftl (Z.pos m) e else Z.shiftr (Z.pos m) (- e).

End spec.

Module breaker_spec.
Import circuitbreaker spec.

Section Calls.
Context {U : Type}.

(** A caller that, for each [(d, operation)] in turn, sleeps for [d] and
    then calls [cb.Execute(operation)], dropping the result as the tests
    do. *)
Fixpoint Execute_calls (calls : list (Duration * Op U)) (cb : CircuitBreaker)
    (w : World U) : CircuitBreaker * World U :=
  match calls with
  | [] => (cb, w)
  | (d, operation) :: calls =>
      let '(_, cb, w) := Execute cb operation (time_Sleep d w) in
      Execute_calls calls cb w
  end.

(** What these calls of [Execute] return, in order. *)
Fixpoint Execute_results (calls : list (Duration * Op U)) (cb : CircuitBreaker)
    (w : World U) : list (outcome (option error)) :=
  match calls with
  | [] => []
  | (d, operation) :: calls =>
      let '(res, cb, w) := Execute cb operation (time_Sleep d w) in
      res :: Execute_results calls cb w
  end.

(** The time since the last recorded failure, unsaturated. *)
Definition elapsed (cb : CircuitBreaker) (w : World U) : Z :=
  clock w - lastFailureTime cb.

(** [reachable threshold timeout cb w]: a breaker made by
    [NewCircuitBreaker threshold timeout] is in state [cb] when some
    sequence of [Execute] and [Reset] calls, made in whatever worlds, has
    returned, and [w] is the world the last of them returned in. *)
Inductive reachable (threshold : Z) (timeout : Duration)
    : CircuitBreaker -> World U -> Prop :=
| reach_New w :
    reachable threshold timeout (NewCircuitBreaker threshold timeout) w
| reach_Execute cb w0 operation w :
    reachable threshold timeout cb w0 ->
    reachable threshold timeout
      (snd (fst (Execute cb operation w))) (snd (Execute cb operation w))
| reach_Reset cb w0 w :
    reachable threshold timeout cb w0 ->
    reachable threshold timeout (Reset cb) w.

End Calls.
End breaker_spec.

Module queue_spec.
Import channel models queue.

(** The results of enqueueing the events of a list one after the other,
    and the queue they leave; a panic leaves the queue as it was. *)
Fixpoint Enqueue_all (q : InMemoryEventQueue) (evs : list ProductEvent)
    : list (outcome (option error)) * InMemoryEventQueue :=
  match evs with
  | [] => ([], q)
  | event :: evs =>
      match Enqueue q event with
      | Panics msg =>
          let '(results, q) := Enqueue_all q evs in (Panics msg :: results, q)
      | Returns (err, q) =>
          let '(results, q) := Enqueue_all q evs in (Returns err :: results, q)
      end
  end.

(** What the [i]-th enqueue, [i] from 0, on a fresh queue of capacity
    [capacity] is to return when nothing is dequeued. *)
Definition expected_result (capacity : Z) (i : nat) : outcome (option error) :=
  if Z.of_nat i <? capacity then Returns None else Returns (Some "queue is full").

(** [c'] is [c] after exactly one send of [v]: into the buffer or to a
    parked receiver. *)
Definition sent_once {A : Type} (c : chan A) (v : A) (c' : chan A) : Prop :=
  cap c' = cap c /\ closed c' = closed c
  /\ ((buf c' = buf c ++ [v] /\ handed c' = handed c)
      \/ (buf c' = buf c /\ handed c' = handed c ++ [v])).

End queue_spec.

Module retry_spec.
Import retry spec.

Section Callbacks.
Context {U : Type}.

(** [log] reads a list of the heap to which every call of the callback
    appends its two arguments, as the [callbackCalls++] of the tests does
    with a counter. *)
Definition records_failures (log : U -> list (Z * error))
    (onFailure : Z -> error -> World U -> World U) : Prop :=
  forall attempt err w,
    log (heap (onFailure attempt err w)) = log (heap w) ++ [(attempt, err)].

(** The operation and [time.Sleep] leave that list alone. *)
Definition keeps_log (log : U -> list (Z * error)) (operation : Op U) : Prop :=
  forall w, log (heap (snd (operation w))) = log (heap w).

End Callbacks.

(** What the callback is to be called with for the [n] failed attempts
    from attempt [first] on. *)
Definition failure_reports (first : Z) (n : nat) : list (Z * error) :=
  map (fun i => (first + Z.of_nat i, attempt_failed (first + Z.of_nat i))) (seq 0 n).

(** The sum of a list of durations. *)
Definition total (ds : list Duration) : Z := fold_right Z.add 0 ds.

End retry_spec.

Module breaker_more_spec.

(** The operation panics when invoked in [w]. *)
Definition panics {U : Type} (operation : Op U) (w : World U) : Prop :=
  exists msg, fst (operation w) = Panics msg.

(** The time a caller of [Execute_calls] spends sleeping between its
    calls. *)
Definition waiting {U : Type} (calls : list (Duration * Op U)) : Z :=
  fold_right (fun c t => Z.max 0 (fst c) + t) 0 calls.

End breaker_more_spec.

Module queue_more_spec.
Import channel models queue.

(** Up to [n] calls of [Dequeue] by one goroutine, which stops at the
    first call that parks: what the calls returned, and the queue. *)
Fixpoint Dequeue_many (n : nat) (q : InMemoryEventQueue)
    : list (ProductEvent * bool) * InMemoryEventQueue :=
  match n with
  | O => ([], q)
  | S n =>
      match Dequeue q with
      | Received event ok c =>
          let '(got, q) := Dequeue_many n {| events := c |} in ((event, ok) :: got, q)
      | Parks c => ([], {| events := c |})
      end
  end.

(** A call of one of the three methods of the queue. *)
Inductive queue_call : Type :=
| CallEnqueue (event : ProductEvent)
| CallDequeue
| CallClose.

(** The queue a call leaves; a call that panics leaves it as it was. *)
Definition after_call (q : InMemoryEventQueue) (c : queue_call) : InMemoryEventQueue :=
  match c with
  | CallEnqueue event =>
      match Enqueue q event with
      | Returns (_, q') => q'
      | Panics _ => q
      end
  | CallDequeue =>
      match Dequeue q with
      | Received _ _ c => {| events := c |}
      | Parks c => {| events := c |}
      end
  | CallClose =>
      match Close q with
      | Returns q' => q'
      | Panics _ => q
      end
  end.

(** What the calls keep: the capacity, no more events than it allows,
    and no receiver parked while events wait. *)
Definition within_capacity (capacity : Z) (q : InMemoryEventQueue) : Prop :=
  cap (events q) = capacity
  /\ Z.of_nat (length (buf (events q))) <= capacity
  /\ (recvq (events q) <> O -> buf (events q) = [] /\ closed (events q) = false).

End queue_more_spec.

Module dispatch_spec.
Import channel models queue dispatch.

(** What happens to a batch processor: a goroutine calls [AddEvent], the
    loop goes through its [select] by one of the cases, or a goroutine
    calls [Stop]. *)
Inductive action : Type :=
| Add (event : ProductEvent)
| Select (c : select_case)
| CallStop.

(** The events of the [AddEvent] calls, in order. *)
Fixpoint added (actions : list action) : list ProductEvent :=
  match actions with
  | [] => []
  | Add event :: actions => event :: added actions
  | _ :: actions => added actions
  end.

(** The flush of [b] finds the dispatch channel full. *)
Definition flush_fails (b : BatchProcessor) : bool :=
  match fst (flushBatch b) with
  | Returns (Some _) => true
  | _ => false
  end.

Section Runs.
Context {U : Type} (processor : BatchProcessorFunc U).

(** The processor, the world, and the events that a failed flush has
    taken out of the buffer without sending them. *)
Definition run_state : Type := (Processor * World U * list ProductEvent)%type.

(** A [select] case that is not ready, and a call that panics, leave
    everything as it is. *)
Definition step (s : run_state) (a : action) : run_state :=
  let '(p, w, lost) := s in
  match a with
  | Add event =>
      match AddEvent (bp p) event with
      | (Returns None, b) => (set_bp b p, w, lost)
      | (Returns (Some _), b) => (set_bp b p, w, lost ++ batch (bp p) ++ [event])
      | (Panics _, _) => s
      end
  | Select c =>
      match processBatches_case processor c p w with
      | Some (Returns p', w') =>
          let dropped :=
            match c with
            | BatchReady => []
            | _ => if flush_fails (bp p) then batch (bp p) else []
            end in
          (p', w', lost ++ dropped)
      | _ => s
      end
  | CallStop =>
      match Stop p with
      | Returns p' => (p', w, lost)
      | Panics _ => s
      end
  end.

Definition run (actions : list action) (s : run_state) : run_state :=
  fold_left step actions s.

(** [delivered] reads from the heap the batches the processor function
    was called with, as [processedBatches] of the tests does. *)
Definition records_batches (delivered : U -> list (list ProductEvent)) : Prop :=
  forall events w,
    (exists err, fst (processor events w) = Returns err)
    /\ delivered (heap (snd (processor events w))) = delivered (heap w) ++ [events].

End Runs.

(** The events a batch processor holds: the batches waiting in the
    dispatch channel, then the buffer. *)
Definition held (b : BatchProcessor) : list ProductEvent :=
  concat (buf (flushChan b)) ++ batch b.

(** A batch as the loop is to see it: not empty, and no longer than the
    batch size. *)
Definition well_sized (size : Z) (events : list ProductEvent) : Prop :=
  events <> [] /\ Z.of_nat (length events) <= Z.max 1 size.

(** What the calls and the loop keep of a batch processor made with
    batch size [size]: the dispatch channel is open, nobody is parked on
    it, it holds at most 10 batches, all of them well sized, and the
    buffer is shorter than the batch size. *)
Definition shaped (size : Z) (b : BatchProcessor) : Prop :=
  batchSize b = size
  /\ closed (flushChan b) = false
  /\ recvq (flushChan b) = O
  /\ cap (flushChan b) = 10
  /\ Z.of_nat (length (buf (flushChan b))) <= 10
  /\ Forall (well_sized size) (buf (flushChan b))
  /\ Z.of_nat (length (batch b)) < Z.max 1 size.

(** The events of a run that are still there: those of the batches
    delivered to the processor function, then those held. *)
Definition kept {U : Type} (delivered : U -> list (list ProductEvent))
    (s : run_state (U := U)) : list ProductEvent :=
  concat (delivered (heap (snd (fst s)))) ++ held (bp (fst (fst s))).

(** Every event added so far is accounted for: [evs] are the events
    added, in order. *)
Definition accounted {U : Type} (delivered : U -> list (list ProductEvent))
    (s : run_state (U := U)) (evs : list ProductEvent) : Prop :=
  sublist (kept delivered s) evs
  /\ (length (kept delivered s) + length (snd s) = length evs)%nat
  /\ (snd s = [] -> kept delivered s = evs).

(** What every state of a run satisfies. *)
Definition sound {U : Type} (delivered : U -> list (list ProductEvent)) (size : Z)
    (s : run_state (U := U)) (evs : list ProductEvent) : Prop :=
  shaped size (bp (fst (fst s)))
  /\ Forall (well_sized size) (delivered (heap (snd (fst s))))
  /\ accounted delivered s evs.

End dispatch_spec.

Module services_spec.
Import models repositories services.

(** The store after the update an event asks for. *)
Definition apply_event (r : InMemoryProductRepository) (event : ProductEvent)
    : InMemoryProductRepository :=
  Update r (ProductID event) (EventPrice event) (EventStock event).

(** [h'] is [h] but for the circuit breaker. *)
Definition same_but_breaker (h h' : Heap) : Prop :=
  repository h' = repository h
  /\ eventQueue h' = eventQueue h
  /\ retryConfig h' = retryConfig h
  /\ workers h' = workers h
  /\ cancelled h' = cancelled h.

(** The breaker lets the next call through: it is not open, or its
    timeout has passed. *)
Definition lets_through (cb : circuitbreaker.CircuitBreaker) (w : World Heap) : Prop :=
  circuitbreaker.state cb = circuitbreaker.Open ->
  circuitbreaker.timeout cb <= time_Since (circuitbreaker.lastFailureTime cb) w.

(** The time a run of the retry loop spends in its sleeps when every
    attempt fails. *)
Definition backoff_time (r : retry.RetryConfig) : Duration :=
  retry_spec.total
    (map (Z.max 0)
       (spec.backoffs r (retry.InitialDelay r) (Z.to_nat (retry.MaxAttempts r - 1)))).

(** The product an event describes. *)
Definition product_of (event : ProductEvent) : Product :=
  {| ID := ProductID event; Price := EventPrice event; Stock := EventStock event |}.

End services_spec.

(** ** Closures and values of the repository's tests *)

Module fixtures.
Import retry models.

(** [func() error { attempts++; return errors.New("test error") }] *)
Definition always_fails : Op nat :=
  fun w => (Returns (Some "test error"), set_heap (S (heap w)) w).

(** [func() error { attempts++; if attempts == k { return nil };
    return errors.New("test error") }] *)
Definition succeeds_on (k : nat) : Op nat :=
  fun w =>
    let attempts := S (heap w) in
    (if Nat.eqb attempts k then Returns None else Returns (Some "test error"),
     set_heap attempts w).

(** The configuration of [TestRetryConfig_ExecuteWithRetry_Failure]. *)
Definition config_3 : RetryConfig := {|
  MaxAttempts := 3;
  InitialDelay := 10 * Millisecond;
  MaxDelay := 100 * Millisecond;
  Multiplier := 2%float
|}.

(** The configuration of [TestRetryConfig_DelayCalculation]. *)
Definition config_5 : RetryConfig := {|
  MaxAttempts := 5;
  InitialDelay := 10 * Millisecond;
  MaxDelay := 50 * Millisecond;
  Multiplier := 2%float
|}.

(** A configuration whose multiplier is not an integer. *)
Definition config_fraction : RetryConfig := {|
  MaxAttempts := 4;
  InitialDelay := 100 * Millisecond;
  MaxDelay := 200 * Millisecond;
  Multiplier := 1.5%float
|}.

(** A world in which nothing has happened yet. *)
Definition start : World nat := mkWorld 0 [] 0%nat.

(** The same one second after the zero time. *)
Definition later : World nat := mkWorld (1 * Second) [] 0%nat.

Definition event (id : string) (price : float) (stock : Z) : ProductEvent :=
  {| ProductID := id; EventPrice := price; EventStock := stock |}.

End fixtures.

(** ** More closures of the tests *)

Module recorders.
Import models.

(** The heap of [TestRetryConfig_ExecuteWithRetryAndCallback]: the
    counter [attempts] and what the callback was called with. *)
Definition Calls : Type := (nat * list (Z * error))%type.

(** [func() error { attempts++; return errors.New("test error") }] *)
Definition failing : Op Calls :=
  fun w => (Returns (Some "test error"), set_heap (S (fst (heap w)), snd (heap w)) w).

(** A callback that keeps its arguments. *)
Definition record_failure (attempt : Z) (err : error) (w : World Calls) : World Calls :=
  set_heap (fst (heap w), snd (heap w) ++ [(attempt, err)]) w.

Definition start : World Calls := mkWorld 0 [] (0%nat, []).

(** [func() error { attempts++; return nil }] *)
Definition always_succeeds : Op nat :=
  fun w => (Returns None, set_heap (S (heap w)) w).

(** [func() error { attempts++; panic("boom") }] *)
Definition panicking : Op nat :=
  fun w => (Panics "boom", set_heap (S (heap w)) w).

(** [func(events []models.ProductEvent) error { processedBatches =
    append(processedBatches, events); return nil }] *)
Definition record_batch (events : list ProductEvent) : Op (list (list ProductEvent)) :=
  fun w => (Returns None, set_heap (heap w ++ [events]) w).

(** [TestBatchProcessor_AddEvent_BatchSizeReached] and more: three
    events for a batch size of 3, the loop takes the batch, a fourth
    event, [Stop], the loop takes the stop case. *)
Definition test_run : list dispatch_spec.action :=
  [dispatch_spec.Add (fixtures.event "0" 0 0);
   dispatch_spec.Add (fixtures.event "1" 1 1);
   dispatch_spec.Add (fixtures.event "2" 2 2);
   dispatch_spec.Select dispatch.BatchReady;
   dispatch_spec.Add (fixtures.event "3" 3 3);
   dispatch_spec.CallStop;
   dispatch_spec.Select dispatch.StopRequested].

(** The batch processor [NewBatchProcessor(3, time.Second, ...)] returns. *)
Definition processor_3 : queue.BatchProcessor :=
  {| queue.batchSize := 3; queue.flushInterval := 1 * Second; queue.batch := [];
     queue.flushChan := channel.mkChan [] 10 false O [] |}.

(** A world in which no batch was delivered. *)
Definition nothing_delivered : World (list (list ProductEvent)) := mkWorld 0 [] [].

(** A batch processor that was stopped with one event in its buffer;
    its loop has not seen it yet. *)
Definition stopped : dispatch.Processor :=
  {| dispatch.bp :=
       {| queue.batchSize := 3; queue.flushInterval := 1 * Second;
          queue.batch := [fixtures.event "3" 3 3];
          queue.flushChan := channel.mkChan [] 10 false O [] |};
     dispatch.stopChan := channel.mkChan [] 0 true O [];
     dispatch.returned := false |}.

End recorders.

(** ** Services as [main] and the tests build them *)

Module service_fixtures.
Import models services.

(** [queue.NewInMemoryEventQueue(10)] *)
Definition queue_10 : queue.InMemoryEventQueue :=
  {| queue.events := channel.mkChan [] 10 false O [] |}.

(** A service that has just been built, no worker running yet. *)
Definition fresh : World Heap :=
  mkWorld 0 [] (NewProductService repositories.NewInMemoryProductRepository queue_10 1).

(** The same service with two events waiting on its queue. *)
Definition two_waiting : World Heap :=
  mkWorld 0 []
    (NewProductService repositories.NewInMemoryProductRepository
       {| queue.events :=
            channel.mkChan [fixtures.event "p1" 10 5; fixtures.event "p2" 20 7]
              10 false O [] |} 1).

(** The same service one second after its breaker opened. *)
Definition tripped : World Heap :=
  mkWorld (1 * Second) []
    {| repository := repositories.NewInMemoryProductRepository;
       eventQueue := queue_10;
       circuitBreaker :=
         {| circuitbreaker.failureThreshold := 5;
            circuitbreaker.timeout := 60 * Second;
            circuitbreaker.state := circuitbreaker.Open;
            circuitbreaker.failures := 5;
            circuitbreaker.lastFailureTime := 0 |};
       retryConfig := retry.DefaultRetryConfig;
       workers := 1;
       cancelled := false |}.

End service_fixtures.

(** ** float64 arithmetic on integers below 2^53 *)

Module float_facts.
Import retry spec.

(** The number of binary digits of a positive number. *)
Lemma digits2_pos_bounds (p : positive) :
  2 ^ (Z.pos (digits2_pos p) - 1) <= Z.pos p < 2 ^ Z.pos (digits2_pos p).
Proof.
  induction p as [p IH|p IH|]; cbn [digits2_pos].
  - rewrite Pos2Z.inj_succ.
    replace (Z.succ (Z.pos (digits2_pos p)) - 1) with (Z.pos (digits2_pos p)) by lia.
    rewrite Z.pow_succ_r by lia.
    replace (2 ^ Z.pos (digits2_pos p))
      with (2 * 2 ^ (Z.pos (digits2_pos p) - 1)) in *
      by (rewrite <- Z.pow_succ_r by lia; f_equal; lia).
    lia.
  - rewrite Pos2Z.inj_succ.
    replace (Z.succ (Z.pos (digits2_pos p)) - 1) with (Z.pos (digits2_pos p)) by lia.
    rewrite Z.pow_succ_r by lia.
    replace (2 ^ Z.pos (digits2_pos p))
      with (2 * 2 ^ (Z.pos (digits2_pos p) - 1)) in *
      by (rewrite <- Z.pow_succ_r by lia; f_equal; lia).
    lia.
  - cbn. lia.
Qed.

Lemma Zdigits2_log2 (p : positive) :
  Zdigits2 (Z.pos p) = Z.log2 (Z.pos p) + 1.
Proof.
  cbn [Zdigits2]. pose proof (digits2_pos_bounds p) as H.
  symmetry. rewrite (Z.log2_unique (Z.pos p) (Z.pos (digits2_pos p) - 1)); [lia | lia |].
  replace (Z.succ (Z.pos (digits2_pos p) - 1)) with (Z.pos (digits2_pos p)) by lia.
  exact H.
Qed.

Lemma shr_1_even (m : Z) :
  0 < m -> (2 | m) ->
  shr_1 {| shr_m := m; shr_r := false; shr_s := false |}
  = {| shr_m := m / 2; shr_r := false; shr_s := false |}.
Proof.
  intros Hpos [k Hk]. destruct m as [|p|p]; try lia.
  destruct p as [p|p|].
  - lia.
  - cbn [shr_1 orb]. f_equal. rewrite Pos2Z.inj_xO, Z.mul_comm, Z.div_mul; lia.
  - lia.
Qed.

Lemma iter_pos_nat {A : Type} (f : A -> A) (n : positive) :
  forall x, SpecFloat.iter_pos f n x = Nat.iter (Pos.to_nat n) f x.
Proof.
  induction n as [n IH|n IH|]; intros x; cbn [SpecFloat.iter_pos].
  - rewrite !IH, Pos2Nat.inj_xI.
    replace (2 * Pos.to_nat n)%nat with (Pos.to_nat n + Pos.to_nat n)%nat by lia.
    rewrite Nat.iter_succ, Nat.iter_add, <- !Nat.iter_swap. reflexivity.
  - rewrite !IH, Pos2Nat.inj_xO.
    replace (2 * Pos.to_nat n)%nat with (Pos.to_nat n + Pos.to_nat n)%nat by lia.
    rewrite Nat.iter_add. reflexivity.
  - reflexivity.
Qed.

Lemma iter_shr_1_nat (k : nat) (m : Z) :
  0 < m -> (2 ^ Z.of_nat k | m) ->
  Nat.iter k shr_1 {| shr_m := m; shr_r := false; shr_s := false |}
  = {| shr_m := m / 2 ^ Z.of_nat k; shr_r := false; shr_s := false |}.
Proof.
  intros Hpos. induction k as [|k IH]; intros Hdiv.
  - cbn. rewrite Z.div_1_r. reflexivity.
  - rewrite Nat.iter_succ. rewrite Nat2Z.inj_succ, Z.pow_succ_r in * by lia.
    destruct Hdiv as [q Hq].
    assert (Hp : 0 < 2 ^ Z.of_nat k) by (apply Z.pow_pos_nonneg; lia).
    assert (Hm : m / 2 ^ Z.of_nat k = q * 2).
    { rewrite Hq. replace (q * (2 * 2 ^ Z.of_nat k)) with (q * 2 * 2 ^ Z.of_nat k) by ring.
      apply Z.div_mul. lia. }
    rewrite IH by (exists (q * 2); rewrite Hq; ring).
    rewrite shr_1_even.
    + f_equal. rewrite Z.div_div by lia. f_equal. ring.
    + rewrite Hm. nia.
    + exists q. exact Hm.
Qed.

Lemma iter_shr_1_exact (n : positive) (m : Z) :
  0 < m -> (2 ^ Z.pos n | m) ->
  SpecFloat.iter_pos shr_1 n {| shr_m := m; shr_r := false; shr_s := false |}
  = {| shr_m := m / 2 ^ Z.pos n; shr_r := false; shr_s := false |}.
Proof.
  intros Hpos Hdiv. rewrite iter_pos_nat.
  rewrite <- (positive_nat_Z n) in *. apply iter_shr_1_nat; assumption.
Qed.

Lemma fexp_64 (k : Z) : fexp prec emax k = Z.max (k - 53) (-1074).
Proof. reflexivity. Qed.

(** Rounding a mantissa that needs no shift changes nothing. *)
Lemma binary_round_aux_fits (sx : bool) (mx : positive) (ex : Z) :
  fexp prec emax (Zdigits2 (Z.pos mx) + ex) <= ex -> ex <= 971 ->
  binary_round_aux prec emax sx (Z.pos mx) ex loc_Exact = S754_finite sx mx ex.
Proof.
  intros Hn He. unfold binary_round_aux, shr_fexp.
  cbn [shr_record_of_loc].
  assert (Hshr : forall mrs,
            shr mrs ex (fexp prec emax (Zdigits2 (Z.pos mx) + ex) - ex) = (mrs, ex)).
  { intros mrs. unfold shr.
    destruct (fexp prec emax (Zdigits2 (Z.pos mx) + ex) - ex) eqn:E; try reflexivity. lia. }
  rewrite Hshr. cbn [shr_m loc_of_shr_record round_nearest_even shr_record_of_loc].
  rewrite Hshr. cbn [shr_m].
  replace (ex <=? emax - prec) with true; [reflexivity|].
  symmetry. apply Z.leb_le. change (emax - prec) with 971. exact He.
Qed.

(** Rounding a mantissa whose digits that are shifted out are zeros is
    exact. *)
Lemma binary_round_aux_shifts (sx : bool) (mx : positive) (ex n : Z) :
  n = fexp prec emax (Zdigits2 (Z.pos mx) + ex) - ex ->
  0 < n -> (2 ^ n | Z.pos mx) -> ex + n <= 971 ->
  exists m' : positive,
    binary_round_aux prec emax sx (Z.pos mx) ex loc_Exact = S754_finite sx m' (ex + n)
    /\ Z.pos mx = Z.pos m' * 2 ^ n.
Proof.
  intros Hn Hpos Hdiv He.
  assert (Hp : 0 < 2 ^ n) by (apply Z.pow_pos_nonneg; lia).
  destruct Hdiv as [q Hq].
  assert (Hq0 : 0 < q) by nia.
  destruct q as [|m'|m']; try lia.
  exists m'. split; [|exact Hq].
  unfold binary_round_aux, shr_fexp. cbn [shr_record_of_loc].
  rewrite <- Hn. destruct n as [|n|n]; try lia.
  cbn [shr]. rewrite iter_shr_1_exact by (try lia; exists (Z.pos m'); exact Hq).
  rewrite Hq, Z.div_mul by lia.
  cbn [shr_m loc_of_shr_record round_nearest_even shr_record_of_loc].
  assert (Hd : Zdigits2 (Z.pos m') = Zdigits2 (Z.pos mx) - Z.pos n).
  { rewrite !Zdigits2_log2, Hq, Z.log2_mul_pow2 by lia. lia. }
  rewrite Hd.
  replace (Zdigits2 (Z.pos mx) - Z.pos n + (ex + Z.pos n))
    with (Zdigits2 (Z.pos mx) + ex) by lia.
  replace (fexp prec emax (Zdigits2 (Z.pos mx) + ex) - (ex + Z.pos n)) with 0 by lia.
  cbn [shr shr_m].
  replace (ex + Z.pos n <=? emax - prec) with true; [reflexivity|].
  symmetry. apply Z.leb_le. change (emax - prec) with 971. exact He.
Qed.

Lemma Pos_iter_xO (p k : positive) :
  Z.pos (Pos.iter xO p k) = Z.pos p * 2 ^ Z.pos k.
Proof.
  induction k as [|k IH] using Pos.peano_ind.
  - cbn [Pos.iter]. rewrite Pos2Z.inj_xO. change (2 ^ 1) with 2. ring.
  - rewrite Pos.iter_succ, Pos2Z.inj_xO, IH, Pos2Z.inj_succ, Z.pow_succ_r by lia. ring.
Qed.

Lemma digits_lt (p : positive) (k : Z) :
  0 <= k -> Z.pos p < 2 ^ k -> Zdigits2 (Z.pos p) <= k.
Proof.
  intros Hk Hp. rewrite Zdigits2_log2.
  assert (Z.log2 (Z.pos p) < k) by (apply Z.log2_lt_pow2; lia). lia.
Qed.

Lemma digits_pos (p : positive) : 1 <= Zdigits2 (Z.pos p).
Proof. rewrite Zdigits2_log2. pose proof (Z.log2_nonneg (Z.pos p)). lia. Qed.

(** The float64 of a positive integer below [2^53] is that integer. *)
Lemma Prim2SF_of_pos (d : positive) :
  Z.pos d < 2 ^ 53 ->
  exists (m : positive) (e : Z),
    Prim2SF (of_uint63 (Uint63.of_Z (Z.pos d))) = S754_finite false m e
    /\ -52 <= e <= 0
    /\ Z.pos m = Z.pos d * 2 ^ (- e).
Proof.
  intros Hd. rewrite of_uint63_spec, Uint63.of_Z_spec.
  rewrite Z.mod_small by (change Uint63.wB with (2 ^ 63); lia).
  cbn [binary_normalize]. unfold binary_round.
  pose proof (digits_lt d 53 ltac:(lia) Hd) as Hle.
  pose proof (digits_pos d) as Hge.
  change (Z.pos (digits2_pos d)) with (Zdigits2 (Z.pos d)).
  rewrite fexp_64. rewrite Z.max_l by lia. unfold shl_align.
  destruct (Zdigits2 (Z.pos d) + 0 - 53 - 0) as [|k|k] eqn:Ek; try lia.
  - exists d, 0. split; [|split; [lia | cbn; lia]].
    apply binary_round_aux_fits; [rewrite fexp_64; lia | lia].
  - exists (Pos.iter xO d k), (Zdigits2 (Z.pos d) + 0 - 53). split; [|split; [lia|]].
    + apply binary_round_aux_fits; [|lia].
      rewrite fexp_64, !Zdigits2_log2, Pos_iter_xO, Z.log2_mul_pow2 by lia.
      rewrite Zdigits2_log2 in *. lia.
    + rewrite Pos_iter_xO. f_equal. f_equal. lia.
Qed.

(** A product whose exact value is an integer below [2^53] is computed
    exactly. *)
Lemma SFmul_exact (s : bool) (m1 mf : positive) (e1 ef : Z) (d p : Z) :
  Z.pos m1 = d * 2 ^ (- e1) -> -52 <= e1 <= 0 ->
  valid_binary (S754_finite false mf ef) = true ->
  0 < d -> 0 < p < 2 ^ 53 ->
  p * 2 ^ Z.max 0 (- ef) = d * Z.pos mf * 2 ^ Z.max 0 ef ->
  exists (m' : positive) (e' : Z),
    SFmul prec emax (S754_finite s m1 e1) (S754_finite false mf ef)
    = S754_finite s m' e'
    /\ magnitude m' e' = p.
Proof.
  intros Hm1 He1 Hvalid Hd Hp Hprod.
  cbn [SFmul]. rewrite xorb_false_r.
  cbn [SpecFloat.valid_binary] in Hvalid. unfold bounded in Hvalid.
  apply andb_prop in Hvalid. destruct Hvalid as [_ Hef]. apply Z.leb_le in Hef.
  change (emax - prec) with 971 in Hef.
  set (E := e1 + ef).
  assert (HK : Z.pos (m1 * mf) * 2 ^ Z.max 0 E = p * 2 ^ Z.max 0 (- E)).
  { rewrite Pos2Z.inj_mul, Hm1. subst E.
    destruct (Z.le_gt_cases 0 ef) as [H0|H0].
    - rewrite (Z.max_r 0 ef), (Z.max_l 0 (- ef)) in Hprod by lia.
      rewrite Z.pow_0_r, Z.mul_1_r in Hprod. rewrite Hprod.
      destruct (Z.le_gt_cases 0 (e1 + ef)) as [H1|H1].
      + rewrite (Z.max_r 0 (e1 + ef)), (Z.max_l 0 (- (e1 + ef))) by lia.
        rewrite Z.pow_0_r, Z.mul_1_r.
        assert (Hpw : 2 ^ ef = 2 ^ (- e1) * 2 ^ (e1 + ef))
          by (rewrite <- Z.pow_add_r by lia; f_equal; lia).
        rewrite Hpw. ring.
      + rewrite (Z.max_l 0 (e1 + ef)), (Z.max_r 0 (- (e1 + ef))) by lia.
        rewrite Z.pow_0_r, Z.mul_1_r.
        assert (Hpw : 2 ^ (- e1) = 2 ^ ef * 2 ^ (- (e1 + ef)))
          by (rewrite <- Z.pow_add_r by lia; f_equal; lia).
        rewrite Hpw. ring.
    - rewrite (Z.max_l 0 ef), (Z.max_r 0 (- ef)) in Hprod by lia.
      rewrite Z.pow_0_r, Z.mul_1_r in Hprod.
      rewrite (Z.max_l 0 (e1 + ef)), (Z.max_r 0 (- (e1 + ef))) by lia.
      rewrite Z.pow_0_r, Z.mul_1_r.
      assert (Hpw : 2 ^ (- (e1 + ef)) = 2 ^ (- ef) * 2 ^ (- e1))
        by (rewrite <- Z.pow_add_r by lia; f_equal; lia).
      rewrite Hpw, Z.mul_assoc, Hprod. ring. }
  assert (HE : E <= 971) by (subst E; lia).
  clearbody E.
  set (P := (m1 * mf)%positive) in *.
  assert (Hdig : Zdigits2 (Z.pos P) + E = Z.log2 p + 1).
  { rewrite Zdigits2_log2.
    destruct (Z.le_gt_cases 0 E) as [H1|H1].
    - rewrite (Z.max_r 0 E), (Z.max_l 0 (- E)), Z.pow_0_r, Z.mul_1_r in HK by lia.
      rewrite <- HK, Z.log2_mul_pow2 by lia. lia.
    - rewrite (Z.max_l 0 E), (Z.max_r 0 (- E)), Z.pow_0_r, Z.mul_1_r in HK by lia.
      rewrite HK, Z.log2_mul_pow2 by lia. lia. }
  assert (Hlog : 0 <= Z.log2 p < 53).
  { split; [apply Z.log2_nonneg | apply Z.log2_lt_pow2; lia]. }
  destruct (Z.le_gt_cases (Z.log2 p + 1 - 53) E) as [Hn|Hn].
  - exists P, E. split.
    + apply binary_round_aux_fits; [rewrite fexp_64, Hdig; lia | lia].
    + unfold magnitude. destruct (0 <=? E) eqn:E0.
      * apply Z.leb_le in E0.
        rewrite (Z.max_r 0 E), (Z.max_l 0 (- E)), Z.pow_0_r, Z.mul_1_r in HK by lia.
        rewrite Z.shiftl_mul_pow2 by lia. exact HK.
      * apply Z.leb_gt in E0.
        rewrite (Z.max_l 0 E), (Z.max_r 0 (- E)), Z.pow_0_r, Z.mul_1_r in HK by lia.
        rewrite Z.shiftr_div_pow2 by lia. rewrite HK. apply Z.div_mul.
        apply Z.pow_nonzero; lia.
  - set (n := Z.log2 p + 1 - 53 - E).
    rewrite (Z.max_l 0 E), (Z.max_r 0 (- E)), Z.pow_0_r, Z.mul_1_r in HK by lia.
    assert (HP : Z.pos P = p * 2 ^ (- E - n) * 2 ^ n).
    { rewrite HK, <- Z.mul_assoc, <- Z.pow_add_r by lia. f_equal. f_equal. lia. }
    destruct (binary_round_aux_shifts s P E n) as (m' & Hround & Hm').
    + rewrite fexp_64, Hdig. lia.
    + lia.
    + exists (p * 2 ^ (- E - n)). exact HP.
    + lia.
    + exists m', (E + n). split; [exact Hround|].
      assert (Hm : Z.pos m' = p * 2 ^ (- E - n)).
      { rewrite HP in Hm'. apply Z.mul_cancel_r in Hm'; [lia|].
        apply Z.pow_nonzero; lia. }
      unfold magnitude. destruct (0 <=? E + n) eqn:E0.
      * apply Z.leb_le in E0. replace (E + n) with 0 by lia.
        rewrite Z.shiftl_0_r, Hm. replace (- E - n) with 0 by lia.
        rewrite Z.pow_0_r. ring.
      * rewrite Z.shiftr_div_pow2 by lia. rewrite Hm.
        replace (- (E + n)) with (- E - n) by lia. apply Z.div_mul.
        apply Z.pow_nonzero; lia.
Qed.

(** [scale] multiplies exactly when the exact product is an integer and
    delay and product are below [2^53] in magnitude. *)
Lemma scale_exact (d : Z) (f : float) (mf : positive) (ef : Z) (p : Z) :
  Prim2SF f = S754_finite false mf ef ->
  - 2 ^ 53 < d < 2 ^ 53 -> - 2 ^ 53 < p < 2 ^ 53 ->
  p * 2 ^ Z.max 0 (- ef) = d * Z.pos mf * 2 ^ Z.max 0 ef ->
  scale d f = p.
Proof.
  intros Hf Hd Hp Hprod.
  assert (Hvalid : valid_binary (S754_finite false mf ef) = true)
    by (rewrite <- Hf; apply Prim2SF_valid).
  assert (Hpow1 : 0 < 2 ^ Z.max 0 (- ef)) by (apply Z.pow_pos_nonneg; lia).
  assert (Hpow2 : 0 < 2 ^ Z.max 0 ef) by (apply Z.pow_pos_nonneg; lia).
  unfold scale, int64_of_float64, float64_of_int64.
  destruct (d =? int64_min) eqn:Emin.
  { apply Z.eqb_eq in Emin. unfold int64_min in Emin. lia. }
  rewrite mul_spec. unfold SF64mul.
  destruct d as [|dp|dp].
  - assert (p = 0) by nia. subst p.
    cbn [Z.ltb Z.compare]. rewrite of_uint63_spec. rewrite Hf. reflexivity.
  - assert (0 < p) by nia.
    cbn [Z.ltb Z.compare].
    destruct (Prim2SF_of_pos dp ltac:(lia)) as (m1 & e1 & H1 & He1 & Hm1).
    rewrite H1, Hf.
    destruct (SFmul_exact false m1 mf e1 ef (Z.pos dp) p Hm1 He1 Hvalid) as
      (m' & e' & Hmul & Hmag); [lia | lia | exact Hprod |].
    rewrite Hmul. cbv beta iota zeta. fold (magnitude m' e'). rewrite Hmag.
    replace ((int64_min <=? p) && (p <=? int64_max)) with true; [reflexivity|].
    symmetry. apply andb_true_intro. unfold int64_min, int64_max.
    split; [apply Z.leb_le | apply Z.leb_le]; lia.
  - assert (p < 0) by nia.
    cbn [Z.ltb Z.compare Z.opp].
    destruct (Prim2SF_of_pos dp ltac:(lia)) as (m1 & e1 & H1 & He1 & Hm1).
    change (- Z.neg dp) with (Z.pos dp).
    rewrite opp_spec, H1, Hf. cbn [SFopp negb].
    destruct (SFmul_exact true m1 mf e1 ef (Z.pos dp) (- p) Hm1 He1 Hvalid) as
      (m' & e' & Hmul & Hmag); [lia | lia | |].
    { rewrite Z.mul_opp_l, Hprod. rewrite <- !Z.mul_opp_l. reflexivity. }
    rewrite Hmul. cbv beta iota zeta. fold (magnitude m' e').
    rewrite Hmag, Z.opp_involutive.
    replace ((int64_min <=? p) && (p <=? int64_max)) with true; [reflexivity|].
    symmetry. apply andb_true_intro. unfold int64_min, int64_max.
    split; [apply Z.leb_le | apply Z.leb_le]; lia.
Qed.

End float_facts.


(** * Properties *)

(** ** Retry executor *)

Module retry_facts.
Import retry.

Lemma wrap64_id (z : Z) : int64_range z -> wrap64 z = z.
Proof.
  unfold int64_range, int64_min, int64_max, wrap64. intros H.
  rewrite Z.mod_small; lia.
Qed.

Section Facts.
Context {U : Type}.
Implicit Types (r : RetryConfig) (operation : Op U) (w : World U).

(** [ExecuteWithRetry] is [ExecuteWithRetryAndCallback] with a nil
    callback: the two loops differ in the call of [onFailure] only. *)
Lemma retry_loop_nil_callback r operation fuel attempt delay w :
  retry_loop r operation fuel attempt delay w
  = callback_loop r operation None fuel attempt delay w.
Proof.
  revert attempt delay w.
  induction fuel as [|fuel IH]; intros attempt delay w; [reflexivity|].
  cbn [retry_loop callback_loop].
  destruct (attempt <=? MaxAttempts r); [|reflexivity].
  destruct (operation w) as [[[e|]|msg] w1]; try reflexivity.
  destruct (attempt =? MaxAttempts r); [reflexivity|]. apply IH.
Qed.

(** The fuel [loop_tests] gives the loops is enough: both executors
    return for every configuration, operation and callback. *)
Lemma callback_loop_returns r operation onFailure (fuel : nat) :
  MaxAttempts r <= int64_max ->
  forall attempt delay w,
  1 <= attempt -> MaxAttempts r - attempt < Z.of_nat fuel -> (0 < fuel)%nat ->
  exists res, callback_loop r operation onFailure fuel attempt delay w = Some res.
Proof.
  intros Hmax. induction fuel as [|fuel IH]; intros attempt delay w Ha Hfuel Hpos; [lia|].
  cbn [callback_loop].
  destruct (attempt <=? MaxAttempts r) eqn:E1; [|eauto].
  apply Z.leb_le in E1.
  destruct (operation w) as [[[e|]|msg] w1]; eauto.
  destruct (attempt =? MaxAttempts r) eqn:E2; [eauto|].
  apply Z.eqb_neq in E2.
  rewrite wrap64_id by (unfold int64_range, int64_min, int64_max in *; lia).
  apply IH; lia.
Qed.

Lemma ExecuteWithRetryAndCallback_returns r operation onFailure w :
  MaxAttempts r <= int64_max ->
  exists res, ExecuteWithRetryAndCallback r operation onFailure w = Some res.
Proof.
  intros Hmax. apply callback_loop_returns; unfold loop_tests; lia.
Qed.

Lemma ExecuteWithRetry_returns r operation w :
  MaxAttempts r <= int64_max ->
  exists res, ExecuteWithRetry r operation w = Some res.
Proof.
  intros Hmax. unfold ExecuteWithRetry. rewrite retry_loop_nil_callback.
  apply (ExecuteWithRetryAndCallback_returns r operation None w Hmax).
Qed.

(** (C10) With [MaxAttempts <= 0] the loop test fails at once: both
    executors return nil in the world they were called in, whatever the
    operation and the callback are; the operation is not invoked and
    nothing sleeps. *)
Theorem no_attempts_returns_nil r operation onFailure w :
  MaxAttempts r <= 0 ->
  ExecuteWithRetry r operation w = Some (Returns None, w)
  /\ ExecuteWithRetryAndCallback r operation onFailure w = Some (Returns None, w).
Proof.
  intros H. unfold ExecuteWithRetry, ExecuteWithRetryAndCallback, loop_tests.
  cbn [retry_loop callback_loop].
  destruct (1 <=? MaxAttempts r) eqn:E; [apply Z.leb_le in E; lia|].
  split; reflexivity.
Qed.

End Facts.

Lemma no_attempts_returns_nil_witness :
  let r := {| MaxAttempts := 0; InitialDelay := 10 * Millisecond;
              MaxDelay := 100 * Millisecond; Multiplier := 2%float |} in
  let w := mkWorld 0 [] 0%nat in
  ExecuteWithRetry r fixtures.always_fails w = Some (Returns None, w)
  /\ ExecuteWithRetryAndCallback r fixtures.always_fails None w = Some (Returns None, w).
Proof. intros r w. apply (no_attempts_returns_nil r fixtures.always_fails None w). simpl. lia. Defined.

End retry_facts.
Module retry_runs.
Import retry spec retry_facts.

Section Runs.
Context {U : Type} (r : RetryConfig) (operation : Op U).
Hypothesis Hmax : MaxAttempts r <= int64_max.

Lemma untraced_set_heap (w : World U) (l : list (outcome (option error))) :
  untraced (set_heap (l, heap w) w) = w.
Proof. destruct w. reflexivity. Qed.

(** Keeping the results changes nothing in what the operation does. *)
Lemma traced_untraced (w : World (list (outcome (option error)) * U)) :
  fst (traced operation w) = fst (operation (untraced w))
  /\ untraced (snd (traced operation w)) = snd (operation (untraced w))
  /\ fst (heap (snd (traced operation w)))
     = fst (heap w) ++ [fst (operation (untraced w))].
Proof.
  unfold traced, untraced.
  destruct (operation (set_heap (snd (heap w)) w)) as [res [c s h]]. cbn. auto.
Qed.

(** Nor in what the loop does with it. *)
Lemma traced_loop_untraced (fuel : nat) :
  forall attempt delay w,
  callback_loop r operation None fuel attempt delay (untraced w)
  = option_map (fun run => (fst run, untraced (snd run)))
      (callback_loop r (traced operation) None fuel attempt delay w).
Proof.
  induction fuel as [|fuel IH]; intros attempt delay w; [reflexivity|].
  cbn [callback_loop].
  destruct (attempt <=? MaxAttempts r); [|reflexivity].
  destruct (traced_untraced w) as (Hres & Hw & _).
  destruct (traced operation w) as [res w1]. cbn [fst snd] in Hres, Hw.
  destruct (operation (untraced w)) as [res' w1']. cbn [fst snd] in Hres, Hw.
  subst res' w1'.
  destruct res as [[e|]|msg]; try reflexivity.
  destruct (attempt =? MaxAttempts r); [reflexivity|].
  apply (IH _ _ (time_Sleep delay w1)).
Qed.

(** The invocations of a run of the loop from attempt [attempt] on:
    failures, [MaxAttempts - attempt + 1] of them when the run ends in
    the error of the executor, and otherwise fewer, followed by the
    invocation whose result the run ends with. *)
Lemma traced_loop_results (fuel : nat) :
  forall attempt delay w res w',
  1 <= attempt <= MaxAttempts r ->
  callback_loop r (traced operation) None fuel attempt delay w = Some (res, w') ->
  exists (errs : list error),
    match res with
    | Returns (Some e) =>
        fst (heap w') = fst (heap w) ++ map (fun e => Returns (Some e)) errs
        /\ attempt + Z.of_nat (length errs) = MaxAttempts r + 1
        /\ e = exhausted r
    | _ =>
        fst (heap w') = fst (heap w) ++ map (fun e => Returns (Some e)) errs ++ [res]
        /\ attempt + Z.of_nat (length errs) <= MaxAttempts r
        /\ exists wk, operation wk = (res, untraced w')
    end.
Proof.
  induction fuel as [|fuel IH]; intros attempt delay w res w' Ha H; [discriminate|].
  cbn [callback_loop] in H.
  destruct (attempt <=? MaxAttempts r) eqn:E1; [|apply Z.leb_gt in E1; lia].
  destruct (traced_untraced w) as (Hres & Hw & Hlog).
  destruct (traced operation w) as [res1 w1]. cbn [fst snd] in Hres, Hw, Hlog.
  rewrite <- Hres in Hlog.
  assert (Hwk : operation (untraced w) = (res1, untraced w1)).
  { destruct (operation (untraced w)) as [res2 w2]. cbn [fst snd] in Hres, Hw.
    congruence. }
  clear Hres Hw.
  destruct res1 as [[e|]|msg].
  - destruct (attempt =? MaxAttempts r) eqn:E2.
    + apply Z.eqb_eq in E2. injection H as <- <-. exists [e].
      cbn [map length]. split; [exact Hlog|]. split; [lia | reflexivity].
    + apply Z.eqb_neq in E2.
      rewrite wrap64_id in H by (unfold int64_range, int64_min, int64_max in *; lia).
      apply IH in H; [|lia]. destruct H as (errs & H). exists (e :: errs).
      cbn [time_Sleep heap] in H. rewrite Hlog in H.
      destruct res as [[e'|]|msg']; destruct H as (H1 & H2 & H3);
        rewrite <- app_assoc in H1; cbn [map length app] in *;
        (split; [exact H1|]; split; [lia | exact H3]).
  - injection H as <- <-. exists []. cbn [map length app].
    split; [exact Hlog|]. split; [lia|]. exists (untraced w). exact Hwk.
  - injection H as <- <-. exists []. cbn [map length app].
    split; [exact Hlog|]. split; [lia|]. exists (untraced w). exact Hwk.
Qed.

End Runs.

Lemma Forall_removelast {A : Type} (P : A -> Prop) (l : list A) :
  Forall P l -> Forall P (removelast l).
Proof.
  induction 1 as [|x l Hx Hl IH]; [constructor|].
  cbn [removelast]. destruct l; [constructor|]. constructor; assumption.
Qed.

Lemma Forall_failed_map (errs : list error) :
  Forall failed (map (fun e => Returns (Some e)) errs).
Proof.
  induction errs as [|e errs IH]; constructor; [exists e; reflexivity | exact IH].
Qed.

Lemma nth_error_failures (errs : list error) (k : nat) (res : outcome (option error)) :
  nth_error (map (fun e => Returns (Some e)) errs) k = Some res -> failed res.
Proof.
  intros H. apply nth_error_In in H.
  pose proof (Forall_failed_map errs) as Hall.
  rewrite List.Forall_forall in Hall. apply Hall. exact H.
Qed.

Section Theorems.
Context {U : Type}.
Implicit Types (r : RetryConfig) (operation : Op U).

(** (C3) For a [RetryConfig] with [MaxAttempts >= 1], whatever the
    operation is and whatever its invocations depend on:
    [ExecuteWithRetry] returns, having invoked the operation at least
    once and at most [MaxAttempts] times, and every invocation but the
    last has failed.  If every invocation the run makes fails, there are
    exactly [MaxAttempts] of them and the result is the error "operation
    failed after N attempts", N being [MaxAttempts], whatever the errors
    of the operation were.  If the [k]-th invocation returns nil, it is
    the first to succeed and the last of the run: the operation is
    invoked exactly [k] times, [k <= MaxAttempts], and
    [ExecuteWithRetry] returns nil in the world that invocation ended
    in.  The invocations are those of the run itself: [results] is what
    they returned, in order, kept by [traced], which changes nothing in
    the run. *)
Theorem ExecuteWithRetry_attempts r operation (w : World U) :
  1 <= MaxAttempts r -> MaxAttempts r <= int64_max ->
  exists res w',
    ExecuteWithRetry r (traced operation) (set_heap ([], heap w) w) = Some (res, w')
    /\ ExecuteWithRetry r operation w = Some (res, untraced w')
    /\ let results := fst (heap w') in
       1 <= Z.of_nat (length results) <= MaxAttempts r
       /\ Forall failed (removelast results)
       /\ (Forall failed results ->
           Z.of_nat (length results) = MaxAttempts r
           /\ res = Returns (Some (String.append "operation failed after "
                      (String.append (fmt_d (MaxAttempts r)) " attempts"))))
       /\ (forall k : nat,
           nth_error results (k - 1) = Some (Returns None) -> (1 <= k)%nat ->
           length results = k /\ Z.of_nat k <= MaxAttempts r
           /\ res = Returns None
           /\ exists wk, operation wk = (Returns None, untraced w')).
Proof.
  intros H1 Hmax.
  set (w0 := set_heap (@nil (outcome (option error)), heap w) w).
  destruct (ExecuteWithRetry_returns r (traced operation) w0 Hmax) as [[res w'] Hrun].
  exists res, w'. split; [exact Hrun|].
  unfold ExecuteWithRetry in Hrun |- *.
  rewrite retry_loop_nil_callback in Hrun. rewrite retry_loop_nil_callback.
  split.
  { pose proof (traced_loop_untraced r operation (loop_tests r) 1 (InitialDelay r) w0)
      as Hu.
    unfold w0 in Hu at 1. rewrite untraced_set_heap in Hu.
    rewrite Hu, Hrun. reflexivity. }
  destruct (traced_loop_results r operation Hmax (loop_tests r) 1 (InitialDelay r)
              w0 res w' ltac:(lia) Hrun) as (errs & Hres).
  cbn zeta. cbn [w0 set_heap heap fst app] in Hres.
  pose proof (Forall_failed_map errs) as Hfailed.
  destruct res as [[e|]|msg].
  - destruct Hres as (Hlog & Hn & He). rewrite Hlog, length_map.
    split; [lia|]. split; [|split].
    + apply Forall_removelast. exact Hfailed.
    + intros _. split; [lia | rewrite He; reflexivity].
    + intros k Hk _. apply nth_error_failures in Hk. destruct Hk as [e' He'].
      discriminate.
  - destruct Hres as (Hlog & Hn & Hwk). rewrite Hlog, length_app, length_map.
    cbn [length]. split; [lia|]. split; [|split].
    + rewrite removelast_last. exact Hfailed.
    + intros Hall. apply Forall_app in Hall. destruct Hall as [_ Hall].
      apply Forall_inv in Hall. destruct Hall as [e He]. discriminate.
    + intros k Hk H1k.
      assert (Hlen : (k - 1 = length errs)%nat).
      { destruct (Nat.lt_ge_cases (k - 1) (length errs)) as [Hlt|Hge].
        - rewrite nth_error_app1 in Hk by (rewrite length_map; exact Hlt).
          apply nth_error_failures in Hk. destruct Hk as [e' He']. discriminate.
        - assert (Hsome : (k - 1 < length (map (fun e => Returns (Some e)) errs
                                             ++ [@Returns (option error) None]))%nat).
          { apply nth_error_Some. rewrite Hk. discriminate. }
          rewrite length_app, length_map in Hsome. cbn [length] in Hsome. lia. }
      split; [lia|]. split; [lia|]. split; [reflexivity | exact Hwk].
  - destruct Hres as (Hlog & Hn & Hwk). rewrite Hlog, length_app, length_map.
    cbn [length]. split; [lia|]. split; [|split].
    + rewrite removelast_last. exact Hfailed.
    + intros Hall. apply Forall_app in Hall. destruct Hall as [_ Hall].
      apply Forall_inv in Hall. destruct Hall as [e He]. discriminate.
    + intros k Hk H1k. exfalso.
      destruct (Nat.lt_ge_cases (k - 1) (length errs)) as [Hlt|Hge].
      * rewrite nth_error_app1 in Hk by (rewrite length_map; exact Hlt).
        apply nth_error_failures in Hk. destruct Hk as [e' He']. discriminate.
      * rewrite nth_error_app2 in Hk by (rewrite length_map; exact Hge).
        rewrite length_map in Hk.
        destruct (k - 1 - length errs)%nat as [|n]; cbn in Hk; [discriminate|].
        destruct n; discriminate.
Qed.

End Theorems.

(** The run of [TestRetryConfig_ExecuteWithRetry_SuccessOnRetry]: the
    second invocation succeeds. *)
Lemma ExecuteWithRetry_attempts_witness :
  exists res w',
    ExecuteWithRetry fixtures.config_3 (traced (fixtures.succeeds_on 2))
      (set_heap ([], heap fixtures.start) fixtures.start) = Some (res, w')
    /\ ExecuteWithRetry fixtures.config_3 (fixtures.succeeds_on 2) fixtures.start
       = Some (res, untraced w')
    /\ let results := fst (heap w') in
       1 <= Z.of_nat (length results) <= 3
       /\ Forall failed (removelast results)
       /\ (Forall failed results ->
           Z.of_nat (length results) = 3
           /\ res = Returns (Some (String.append "operation failed after "
                      (String.append (fmt_d 3) " attempts"))))
       /\ (forall k : nat,
           nth_error results (k - 1) = Some (Returns None) -> (1 <= k)%nat ->
           length results = k /\ Z.of_nat k <= 3
           /\ res = Returns None
           /\ exists wk, fixtures.succeeds_on 2 wk = (Returns None, untraced w')).
Proof.
  apply (ExecuteWithRetry_attempts fixtures.config_3 (fixtures.succeeds_on 2)
           fixtures.start).
  - simpl. lia.
  - vm_compute. discriminate.
Defined.

End retry_runs.

Module retry_delays.
Import retry spec retry_facts.

(** One step of the backoff for a multiplier that is the fraction
    [a / b], when the exact product [p] of the delay and [a / b] is an
    integer and delay and product are below [2 ^ 53] in magnitude: the
    float64 product is [p], and the next delay is [min p MaxDelay]. *)
Lemma backoff_exact (r : RetryConfig) (a b d p : Z) :
  ratio (Multiplier r) a b ->
  - 2 ^ 53 < d < 2 ^ 53 -> - 2 ^ 53 < p < 2 ^ 53 ->
  p * b = d * a ->
  backoff r d = Z.min p (MaxDelay r).
Proof.
  intros [Hb Hr] Hd Hp Hpb.
  destruct (Prim2SF (Multiplier r)) as [| | |s m e] eqn:Ef; try contradiction.
  destruct s; [contradiction|].
  unfold backoff.
  rewrite (float_facts.scale_exact d (Multiplier r) m e p Ef Hd Hp).
  - destruct (p >? MaxDelay r) eqn:E.
    + apply Z.gtb_lt in E. lia.
    + rewrite Z.gtb_ltb in E. apply Z.ltb_ge in E. lia.
  - apply (Z.mul_cancel_l _ _ b); [lia|].
    replace (b * (p * 2 ^ Z.max 0 (- e))) with (p * b * 2 ^ Z.max 0 (- e)) by ring.
    rewrite Hpb.
    replace (d * a * 2 ^ Z.max 0 (- e)) with (d * (a * 2 ^ Z.max 0 (- e))) by ring.
    rewrite Hr. ring.
Qed.

(** The step of the closed form. *)
Lemma capped_at_step (r : RetryConfig) (a b : Z) (i : nat) (d p : Z) :
  0 < b -> b <= a -> InitialDelay r <= MaxDelay r ->
  capped_at r a b i d -> p * b = d * a ->
  capped_at r a b (S i) (Z.min p (MaxDelay r)).
Proof.
  intros Hb Hba Hle Hd Hp. unfold capped_at in *.
  rewrite Nat2Z.inj_succ, !Z.pow_succ_r by lia.
  assert (HB : 0 < b ^ Z.of_nat i) by (apply Z.pow_pos_nonneg; lia).
  assert (HAB : b ^ Z.of_nat i <= a ^ Z.of_nat i) by (apply Z.pow_le_mono_l; lia).
  set (A := a ^ Z.of_nat i) in *. set (B := b ^ Z.of_nat i) in *.
  set (I := InitialDelay r) in *. set (M := MaxDelay r) in *.
  assert (Hk : p * (b * B) = a * (d * B))
    by (replace (p * (b * B)) with (p * b * B) by ring; rewrite Hp; ring).
  rewrite Hd in Hk.
  assert (HbB : 0 < b * B) by nia.
  assert (Hmin : Z.min p M * (b * B) = Z.min (p * (b * B)) (M * (b * B))).
  { destruct (Z.min_spec p M) as [[H1 ->]|[H1 ->]].
    - rewrite Z.min_l; [reflexivity | nia].
    - rewrite Z.min_r; [reflexivity | nia]. }
  rewrite Hmin, Hk. clear Hmin Hk Hd Hp.
  destruct (Z.le_gt_cases 0 M) as [HM|HM].
  - assert (H1 : M * (b * B) <= a * (M * B)) by nia.
    destruct (Z.min_spec (I * A) (M * B)) as [[H2 ->]|[H2 ->]].
    + destruct (Z.le_gt_cases (I * (a * A)) (M * (b * B))) as [H3|H3].
      * rewrite !Z.min_l by nia. ring.
      * rewrite !Z.min_r by nia. reflexivity.
    + rewrite (Z.min_r (a * (M * B))) by nia.
      rewrite Z.min_r by nia. reflexivity.
  - assert (H1 : I * A <= M * B) by nia.
    rewrite (Z.min_l (I * A)) by exact H1.
    replace (a * (I * A)) with (I * (a * A)) by ring. reflexivity.
Qed.

(** The delays of a backoff whose products are exact are the closed
    form. *)
Lemma backoffs_capped_at (r : RetryConfig) (a b : Z) :
  ratio (Multiplier r) a b -> b <= a ->
  InitialDelay r <= MaxDelay r -> - 2 ^ 53 < InitialDelay r ->
  forall (n i : nat) (d : Z),
  capped_at r a b i d -> - 2 ^ 53 < d < 2 ^ 53 ->
  (forall j, (i <= j)%nat -> (S j < i + n)%nat -> exact_product r a b j) ->
  forall (k : nat) (dk : Z),
  nth_error (backoffs r d n) k = Some dk -> capped_at r a b (i + k) dk.
Proof.
  intros Hr Hba Hle HI. pose proof Hr as [Hb _].
  induction n as [|n IH]; intros i d Hd Hbound Hex k dk Hk.
  - destruct k; discriminate.
  - cbn [backoffs] in Hk. destruct k as [|k].
    + injection Hk as <-. rewrite Nat.add_0_r. exact Hd.
    + cbn [nth_error] in Hk.
      destruct n as [|n']; [destruct k; discriminate|].
      destruct (Hex i) as (p & Hp & Hpb); [lia | lia |].
      assert (Hpd : p * b = d * a).
      { unfold capped_at in Hd. rewrite <- Hd in Hp.
        rewrite Nat2Z.inj_succ, Z.pow_succ_r in Hp by lia.
        apply (Z.mul_cancel_r _ _ (b ^ Z.of_nat i)).
        - apply Z.pow_nonzero; lia.
        - replace (p * b * b ^ Z.of_nat i) with (p * (b * b ^ Z.of_nat i)) by ring.
          rewrite Hp. ring. }
      rewrite (backoff_exact r a b d p Hr Hbound Hpb Hpd) in Hk.
      replace (i + S k)%nat with (S i + k)%nat by lia.
      apply (IH (S i) (Z.min p (MaxDelay r))).
      * apply capped_at_step with (d := d); assumption.
      * lia.
      * intros j Hj1 Hj2. apply Hex; lia.
      * exact Hk.
Qed.

Section Sleeps.
Context {U : Type} (r : RetryConfig) (operation : Op U)
  (onFailure : option (Z -> error -> World U -> World U)).
Hypothesis Hmax : MaxAttempts r <= int64_max.
Hypothesis Hop : sleepless operation.
Hypothesis Hcb : sleepless_callback onFailure.

(** Every run of the loop returns, and what it slept is a prefix of the
    backoff sequence; all of it when every attempt failed. *)
Lemma callback_loop_sleeps (fuel : nat) :
  forall attempt delay w,
  1 <= attempt -> MaxAttempts r - attempt < Z.of_nat fuel -> (0 < fuel)%nat ->
  exists n res w',
    callback_loop r operation onFailure fuel attempt delay w = Some (res, w')
    /\ sleeps w' = sleeps w ++ backoffs r delay n
    /\ Z.of_nat n <= Z.max 0 (MaxAttempts r - attempt)
    /\ ((forall w0, fails operation w0) -> attempt <= MaxAttempts r ->
        Z.of_nat n = MaxAttempts r - attempt)
    /\ (failed res -> attempt <= MaxAttempts r ->
        Z.of_nat n = MaxAttempts r - attempt).
Proof.
  induction fuel as [|fuel IH]; intros attempt delay w Ha Hfuel Hpos; [lia|].
  cbn [callback_loop].
  destruct (attempt <=? MaxAttempts r) eqn:E1.
  2:{ apply Z.leb_gt in E1. exists 0%nat, (Returns None), w.
      rewrite app_nil_r. split; [reflexivity|]. split; [reflexivity|].
      split; [lia|]. split; intros; lia. }
  apply Z.leb_le in E1.
  pose proof (Hop w) as Hsw.
  assert (Hfw : (forall w0, fails operation w0) -> fails operation w) by auto.
  unfold fails in Hfw.
  destruct (operation w) as [[[e|]|msg] w1]; cbn [fst snd] in Hsw, Hfw.
  - set (w2 := match onFailure with
               | Some f => f attempt (attempt_failed attempt) w1
               | None => w1 end).
    assert (Hw2 : sleeps w2 = sleeps w).
    { subst w2. destruct onFailure as [f|] eqn:Ef; [|exact Hsw].
      rewrite (Hcb f eq_refl). exact Hsw. }
    destruct (attempt =? MaxAttempts r) eqn:E2.
    + apply Z.eqb_eq in E2. exists 0%nat, (Returns (Some (exhausted r))), w2.
      rewrite app_nil_r. split; [reflexivity|]. split; [exact Hw2|].
      split; [lia|]. split; intros; lia.
    + apply Z.eqb_neq in E2.
      rewrite wrap64_id by (unfold int64_range, int64_min, int64_max in *; lia).
      destruct (IH (attempt + 1) (backoff r delay) (time_Sleep delay w2))
        as (n & res & w' & Hrun & Hsl & Hn & Hall & Herr); [lia | lia | lia |].
      exists (S n), res, w'. split; [exact Hrun|]. split; [|split; [|split]].
      * rewrite Hsl. cbn [time_Sleep sleeps backoffs]. rewrite Hw2, <- app_assoc.
        reflexivity.
      * lia.
      * intros Hf _. specialize (Hall Hf). lia.
      * intros Hf _. specialize (Herr Hf). lia.
  - exists 0%nat, (Returns None), w1. rewrite app_nil_r.
    split; [reflexivity|]. split; [exact Hsw|]. split; [lia|]. split.
    + intros Hf _. destruct (Hfw Hf) as [e He]. discriminate.
    + intros [e He] _. discriminate.
  - exists 0%nat, (Panics msg), w1. rewrite app_nil_r.
    split; [reflexivity|]. split; [exact Hsw|]. split; [lia|]. split.
    + intros Hf _. destruct (Hfw Hf) as [e He]. discriminate.
    + intros [e He] _. discriminate.
Qed.

End Sleeps.

(** Every delay of a backoff that starts at or below the cap is at or
    below the cap, whatever the multiplier. *)
Lemma backoffs_le_MaxDelay (r : RetryConfig) (n : nat) :
  forall delay, delay <= MaxDelay r ->
  Forall (fun d => d <= MaxDelay r) (backoffs r delay n).
Proof.
  induction n as [|n IH]; intros delay Hle; [constructor|].
  cbn [backoffs]. constructor; [exact Hle|]. apply IH.
  unfold backoff. destruct (_ >? _) eqn:E; [lia|].
  rewrite Z.gtb_ltb in E. apply Z.ltb_ge in E. exact E.
Qed.

Section Theorems.
Context {U : Type}.

(** (C4, amended) For a [RetryConfig] with [MaxAttempts >= 1] and
    [InitialDelay <= MaxDelay], an operation and a callback that do not
    sleep themselves: every run of [ExecuteWithRetry] and of
    [ExecuteWithRetryAndCallback] returns; it has slept at most
    [MaxAttempts - 1] times, exactly that often when it ends in an
    error; its sleeps are the backoff sequence, which starts at
    [InitialDelay] and never exceeds [MaxDelay].  And when the
    multiplier is the fraction [a / b >= 1], an integer or not, the
    initial delay is below [2 ^ 53] ns in magnitude, and each product of
    a delay of the closed form with [a / b] that the run computes is an
    integer below [2 ^ 53], the [i]-th sleep, [i] from 0, the one
    between the failed attempt [i + 1] and attempt [i + 2], lasts
    [min (InitialDelay * (a / b) ^ i) MaxDelay]. *)
Theorem retry_delays_capped (r : RetryConfig) (operation : Op U)
    (onFailure : option (Z -> error -> World U -> World U)) (w : World U) :
  1 <= MaxAttempts r -> MaxAttempts r <= int64_max ->
  InitialDelay r <= MaxDelay r ->
  sleepless operation -> sleepless_callback onFailure ->
  let delays_of (run : option (outcome (option error) * World U)) :=
    exists n res w',
      run = Some (res, w')
      /\ sleeps w' = sleeps w ++ backoffs r (InitialDelay r) n
      /\ Z.of_nat n <= MaxAttempts r - 1
      /\ (failed res -> Z.of_nat n = MaxAttempts r - 1)
      /\ ((forall w0, fails operation w0) -> Z.of_nat n = MaxAttempts r - 1)
      /\ ((0 < n)%nat ->
          nth_error (backoffs r (InitialDelay r) n) 0 = Some (InitialDelay r))
      /\ Forall (fun d => d <= MaxDelay r) (backoffs r (InitialDelay r) n)
      /\ (forall a b : Z,
          ratio (Multiplier r) a b -> b <= a ->
          - 2 ^ 53 < InitialDelay r < 2 ^ 53 ->
          (forall i : nat, (S i < n)%nat -> exact_product r a b i) ->
          forall (i : nat) (d : Duration),
          nth_error (backoffs r (InitialDelay r) n) i = Some d ->
          capped_at r a b i d) in
  delays_of (ExecuteWithRetry r operation w)
  /\ delays_of (ExecuteWithRetryAndCallback r operation onFailure w).
Proof.
  intros H1 Hmax Hle Hop Hcb delays_of.
  assert (Hnil : sleepless_callback (@None (Z -> error -> World U -> World U)))
    by (intros f Hf; discriminate).
  assert (Hgen : forall cb, sleepless_callback cb ->
            delays_of (ExecuteWithRetryAndCallback r operation cb w)).
  { intros cb Hs.
    destruct (callback_loop_sleeps r operation cb Hmax Hop Hs (loop_tests r)
                1 (InitialDelay r) w)
      as (n & res & w' & Hrun & Hsl & Hn & Hall & Herr);
      [lia | unfold loop_tests; lia | unfold loop_tests; lia |].
    exists n, res, w'. split; [exact Hrun|]. split; [exact Hsl|].
    split; [lia|]. split; [intros Hf; apply Herr; [exact Hf | lia]|].
    split; [intros Hf; apply Hall; [exact Hf | lia]|].
    split; [intros Hn0; destruct n; [lia | reflexivity]|].
    split; [apply backoffs_le_MaxDelay; exact Hle|].
    intros a b Hr Hba HI Hex i d Hd.
    apply (backoffs_capped_at r a b Hr Hba Hle ltac:(lia) n 0%nat (InitialDelay r)).
    - unfold capped_at. cbn [Z.of_nat]. rewrite !Z.pow_0_r, !Z.mul_1_r. lia.
    - exact HI.
    - intros j _ Hj. apply Hex. lia.
    - exact Hd. }
  split.
  - unfold ExecuteWithRetry. rewrite retry_loop_nil_callback. apply (Hgen None Hnil).
  - apply Hgen. exact Hcb.
Qed.

End Theorems.

(** Two runs in which every attempt fails.  With a multiplier of 1.5,
    the fraction 3/2, an initial delay of 100ms and a cap of 200ms the
    three sleeps last 100ms, 150ms and 200ms.  The run of
    [TestRetryConfig_DelayCalculation], multiplier 2, sleeps 10ms, 20ms,
    40ms and 50ms between its five attempts. *)
Lemma retry_delays_capped_witness :
  (exists res w',
     ExecuteWithRetry fixtures.config_fraction fixtures.always_fails fixtures.start
     = Some (res, w')
     /\ sleeps w' = [100 * Millisecond; 150 * Millisecond; 200 * Millisecond]
     /\ forall (i : nat) (d : Duration),
          nth_error (sleeps w') i = Some d -> capped_at fixtures.config_fraction 3 2 i d)
  /\ (exists res w',
     ExecuteWithRetry fixtures.config_5 fixtures.always_fails fixtures.start
     = Some (res, w')
     /\ sleeps w' = [10 * Millisecond; 20 * Millisecond; 40 * Millisecond;
                     50 * Millisecond]
     /\ forall (i : nat) (d : Duration),
          nth_error (sleeps w') i = Some d -> capped_at fixtures.config_5 2 1 i d).
Proof.
  split.
  - destruct (retry_delays_capped fixtures.config_fraction fixtures.always_fails None
                fixtures.start)
      as [(n & res & w' & Hrun & Hsl & _ & _ & Hn & _ & _ & Hcap) _].
    + simpl. lia.
    + vm_compute. discriminate.
    + vm_compute. discriminate.
    + intros w. reflexivity.
    + intros f Hf. discriminate.
    + exists res, w'. split; [exact Hrun|].
      assert (n = 3%nat) as ->.
      { assert (Z.of_nat n = 4 - 1)
          by (apply Hn; intros w0; exists "test error"; reflexivity).
        lia. }
      rewrite Hsl. split; [reflexivity|].
      apply (Hcap 3 2).
      * split; [lia | vm_compute; reflexivity].
      * lia.
      * vm_compute. split; reflexivity.
      * intros i Hi. destruct i as [|[|i]]; [| | lia].
        -- exists (150 * Millisecond). vm_compute. repeat split; reflexivity.
        -- exists (225 * Millisecond). vm_compute. repeat split; reflexivity.
  - destruct (retry_delays_capped fixtures.config_5 fixtures.always_fails None
                fixtures.start)
      as [(n & res & w' & Hrun & Hsl & _ & _ & Hn & _ & _ & Hcap) _].
    + simpl. lia.
    + vm_compute. discriminate.
    + vm_compute. discriminate.
    + intros w. reflexivity.
    + intros f Hf. discriminate.
    + exists res, w'. split; [exact Hrun|].
      assert (n = 4%nat) as ->.
      { assert (Z.of_nat n = 5 - 1)
          by (apply Hn; intros w0; exists "test error"; reflexivity).
        lia. }
      rewrite Hsl. split; [reflexivity|].
      apply (Hcap 2 1).
      * split; [lia | vm_compute; reflexivity].
      * lia.
      * vm_compute. split; reflexivity.
      * intros i Hi. destruct i as [|[|[|i]]]; [| | | lia].
        -- exists (20 * Millisecond). vm_compute. repeat split; reflexivity.
        -- exists (40 * Millisecond). vm_compute. repeat split; reflexivity.
        -- exists (80 * Millisecond). vm_compute. repeat split; reflexivity.
Defined.

(** (C4, as stated) Two runs whose delays are not
    [min (initialDelay * multiplier ^ i) maxDelay].  With an initial
    delay of 100ms above the cap of 50ms the first sleep lasts 100ms: the
    cap is applied to the delay after it was slept.  With a multiplier of
    1.5 and an initial delay of 3ns the second sleep lasts 4ns, the
    product 4.5 truncated. *)
Lemma retry_delays_counterexample :
  (let r := {| MaxAttempts := 2; InitialDelay := 100 * Millisecond;
               MaxDelay := 50 * Millisecond; Multiplier := 2%float |} in
   exists res w',
     ExecuteWithRetry r fixtures.always_fails fixtures.start = Some (res, w')
     /\ sleeps w' = [100 * Millisecond]
     /\ MaxDelay r < 100 * Millisecond)
  /\ (let r := {| MaxAttempts := 3; InitialDelay := 3;
                  MaxDelay := 50 * Millisecond; Multiplier := 1.5%float |} in
      exists res w',
        ExecuteWithRetry r fixtures.always_fails fixtures.start = Some (res, w')
        /\ sleeps w' = [3; 4]
        /\ 2 * 4 <> 3 * 3).
Proof.
  split.
  - eexists. eexists. split; [vm_compute; reflexivity|].
    split; [reflexivity | reflexivity].
  - eexists. eexists. split; [vm_compute; reflexivity|].
    split; [reflexivity | discriminate].
Qed.

End retry_delays.

(** ** Circuit breaker *)

Module breaker_facts.
Import circuitbreaker spec breaker_spec retry_facts.

Section Facts.
Context {U : Type}.
Implicit Types (cb : CircuitBreaker) (operation : Op U) (w : World U).

Lemma time_Since_lt (t : Time) (d : Duration) w :
  t <= clock w -> clock w - t < d -> (time_Since t w <? d) = true.
Proof.
  intros H1 H2. apply Z.ltb_lt.
  unfold time_Since, time_Now, Time_Sub, int64_min, int64_max. lia.
Qed.

Lemma time_Since_ge (t : Time) (d : Duration) w :
  d <= int64_max -> d <= clock w - t -> (time_Since t w <? d) = false.
Proof.
  intros H1 H2. apply Z.ltb_ge.
  unfold time_Since, time_Now, Time_Sub, int64_min, int64_max in *. lia.
Qed.

(** While Open and before the timeout has elapsed [Execute] fails fast:
    its result does not depend on the operation, breaker and world are
    left as they were. *)
Lemma Execute_rejects cb operation w :
  state cb = Open -> 0 <= elapsed cb w < timeout cb ->
  Execute cb operation w = (Returns (Some "circuit breaker is open"), cb, w).
Proof.
  intros Hs [H0 H1]. unfold Execute, elapsed in *. rewrite Hs.
  rewrite time_Since_lt by lia. reflexivity.
Qed.

(** Once the timeout has elapsed an Open breaker lets one invocation
    through as a Half-Open probe. *)
Lemma Execute_probes cb operation w :
  state cb = Open -> timeout cb <= int64_max -> timeout cb <= elapsed cb w ->
  Execute cb operation w = run (set_state HalfOpen cb) operation w.
Proof.
  intros Hs Ht He. unfold Execute, elapsed in *. rewrite Hs.
  rewrite time_Since_ge by lia. reflexivity.
Qed.

Lemma run_invokes_once cb operation w :
  fst (fst (run cb operation w)) = fst (operation w)
  /\ snd (run cb operation w) = snd (operation w).
Proof. unfold run. destruct (operation w) as [[[e|]|msg] w1]; auto. Qed.

(** A failing call on a Closed breaker below its threshold. *)
Lemma Execute_closed_failure cb operation w :
  state cb = Closed -> fails operation w ->
  0 <= failures cb < int64_max ->
  let cb' := snd (fst (Execute cb operation w)) in
  failures cb' = failures cb + 1
  /\ failureThreshold cb' = failureThreshold cb
  /\ timeout cb' = timeout cb
  /\ state cb' = (if failures cb + 1 >=? failureThreshold cb then Open else Closed)
  /\ lastFailureTime cb' = clock (snd (Execute cb operation w)).
Proof.
  intros Hs [e He] Hf. unfold Execute, run. rewrite Hs.
  destruct (operation w) as [res w1]. cbn [fst] in He. subst res.
  cbn. rewrite wrap64_id by (unfold int64_range, int64_min, int64_max in *; lia).
  rewrite Hs. auto 6.
Qed.

(** [n] consecutive failing calls that stay below the threshold leave the
    breaker Closed with [n] more failures. *)
Lemma Execute_calls_below (calls : list (Duration * Op U)) :
  forall cb w,
  state cb = Closed -> 0 <= failures cb ->
  failures cb + Z.of_nat (length calls) < failureThreshold cb ->
  failureThreshold cb <= int64_max ->
  Forall (fun c => forall w', fails (snd c) w') calls ->
  let cb' := fst (Execute_calls calls cb w) in
  state cb' = Closed
  /\ failures cb' = failures cb + Z.of_nat (length calls)
  /\ failureThreshold cb' = failureThreshold cb
  /\ timeout cb' = timeout cb.
Proof.
  induction calls as [|[d operation] calls IH]; intros cb w Hs H0 Hlt Hth Hall.
  - cbn. rewrite Z.add_0_r. auto.
  - cbn [Execute_calls]. cbn [length] in Hlt. inversion Hall as [|? ? Hop Hrest]; subst.
    cbn [snd] in Hop.
    destruct (Execute_closed_failure cb operation (time_Sleep d w) Hs (Hop _))
      as (Hf & Ht & Hto & Hst & _); [lia|].
    destruct (Execute cb operation (time_Sleep d w)) as [[res cb1] w1].
    cbn [fst snd] in *.
    destruct (failures cb + 1 >=? failureThreshold cb) eqn:E.
    { rewrite Z.geb_leb in E. apply Z.leb_le in E. lia. }
    destruct (IH cb1 w1) as (Hs' & Hf' & Ht' & Hto'); auto; try lia.
    repeat split; try congruence. cbn [length]. lia.
Qed.

(** One more element on a run of calls. *)
Lemma Execute_calls_snoc (calls : list (Duration * Op U)) d operation :
  forall cb w,
  Execute_calls (calls ++ [(d, operation)]) cb w
  = let '(cb1, w1) := Execute_calls calls cb w in
    let '(_, cb2, w2) := Execute cb1 operation (time_Sleep d w1) in (cb2, w2).
Proof.
  induction calls as [|[d0 op0] calls IH]; intros cb w.
  - cbn. destruct (Execute cb operation (time_Sleep d w)) as [[res cb1] w1]. reflexivity.
  - cbn [app Execute_calls].
    destruct (Execute cb op0 (time_Sleep d0 w)) as [[res cb1] w1]. apply IH.
Qed.

(** Exactly [failureThreshold] consecutive failing calls open a fresh
    breaker; the last of them recorded its failure at the time it
    returned. *)
Lemma Execute_calls_opens threshold to (calls : list (Duration * Op U)) w :
  1 <= threshold <= int64_max ->
  Z.of_nat (length calls) = threshold ->
  Forall (fun c => forall w', fails (snd c) w') calls ->
  let cb := fst (Execute_calls calls (NewCircuitBreaker threshold to) w) in
  state cb = Open /\ failures cb = threshold
  /\ failureThreshold cb = threshold /\ timeout cb = to
  /\ lastFailureTime cb
     = clock (snd (Execute_calls calls (NewCircuitBreaker threshold to) w)).
Proof.
  intros Hth Hlen Hall.
  destruct (exists_last (l := calls)) as (front & [d operation] & ->).
  { intros ->. cbn in Hlen. lia. }
  rewrite length_app in Hlen. cbn [length] in Hlen.
  apply Forall_app in Hall. destruct Hall as [Hfront Hlast].
  apply Forall_inv in Hlast. cbn [snd] in Hlast. rename Hlast into Hop.
  rewrite Execute_calls_snoc.
  pose proof (Execute_calls_below front (NewCircuitBreaker threshold to) w) as Hb.
  cbn [state failures failureThreshold timeout NewCircuitBreaker] in Hb.
  destruct Hb as (Hs & Hf & Ht & Hto); auto; try lia.
  destruct (Execute_calls front (NewCircuitBreaker threshold to) w) as [cb1 w1].
  cbn [fst] in *.
  destruct (Execute_closed_failure cb1 operation (time_Sleep d w1) Hs (Hop _))
    as (Hf2 & Ht2 & Hto2 & Hst2 & Hlast); [lia|].
  destruct (Execute cb1 operation (time_Sleep d w1)) as [[res cb2] w2].
  cbn [fst snd] in *.
  destruct (failures cb1 + 1 >=? failureThreshold cb1) eqn:E.
  2:{ rewrite Z.geb_leb in E. apply Z.leb_gt in E. lia. }
  repeat split; try congruence. lia.
Qed.

(** A call that is not rejected fails when its operation does. *)
Lemma Execute_failed_fails cb operation w :
  state cb <> Open -> failed (fst (fst (Execute cb operation w))) ->
  fails operation w.
Proof.
  intros Hs [e He]. unfold fails. exists e.
  unfold Execute in He. destruct (state cb); try contradiction;
    rewrite (proj1 (run_invokes_once cb operation w)) in He; exact He.
Qed.

(** Calls whose operations fail whatever the world are failing calls. *)
Lemma failing_operations_fail (calls : list (Duration * Op U)) :
  Forall (fun c => forall w, fails (snd c) w) calls ->
  forall cb w, Forall failed (Execute_results calls cb w).
Proof.
  induction 1 as [|[d operation] calls Hop _ IH]; intros cb w; [constructor|].
  cbn [Execute_results]. cbn [snd] in Hop.
  assert (Hres : failed (fst (fst (Execute cb operation (time_Sleep d w))))).
  { unfold Execute. destruct (Hop (time_Sleep d w)) as [e He].
    destruct (state cb);
      try (destruct (_ <? _); [exists "circuit breaker is open"; reflexivity|]);
      rewrite (proj1 (run_invokes_once _ operation _)); exists e; exact He. }
  destruct (Execute cb operation (time_Sleep d w)) as [[res cb1] w1].
  constructor; [exact Hres | apply IH].
Qed.

(** [n] consecutive failing calls that stay below the threshold leave the
    breaker Closed with [n] more failures. *)
Lemma failing_calls_below (calls : list (Duration * Op U)) :
  forall cb w,
  state cb = Closed -> 0 <= failures cb ->
  failures cb + Z.of_nat (length calls) < failureThreshold cb ->
  failureThreshold cb <= int64_max ->
  Forall failed (Execute_results calls cb w) ->
  let cb' := fst (Execute_calls calls cb w) in
  state cb' = Closed
  /\ failures cb' = failures cb + Z.of_nat (length calls)
  /\ failureThreshold cb' = failureThreshold cb
  /\ timeout cb' = timeout cb.
Proof.
  induction calls as [|[d operation] calls IH]; intros cb w Hs H0 Hlt Hth Hall.
  - cbn. rewrite Z.add_0_r. auto.
  - cbn [Execute_calls Execute_results] in *. cbn [length] in Hlt.
    assert (Hop : fails operation (time_Sleep d w)).
    { apply (Execute_failed_fails cb); [congruence|].
      destruct (Execute cb operation (time_Sleep d w)) as [[res cb1] w1].
      apply (Forall_inv Hall). }
    destruct (Execute_closed_failure cb operation (time_Sleep d w) Hs Hop)
      as (Hf & Ht & Hto & Hst & _); [lia|].
    destruct (Execute cb operation (time_Sleep d w)) as [[res cb1] w1].
    cbn [fst snd] in *. apply Forall_inv_tail in Hall.
    destruct (failures cb + 1 >=? failureThreshold cb) eqn:E.
    { rewrite Z.geb_leb in E. apply Z.leb_le in E. lia. }
    destruct (IH cb1 w1) as (Hs' & Hf' & Ht' & Hto'); auto; try lia.
    repeat split; try congruence. cbn [length]. lia.
Qed.

Lemma Execute_results_app (calls calls' : list (Duration * Op U)) :
  forall cb w,
  Execute_results (calls ++ calls') cb w
  = Execute_results calls cb w
    ++ Execute_results calls' (fst (Execute_calls calls cb w))
         (snd (Execute_calls calls cb w)).
Proof.
  induction calls as [|[d operation] calls IH]; intros cb w; [reflexivity|].
  cbn [app Execute_results Execute_calls].
  destruct (Execute cb operation (time_Sleep d w)) as [[res cb1] w1].
  cbn [app]. f_equal. apply IH.
Qed.

(** Exactly [failureThreshold] consecutive failing calls open a fresh
    breaker; the last of them recorded its failure at the time it
    returned. *)
Lemma failing_calls_open threshold to (calls : list (Duration * Op U)) w :
  1 <= threshold <= int64_max ->
  Z.of_nat (length calls) = threshold ->
  Forall failed (Execute_results calls (NewCircuitBreaker threshold to) w) ->
  let cb := fst (Execute_calls calls (NewCircuitBreaker threshold to) w) in
  state cb = Open /\ failures cb = threshold
  /\ failureThreshold cb = threshold /\ timeout cb = to
  /\ lastFailureTime cb
     = clock (snd (Execute_calls calls (NewCircuitBreaker threshold to) w)).
Proof.
  intros Hth Hlen Hall.
  destruct (exists_last (l := calls)) as (front & [d operation] & ->).
  { intros ->. cbn in Hlen. lia. }
  rewrite length_app in Hlen. cbn [length] in Hlen.
  rewrite Execute_results_app in Hall.
  apply Forall_app in Hall. destruct Hall as [Hfront Hlast].
  rewrite Execute_calls_snoc.
  pose proof (failing_calls_below front (NewCircuitBreaker threshold to) w) as Hb.
  cbn [state failures failureThreshold timeout NewCircuitBreaker] in Hb.
  destruct Hb as (Hs & Hf & Ht & Hto); auto; try lia.
  destruct (Execute_calls front (NewCircuitBreaker threshold to) w) as [cb1 w1].
  cbn [fst snd Execute_results] in *.
  assert (Hop : fails operation (time_Sleep d w1)).
  { apply (Execute_failed_fails cb1); [congruence|].
    destruct (Execute cb1 operation (time_Sleep d w1)) as [[res cb2] w2].
    apply (Forall_inv Hlast). }
  destruct (Execute_closed_failure cb1 operation (time_Sleep d w1) Hs Hop)
    as (Hf2 & Ht2 & Hto2 & Hst2 & Hlast2); [lia|].
  destruct (Execute cb1 operation (time_Sleep d w1)) as [[res cb2] w2].
  cbn [fst snd] in *.
  destruct (failures cb1 + 1 >=? failureThreshold cb1) eqn:E.
  2:{ rewrite Z.geb_leb in E. apply Z.leb_gt in E. lia. }
  repeat split; try congruence. lia.
Qed.

End Facts.
End breaker_facts.

Module breaker_theorems.
Import circuitbreaker spec breaker_spec retry_facts breaker_facts.

Section Theorems.
Context {U : Type}.
Implicit Types (cb : CircuitBreaker) (operation : Op U) (w : World U).

(** (C1, amended) For a circuit breaker with
    [1 <= failureThreshold < 2^63 - 1], starting Closed with no failure:
    it is still Closed after fewer than [failureThreshold] consecutive
    failing [Execute] calls and Open after exactly [failureThreshold],
    the time at which the last of them returned being recorded as the
    time of the last failure; the failing calls are calls of [Execute]
    that return an error, whatever their operations are and depend on.
    From then on, an [Execute] made before
    the timeout has elapsed since that time, one made at once included,
    returns "circuit breaker is open" and leaves breaker and world as
    they were, the operation not invoked; and the first [Execute] made
    once the timeout has elapsed invokes the operation once: a success
    closes the breaker with failure count 0, a failure opens it again
    and records its own time as the time of the last failure. *)
Theorem breaker_opens_rejects_probes (threshold : Z) (to : Duration)
    (calls : list (Duration * Op U)) (w0 : World U) :
  1 <= threshold -> threshold < int64_max -> to <= int64_max ->
  Z.of_nat (length calls) = threshold ->
  Forall failed (Execute_results calls (NewCircuitBreaker threshold to) w0) ->
  let new := NewCircuitBreaker threshold to in
  let cb := fst (Execute_calls calls new w0) in
  let opened := clock (snd (Execute_calls calls new w0)) in
  (forall n, (n < length calls)%nat ->
     state (fst (Execute_calls (firstn n calls) new w0)) = Closed)
  /\ state cb = Open
  /\ lastFailureTime cb = opened
  /\ (forall operation w,
        opened <= clock w < opened + to ->
        Execute cb operation w = (Returns (Some "circuit breaker is open"), cb, w))
  /\ (forall operation w,
        opened + to <= clock w ->
        exists cb',
          Execute cb operation w = (fst (operation w), cb', snd (operation w))
          /\ (succeeds operation w -> state cb' = Closed /\ failures cb' = 0)
          /\ (fails operation w ->
              state cb' = Open /\ lastFailureTime cb' = clock (snd (operation w)))).
Proof.
  intros H1 Hlt Hto Hlen Hall new cb opened.
  destruct (failing_calls_open threshold to calls w0) as (Hs & Hf & Hth & Htm & Hlast);
    [lia | exact Hlen | exact Hall |].
  fold new cb opened in Hs, Hf, Hth, Htm, Hlast.
  split; [|split; [exact Hs|split; [exact Hlast|split]]].
  - intros n Hn.
    destruct (failing_calls_below (firstn n calls) new w0) as (Hc & _); auto.
    + cbn. lia.
    + cbn. rewrite length_firstn. lia.
    + cbn. lia.
    + rewrite <- (firstn_skipn n calls) in Hall. fold new in Hall.
      rewrite Execute_results_app in Hall. apply Forall_app in Hall. apply Hall.
  - intros operation w He. apply Execute_rejects; [exact Hs|].
    unfold elapsed. rewrite Htm, Hlast. lia.
  - intros operation w He.
    rewrite Execute_probes;
      [|exact Hs | rewrite Htm; exact Hto | unfold elapsed; rewrite Htm, Hlast; lia].
    unfold run, succeeds, fails.
    destruct (operation w) as [[[e|]|msg] w1]; cbn [fst snd].
    + eexists. split; [reflexivity|]. split; [discriminate|]. intros _.
      cbn. rewrite Hf, Hth.
      rewrite wrap64_id by (unfold int64_range, int64_min, int64_max in *; lia).
      destruct (threshold + 1 >=? threshold) eqn:E; [split; reflexivity|].
      rewrite Z.geb_leb in E. apply Z.leb_gt in E. lia.
    + eexists. split; [reflexivity|]. split; [|intros [e He']; discriminate].
      intros _. cbn. auto.
    + eexists. split; [reflexivity|]. split; [discriminate|].
      intros [e He']; discriminate.
Qed.

(** What every call establishes: an Open breaker has its failure count
    at the threshold or above, and its timeout, if positive, has not
    elapsed in the world the call returned in. *)
Lemma reachable_invariant (threshold : Z) (to : Duration) cb w :
  reachable threshold to cb w ->
  failureThreshold cb = threshold /\ timeout cb = to
  /\ (state cb = Open ->
      threshold <= failures cb /\ (0 < to <= int64_max -> elapsed cb w < to)).
Proof.
  induction 1 as [w | cb w0 operation w Hr (Hth & Hto & IH) | cb w0 w Hr (Hth & Hto & IH)].
  - cbn. split; [reflexivity | split; [reflexivity | discriminate]].
  - assert (Hrun : forall cb0, failureThreshold cb0 = threshold -> timeout cb0 = to ->
               state cb0 <> Open ->
               let cb' := snd (fst (run cb0 operation w)) in
               let w' := snd (run cb0 operation w) in
               failureThreshold cb' = threshold /\ timeout cb' = to
               /\ (state cb' = Open ->
                   threshold <= failures cb'
                   /\ (0 < to <= int64_max -> elapsed cb' w' < to))).
    { intros cb0 H1 H2 H3. unfold run.
      destruct (operation w) as [[[e|]|msg] w1]; cbn [fst snd].
      - cbn [recordFailure failureThreshold timeout state failures lastFailureTime].
        rewrite H1. split; [reflexivity | split; [exact H2 | intros Hopen; split]].
        + destruct (wrap64 (failures cb0 + 1) >=? threshold) eqn:E;
            [|contradiction].
          rewrite Z.geb_leb in E. apply Z.leb_le in E. exact E.
        + intros Hpos. unfold elapsed. cbn. unfold time_Now. lia.
      - cbn [recordSuccess failureThreshold timeout state failures lastFailureTime].
        split; [exact H1 | split; [exact H2 | intros Hopen]].
        destruct (state cb0); try discriminate; contradiction.
      - split; [exact H1 | split; [exact H2 | intros Hopen; contradiction]]. }
    unfold Execute. destruct (state cb) eqn:Es.
    + apply Hrun; auto. congruence.
    + destruct (time_Since (lastFailureTime cb) w <? timeout cb) eqn:E.
      * cbn [fst snd]. split; [exact Hth | split; [exact Hto | intros _; split]].
        -- apply IH; reflexivity.
        -- intros Hpos. apply Z.ltb_lt in E. rewrite Hto in E.
           unfold time_Since, time_Now, Time_Sub, elapsed, int64_min, int64_max in *.
           lia.
      * apply Hrun; cbn; auto; discriminate.
    + apply Hrun; auto. congruence.
  - cbn. split; [exact Hth | split; [exact Hto | discriminate]].
Qed.

(** (C9, amended) In every state of a breaker reached from its initial
Closed state by [Execute] and [Reset] calls, Open implies that the
failure count is at or above [failureThreshold], as it was when the
last failure was recorded, and, for a positive timeout, that the
timeout had not elapsed since the last recorded failure when the last
call returned.  (The breaker stays Open when the timeout elapses
later: only the next [Execute] moves it on.) *)
Theorem open_implies_threshold_reached (threshold : Z) (to : Duration) cb w :
  reachable threshold to cb w ->
  GetState cb = Open ->
  failureThreshold cb <= GetFailureCount cb
  /\ (0 < to <= int64_max -> elapsed cb w < timeout cb).
Proof.
  intros Hr Hs. destruct (reachable_invariant threshold to cb w Hr) as (Hth & Hto & H).
  destruct (H Hs) as [Hf He]. unfold GetFailureCount. rewrite Hth, Hto. auto.
Qed.

(** The states a run of calls goes through are reachable. *)
Lemma reachable_Execute_calls (threshold : Z) (to : Duration)
    (calls : list (Duration * Op U)) :
  forall cb w,
  reachable threshold to cb w ->
  reachable threshold to (fst (Execute_calls calls cb w))
    (snd (Execute_calls calls cb w)).
Proof.
  induction calls as [|[d operation] calls IH]; intros cb w Hr; [exact Hr|].
  cbn [Execute_calls].
  pose proof (reach_Execute threshold to cb w operation (time_Sleep d w) Hr) as H.
  destruct (Execute cb operation (time_Sleep d w)) as [[res cb1] w1].
  apply IH. exact H.
Qed.

End Theorems.

(** The breaker of [TestCircuitBreaker_Execute_OpenState], threshold 2
    and two failing calls, here 10ms apart and begun one second after
    the zero time: the breaker opens at 1.02s. *)
Lemma breaker_opens_rejects_probes_witness :
  let new := NewCircuitBreaker 2 (100 * Millisecond) in
  let calls := [(10 * Millisecond, fixtures.always_fails);
                (10 * Millisecond, fixtures.always_fails)] in
  let cb := fst (Execute_calls calls new fixtures.later) in
  let opened := clock (snd (Execute_calls calls new fixtures.later)) in
  (forall n, (n < length calls)%nat ->
     state (fst (Execute_calls (firstn n calls) new fixtures.later)) = Closed)
  /\ state cb = Open
  /\ lastFailureTime cb = opened
  /\ (forall (operation : Op nat) (w : World nat),
        opened <= clock w < opened + 100 * Millisecond ->
        Execute cb operation w = (Returns (Some "circuit breaker is open"), cb, w))
  /\ (forall (operation : Op nat) (w : World nat),
        opened + 100 * Millisecond <= clock w ->
        exists cb',
          Execute cb operation w = (fst (operation w), cb', snd (operation w))
          /\ (succeeds operation w -> state cb' = Closed /\ failures cb' = 0)
          /\ (fails operation w ->
              state cb' = Open /\ lastFailureTime cb' = clock (snd (operation w)))).
Proof.
  apply (breaker_opens_rejects_probes 2 (100 * Millisecond)
           [(10 * Millisecond, fixtures.always_fails);
            (10 * Millisecond, fixtures.always_fails)] fixtures.later).
  - lia.
  - vm_compute. reflexivity.
  - vm_compute. discriminate.
  - reflexivity.
  - repeat constructor; exists "test error"; reflexivity.
Defined.

(** The failure count of a probe that fails on a breaker whose threshold
    is the largest [int] wraps around: the breaker stays Half-Open. *)
Lemma probe_failure_wraps (calls : list (Duration * Op nat)) :
  Z.of_nat (length calls) = int64_max ->
  Forall (fun c => forall w, fails (snd c) w) calls ->
  let new := NewCircuitBreaker int64_max (100 * Millisecond) in
  let cb := fst (Execute_calls calls new fixtures.start) in
  let w := time_Sleep (150 * Millisecond) (snd (Execute_calls calls new fixtures.start)) in
  state cb = Open
  /\ 100 * Millisecond <= elapsed cb w
  /\ fails fixtures.always_fails w
  /\ state (snd (fst (Execute cb fixtures.always_fails w))) = HalfOpen.
Proof.
  intros Hlen Hall. cbv zeta.
  destruct (Execute_calls_opens int64_max (100 * Millisecond) calls fixtures.start)
    as (Hs & Hf & Hth & Hto & Hlast); [unfold int64_max; lia | exact Hlen | exact Hall |].
  destruct (Execute_calls calls (NewCircuitBreaker int64_max (100 * Millisecond))
              fixtures.start) as [cb w0].
  cbn [fst snd] in *.
  assert (He : elapsed cb (time_Sleep (150 * Millisecond) w0) = 150 * Millisecond).
  { unfold elapsed. rewrite Hlast. cbn [time_Sleep clock]. unfold Millisecond. lia. }
  split; [exact Hs|]. split; [rewrite He; unfold Millisecond; lia|].
  split; [exists "test error"; reflexivity|].
  rewrite Execute_probes;
    [|exact Hs | rewrite Hto; unfold int64_max, Millisecond; lia
     | rewrite Hto, He; unfold Millisecond; lia].
  unfold run. cbn [fixtures.always_fails fst snd recordFailure set_state
                     state failures failureThreshold].
  rewrite Hf.
  replace (wrap64 (int64_max + 1)) with int64_min by (vm_compute; reflexivity).
  rewrite Hth. reflexivity.
Qed.

(** (C1, as stated) Two breakers for which the statement fails.  With
    threshold 0 the breaker is Closed, not Open, after its 0 failing
    calls.  With threshold [2^63 - 1] the failure count of the failing
    probe wraps around to [-2^63], below the threshold: the breaker stays
    Half-Open. *)
Lemma breaker_threshold_counterexample :
  state (fst (Execute_calls [] (NewCircuitBreaker 0 (100 * Millisecond))
                fixtures.start)) = Closed
  /\ (let calls := repeat (0, fixtures.always_fails) (Z.to_nat int64_max) in
      let new := NewCircuitBreaker int64_max (100 * Millisecond) in
      let cb := fst (Execute_calls calls new fixtures.start) in
      let w := time_Sleep (150 * Millisecond) (snd (Execute_calls calls new fixtures.start)) in
      state cb = Open
      /\ 100 * Millisecond <= elapsed cb w
      /\ fails fixtures.always_fails w
      /\ state (snd (fst (Execute cb fixtures.always_fails w))) = HalfOpen).
Proof.
  split; [reflexivity|]. cbv zeta.
  apply (probe_failure_wraps (repeat (0, fixtures.always_fails) (Z.to_nat int64_max))).
  - rewrite repeat_length. apply Z2Nat.id. unfold int64_max. lia.
  - apply List.Forall_forall. intros c Hc. apply repeat_spec in Hc.
    subst c. intros w'. exists "test error". reflexivity.
Qed.

(** The states of [TestCircuitBreaker_Execute_OpenState] again. *)
Lemma open_implies_threshold_reached_witness :
  let calls := [(0, fixtures.always_fails); (0, fixtures.always_fails)] in
  let new := NewCircuitBreaker 2 (100 * Millisecond) in
  let cb := fst (Execute_calls calls new fixtures.start) in
  let w := snd (Execute_calls calls new fixtures.start) in
  failureThreshold cb <= GetFailureCount cb
  /\ (0 < 100 * Millisecond <= int64_max -> elapsed cb w < timeout cb).
Proof.
  intros calls new cb w.
  apply (open_implies_threshold_reached 2 (100 * Millisecond) cb w).
  - apply reachable_Execute_calls. apply reach_New.
  - reflexivity.
Defined.

(** (C9, as stated) Two reachable Open states whose timeout has elapsed.
    The first is the state of [TestCircuitBreaker_Execute_HalfOpenToClosed]
    before its last call: threshold 2, timeout 100ms, two failures, and
    the caller has slept 150ms; the breaker is Open until [Execute] is
    called again.  The second has a timeout of 0, elapsed as soon as the
    failure is recorded. *)
Lemma open_after_timeout_counterexample :
  (let calls := [(0, fixtures.always_fails); (0, fixtures.always_fails)] in
   let new := NewCircuitBreaker 2 (100 * Millisecond) in
   let cb := fst (Execute_calls calls new fixtures.start) in
   let w := snd (Execute_calls calls new fixtures.start) in
   reachable 2 (100 * Millisecond) cb w
   /\ GetState cb = Open
   /\ ~ elapsed cb (time_Sleep (150 * Millisecond) w) < timeout cb)
  /\ (let calls := [(0, fixtures.always_fails)] in
      let new := NewCircuitBreaker 1 0 in
      let cb := fst (Execute_calls calls new fixtures.start) in
      let w := snd (Execute_calls calls new fixtures.start) in
      reachable 1 0 cb w
      /\ GetState cb = Open
      /\ ~ elapsed cb w < timeout cb).
Proof.
  split.
  - intros calls new cb w. split; [|split].
    + apply reachable_Execute_calls. apply reach_New.
    + reflexivity.
    + vm_compute. intros H. discriminate H.
  - intros calls new cb w. split; [|split].
    + apply reachable_Execute_calls. apply reach_New.
    + reflexivity.
    + vm_compute. intros H. discriminate H.
Qed.

End breaker_theorems.

(** ** Bounded event queue *)

Module queue_theorems.
Import channel models queue queue_spec.

(** From the index [capacity] on, every result is "queue is full". *)
Lemma expected_result_full (capacity : Z) (n : nat) :
  forall k, capacity <= Z.of_nat k ->
  map (expected_result capacity) (seq k n)
  = repeat (Returns (Some "queue is full")) n.
Proof.
  induction n as [|n IH]; intros k Hk; [reflexivity|].
  cbn [seq map repeat]. rewrite IH by lia. unfold expected_result.
  destruct (Z.of_nat k <? capacity) eqn:E; [apply Z.ltb_lt in E; lia|].
  reflexivity.
Qed.

(** Enqueues on an open queue nobody receives from: the queue holds [k]
    events, the next enqueue behaves as the one of index [k] on a fresh
    queue. *)
Lemma Enqueue_all_from (evs : list ProductEvent) :
  forall (q : InMemoryEventQueue) (k : nat),
  closed (events q) = false -> recvq (events q) = O ->
  length (buf (events q)) = k ->
  fst (Enqueue_all q evs)
  = map (expected_result (cap (events q))) (seq k (length evs)).
Proof.
  induction evs as [|event evs IH]; intros q k Hopen Hrq Hlen; [reflexivity|].
  cbn [Enqueue_all length seq map]. unfold Enqueue, select_send, expected_result at 1.
  rewrite Hopen, Hrq. unfold len. rewrite Hlen.
  destruct (Z.of_nat k <? cap (events q)) eqn:E.
  - (* the send proceeds: one more event in the buffer *)
    specialize (IH {| events := mkChan (buf (events q) ++ [event]) (cap (events q))
                                   false 0 (handed (events q)) |} (S k)).
    cbn [events closed recvq buf cap] in IH.
    rewrite length_app in IH. cbn [length] in IH.
    destruct (Enqueue_all _ evs) as [results q'] eqn:Er. cbn [fst] in *.
    rewrite IH by (auto; lia). reflexivity.
  - (* the default case: the queue is what it was, and stays full *)
    specialize (IH q k Hopen Hrq Hlen).
    destruct (Enqueue_all q evs) as [results q'] eqn:Er. cbn [fst] in *.
    rewrite IH. apply Z.ltb_ge in E.
    rewrite !expected_result_full by lia. reflexivity.
Qed.

(** (C2) On a freshly created queue of capacity [capacity >= 0], with
    only enqueues: the first [capacity] enqueues succeed and the next one,
    and every later one, fails with "queue is full"; with capacity 0 every
    enqueue fails so. *)
Theorem enqueue_full_after_capacity (capacity : Z) (evs : list ProductEvent) :
  0 <= capacity ->
  exists q,
    NewInMemoryEventQueue capacity = Returns q
    /\ forall i, (i < length evs)%nat ->
       nth_error (fst (Enqueue_all q evs)) i
       = Some (if Z.of_nat i <? capacity then Returns None
               else Returns (Some "queue is full")).
Proof.
  intros H0. unfold NewInMemoryEventQueue, make.
  destruct (capacity <? 0) eqn:E; [apply Z.ltb_lt in E; lia|].
  eexists. split; [reflexivity|]. intros i Hi.
  rewrite (Enqueue_all_from evs _ 0%nat) by reflexivity.
  cbn [events cap]. rewrite nth_error_map, nth_error_seq.
  destruct (Nat.ltb_spec i (length evs)); [|lia]. reflexivity.
Qed.

(** A send on a closed channel panics, [select] or not: so does every
    [Enqueue] on a closed queue. *)
Lemma Enqueue_closed_panics (q : InMemoryEventQueue) (event : ProductEvent) :
  closed (events q) = true ->
  Enqueue q event = Panics "send on closed channel".
Proof. intros H. unfold Enqueue, select_send. rewrite H. reflexivity. Qed.

Lemma Close_closes (q q' : InMemoryEventQueue) :
Close q = Returns q' -> closed (events q') = true.
Proof.
  unfold Close, close. destruct (closed (events q)); [discriminate|].
  intros [= <-]. reflexivity.
Qed.

(** The queue of size 2 of [TestInMemoryEventQueue]. *)
Lemma enqueue_full_after_capacity_witness :
  let evs := [fixtures.event "1" 1 1; fixtures.event "2" 2 2; fixtures.event "3" 3 3] in
  exists q,
    NewInMemoryEventQueue 2 = Returns q
    /\ forall i, (i < length evs)%nat ->
       nth_error (fst (Enqueue_all q evs)) i
       = Some (if Z.of_nat i <? 2 then Returns None
               else Returns (Some "queue is full")).
Proof.
  apply (enqueue_full_after_capacity 2
           [fixtures.event "1" 1 1; fixtures.event "2" 2 2; fixtures.event "3" 3 3]).
  lia.
Defined.

(** A receiver parked in [Dequeue] takes the event of the next enqueue
    whatever the capacity is: with a worker waiting, an enqueue on a queue
    of capacity 0 succeeds. *)
Lemma Enqueue_to_parked_receiver (q : InMemoryEventQueue) (event : ProductEvent) (n : nat) :
  closed (events q) = false -> recvq (events q) = S n ->
  exists q',
    Enqueue q event = Returns (None, q')
    /\ handed (events q') = handed (events q) ++ [event]
    /\ buf (events q') = buf (events q).
Proof.
  intros Hopen Hrq. unfold Enqueue, select_send. rewrite Hopen, Hrq.
  eexists. split; [reflexivity|]. cbn. auto.
Qed.

(** (C5) [TestInMemoryEventQueue_Close]: a queue of size 10, two events
    enqueued, the queue closed; the enqueue that follows does not return
    an error, it panics. *)
Theorem Enqueue_after_Close_panics :
  exists q0 q1 q2 q3,
    NewInMemoryEventQueue 10 = Returns q0
    /\ Enqueue q0 (fixtures.event "1" 1 1) = Returns (None, q1)
    /\ Enqueue q1 (fixtures.event "2" 2 2) = Returns (None, q2)
    /\ Close q2 = Returns q3
    /\ Enqueue q3 (fixtures.event "3" 3 3) = Panics "send on closed channel".
Proof. do 4 eexists. repeat (split; [reflexivity|]). reflexivity. Qed.

End queue_theorems.

(** ** Batch accumulator *)

Module batch_theorems.
Import channel models queue queue_spec.

(** No statement of the package closes [flushChan]. *)
Lemma NewBatchProcessor_open (size : Z) (interval : Duration) (bp : BatchProcessor) :
  NewBatchProcessor size interval = Returns bp -> closed (flushChan bp) = false.
Proof.
  unfold NewBatchProcessor. destruct (size <? 0); [discriminate|].
  intros [= <-]. reflexivity.
Qed.

Lemma flushBatch_open (bp : BatchProcessor) :
  closed (flushChan bp) = false -> closed (flushChan (snd (flushBatch bp))) = false.
Proof.
  intros H. unfold flushBatch, select_send.
  destruct (Z.of_nat (length (batch bp)) =? 0); [exact H|].
  cbn [set_batch flushChan]. rewrite H.
  destruct (recvq (flushChan bp)); [|reflexivity].
  destruct (len (flushChan bp) <? cap (flushChan bp)); [reflexivity | exact H].
Qed.

Lemma AddEvent_open (bp : BatchProcessor) (event : ProductEvent) :
  closed (flushChan bp) = false ->
  closed (flushChan (snd (AddEvent bp event))) = false.
Proof.
  intros H. unfold AddEvent.
  destruct (_ >=? _); [apply flushBatch_open|]; exact H.
Qed.

(** (C6) With [batchSize >= 1], [batchSize - 1] events in the buffer and
    a dispatch channel that is not full, [AddEvent] returns nil and the
    dispatch channel of the batch processor is, when it returns, the
    channel it was with exactly one batch sent on it: the buffered
    events in their order followed by the new one.  The buffer is left
    empty and the configuration is as it was. *)
Theorem AddEvent_flushes_full_batch (bp : BatchProcessor) (event : ProductEvent) :
  1 <= batchSize bp ->
  Z.of_nat (length (batch bp)) = batchSize bp - 1 ->
  closed (flushChan bp) = false ->
  ~ full (flushChan bp) ->
  fst (AddEvent bp event) = Returns None
  /\ sent_once (flushChan bp) (batch bp ++ [event])
       (flushChan (snd (AddEvent bp event)))
  /\ batch (snd (AddEvent bp event)) = []
  /\ batchSize (snd (AddEvent bp event)) = batchSize bp
  /\ flushInterval (snd (AddEvent bp event)) = flushInterval bp.
Proof.
  intros HB Hlen Hopen Hfull. unfold AddEvent. cbn [set_batch batch batchSize].
  rewrite length_app. cbn [length].
  destruct (Z.of_nat (length (batch bp) + 1) >=? batchSize bp) eqn:E.
  2:{ rewrite Z.geb_leb in E. apply Z.leb_gt in E. lia. }
  unfold flushBatch. cbn [set_batch batch flushChan].
  rewrite length_app. cbn [length].
  destruct (Z.of_nat (length (batch bp) + 1) =? 0) eqn:E0; [apply Z.eqb_eq in E0; lia|].
  unfold select_send. rewrite Hopen.
  destruct (recvq (flushChan bp)) as [|n] eqn:Erq.
  - destruct (len (flushChan bp) <? cap (flushChan bp)) eqn:El.
    + cbn [fst snd set_flushChan set_batch flushChan batch batchSize flushInterval].
      split; [reflexivity|]. split; [|auto].
      unfold sent_once. cbn [cap closed buf handed]. auto.
    + exfalso. apply Hfull. split; [exact Erq|]. apply Z.ltb_ge in El. exact El.
  - cbn [fst snd set_flushChan set_batch flushChan batch batchSize flushInterval].
    split; [reflexivity|]. split; [|auto].
    unfold sent_once. cbn [cap closed buf handed]. auto.
Qed.

(** (C7) A flush of a non-empty buffer that finds the dispatch channel
    full returns "batch processor is full"; the buffer is empty after it
    and the channel is what it was: the events that were buffered are in
    neither. *)
Theorem flushBatch_full_drops_batch (bp : BatchProcessor) :
  batch bp <> [] ->
  closed (flushChan bp) = false ->
  full (flushChan bp) ->
  flushBatch bp = (Returns (Some "batch processor is full"), set_batch [] bp)
  /\ batch (snd (flushBatch bp)) = []
  /\ flushChan (snd (flushBatch bp)) = flushChan bp.
Proof.
  intros Hne Hopen [Hrq Hcap]. unfold flushBatch.
  destruct (Z.of_nat (length (batch bp)) =? 0) eqn:E0.
  { apply Z.eqb_eq in E0. destruct (batch bp); [contradiction | cbn in E0; lia]. }
  unfold select_send. cbn [set_batch flushChan]. rewrite Hopen, Hrq.
  destruct (len (flushChan bp) <? cap (flushChan bp)) eqn:El;
    [apply Z.ltb_lt in El; lia|].
  cbn. auto.
Qed.

(** [TestBatchProcessor_AddEvent_BatchSizeReached]: batch size 3, the
    third event. *)
Lemma AddEvent_flushes_full_batch_witness :
  let bp := {| batchSize := 3; flushInterval := 1 * Second;
               batch := [fixtures.event "0" 0 0; fixtures.event "1" 1 1];
               flushChan := mkChan [] 10 false 0 [] |} in
  let event := fixtures.event "2" 2 2 in
  fst (AddEvent bp event) = Returns None
  /\ sent_once (flushChan bp) (batch bp ++ [event])
       (flushChan (snd (AddEvent bp event)))
  /\ batch (snd (AddEvent bp event)) = []
  /\ batchSize (snd (AddEvent bp event)) = batchSize bp
  /\ flushInterval (snd (AddEvent bp event)) = flushInterval bp.
Proof.
  intros bp event. apply (AddEvent_flushes_full_batch bp event).
  - simpl. lia.
  - reflexivity.
  - reflexivity.
  - intros [_ H]. vm_compute in H. apply H. reflexivity.
Defined.

(** A batch processor whose dispatch loop is busy: ten batches wait in
    the dispatch channel, nobody is parked on it. *)
Lemma flushBatch_full_drops_batch_witness :
  let b := [fixtures.event "0" 0 0] in
  let bp := {| batchSize := 1; flushInterval := 1 * Second;
               batch := [fixtures.event "1" 1 1];
               flushChan := mkChan (repeat b 10) 10 false 0 [] |} in
  flushBatch bp = (Returns (Some "batch processor is full"), set_batch [] bp)
  /\ batch (snd (flushBatch bp)) = []
  /\ flushChan (snd (flushBatch bp)) = flushChan bp.
Proof.
  intros b bp. apply (flushBatch_full_drops_batch bp).
  - discriminate.
  - reflexivity.
  - split; [reflexivity|]. vm_compute. discriminate.
Defined.

End batch_theorems.

(** ** End to end *)

Module service_theorems.
Import channel models queue repositories circuitbreaker retry services.

(** (C8) A queue of capacity 10, one worker, the event
    [{ProductID: "p1", Price: 10.0, Stock: 5}] enqueued once through
    [ProcessEvent]: once the worker has processed it and parked again on
    the empty queue, looking "p1" up in the store gives a product of price
    10.0 and stock 5.  Both orders of the two goroutines are covered: the
    worker first runs after the event was enqueued, or it is already
    parked in [Dequeue] and the send wakes it up. *)
Theorem single_event_reaches_store (now : Time) (fuel : nat) :
  let event := fixtures.event "p1" 10 5 in
  let p1 := {| ID := "p1"; Price := 10; Stock := 5 |} in
  exists q,
    NewInMemoryEventQueue 10 = Returns q
    /\ let w0 := mkWorld now [] (NewProductService NewInMemoryProductRepository q 1) in
       (exists w1 w2,
          ProcessEvent event w0 = Some (Returns None, w1)
          /\ worker (S (S fuel)) 0 w1 = (Parked, w2)
          /\ GetProduct "p1" w2 = Some p1)
       /\ (exists w1 w2 w3,
          worker (S fuel) 0 w0 = (Parked, w1)
          /\ ProcessEvent event w1 = Some (Returns None, w2)
          /\ worker_wakeup (S fuel) 0 w2 = (Parked, w3)
          /\ GetProduct "p1" w3 = Some p1).
Proof.
  intros event p1. eexists. split; [reflexivity|]. split.
  - eexists. eexists. split; [reflexivity|]. split; [reflexivity|].
    vm_compute. reflexivity.
  - eexists. eexists. eexists. split; [reflexivity|].
    split; [reflexivity|]. split; [reflexivity|]. vm_compute. reflexivity.
Qed.

End service_theorems.

(** ** Retry executor: further properties *)

Module retry_more.
Import retry spec retry_spec retry_facts retry_delays.

Section More.
Context {U : Type}.
Implicit Types (r : RetryConfig) (operation : Op U) (w : World U)
  (onFailure : option (Z -> error -> World U -> World U)).

(** The two loops differ in nothing but the call of the callback: with a
    nil callback, or one that leaves the world as it is (one that only
    logs), [ExecuteWithRetryAndCallback] is [ExecuteWithRetry]. *)
Theorem ExecuteWithRetry_is_callback_free r operation onFailure w :
  (forall f, onFailure = Some f -> forall attempt err w', f attempt err w' = w') ->
  ExecuteWithRetryAndCallback r operation onFailure w = ExecuteWithRetry r operation w.
Proof.
  intros Hf. unfold ExecuteWithRetryAndCallback, ExecuteWithRetry.
  generalize (loop_tests r) 1 (InitialDelay r) w.
  intros fuel. induction fuel as [|fuel IH]; intros attempt delay w0; [reflexivity|].
  cbn [retry_loop callback_loop].
  destruct (attempt <=? MaxAttempts r); [|reflexivity].
  destruct (operation w0) as [[[e|]|msg] w1]; try reflexivity.
  assert (Hw : match onFailure with
               | Some f => f attempt (attempt_failed attempt) w1
               | None => w1 end = w1).
  { destruct onFailure as [f|] eqn:E; [apply (Hf f eq_refl) | reflexivity]. }
  rewrite Hw. destruct (attempt =? MaxAttempts r); [reflexivity|]. apply IH.
Qed.

(** What a run returns comes from the last invocation, except for the
    error: that one is made by the executor. *)
Lemma callback_loop_outcomes r operation onFailure (fuel : nat) :
  MaxAttempts r <= int64_max ->
  forall attempt delay w res w',
  1 <= attempt <= MaxAttempts r ->
  callback_loop r operation onFailure fuel attempt delay w = Some (res, w') ->
  match res with
  | Returns (Some e) => e = exhausted r
  | Returns None => exists w0, operation w0 = (Returns None, w')
  | Panics msg => exists w0, operation w0 = (Panics msg, w')
  end.
Proof.
  intros Hmax. induction fuel as [|fuel IH]; intros attempt delay w res w' Ha H;
    [discriminate|].
  cbn [callback_loop] in H.
  destruct (attempt <=? MaxAttempts r) eqn:E1; [|apply Z.leb_gt in E1; lia].
  destruct (operation w) as [[[e|]|msg] w1] eqn:Eo.
  - destruct (attempt =? MaxAttempts r) eqn:E2.
    + injection H as <- <-. reflexivity.
    + apply Z.eqb_neq in E2.
      rewrite wrap64_id in H by (unfold int64_range, int64_min, int64_max in *; lia).
      apply IH in H; [exact H | lia].
  - injection H as <- <-. exists w. exact Eo.
  - injection H as <- <-. exists w. exact Eo.
Qed.

(** For [1 <= MaxAttempts], whatever the operation does: both executors
    return; an error they return is "operation failed after N attempts",
    never an error of the operation; a nil or a panic is the outcome of
    an invocation of the operation, in the world that invocation left. *)
Theorem retry_outcomes r operation onFailure w :
  1 <= MaxAttempts r -> MaxAttempts r <= int64_max ->
  let from_operation (run : option (outcome (option error) * World U)) :=
    exists res w',
      run = Some (res, w')
      /\ match res with
         | Returns (Some e) =>
             e = String.append "operation failed after "
                   (String.append (fmt_d (MaxAttempts r)) " attempts")
         | Returns None => exists w0, operation w0 = (Returns None, w')
         | Panics msg => exists w0, operation w0 = (Panics msg, w')
         end in
  from_operation (ExecuteWithRetry r operation w)
  /\ from_operation (ExecuteWithRetryAndCallback r operation onFailure w).
Proof.
  intros H1 Hmax from_operation.
  assert (Hgen : forall cb, from_operation (ExecuteWithRetryAndCallback r operation cb w)).
  { intros cb.
    destruct (ExecuteWithRetryAndCallback_returns r operation cb w Hmax) as [[res w'] Hrun].
    exists res, w'. split; [exact Hrun|].
    apply (callback_loop_outcomes r operation cb (loop_tests r) Hmax 1 (InitialDelay r) w);
      [lia | exact Hrun]. }
  split; [|apply Hgen].
  unfold ExecuteWithRetry. rewrite retry_loop_nil_callback. apply (Hgen None).
Qed.

Lemma failure_reports_cons (first : Z) (n : nat) :
  failure_reports first (S n)
  = (first, attempt_failed first) :: failure_reports (first + 1) n.
Proof.
  unfold failure_reports. cbn [seq map]. rewrite Z.add_0_r. f_equal.
  rewrite <- seq_shift, map_map. apply map_ext. intros i.
  replace (first + Z.of_nat (S i)) with (first + 1 + Z.of_nat i) by lia. reflexivity.
Qed.

(** The loop from attempt [attempt] on: the callback is called once
    after each failed invocation, with the number of the attempt. *)
Lemma callback_loop_reports r operation f (calls : U -> nat)
    (log : U -> list (Z * error)) (fuel : nat) :
  MaxAttempts r <= int64_max ->
  counts_calls calls operation -> keeps_calls calls (Some f) ->
  records_failures log f -> keeps_log log operation ->
  forall attempt delay w res w',
  1 <= attempt <= MaxAttempts r ->
  callback_loop r operation (Some f) fuel attempt delay w = Some (res, w') ->
  exists n : nat,
    log (heap w') = log (heap w) ++ failure_reports attempt n
    /\ match res with
       | Returns (Some _) =>
           attempt + Z.of_nat n = MaxAttempts r + 1
           /\ calls (heap w') = (calls (heap w) + n)%nat
       | _ => calls (heap w') = (calls (heap w) + n + 1)%nat
       end.
Proof.
  intros Hmax Hcount Hkeep Hrec Hlog.
  induction fuel as [|fuel IH]; intros attempt delay w res w' Ha H; [discriminate|].
  cbn [callback_loop] in H.
  destruct (attempt <=? MaxAttempts r) eqn:E1; [|apply Z.leb_gt in E1; lia].
  pose proof (Hcount w) as Hc. pose proof (Hlog w) as Hl.
  destruct (operation w) as [[[e|]|msg] w1]; cbn [snd] in Hc, Hl.
  - pose proof (Hrec attempt (attempt_failed attempt) w1) as Hl2.
    pose proof (Hkeep f eq_refl attempt (attempt_failed attempt) w1) as Hc2.
    destruct (attempt =? MaxAttempts r) eqn:E2.
    + apply Z.eqb_eq in E2. injection H as <- <-. exists 1%nat.
      rewrite Hl2, Hl, Hc2, Hc. cbn. rewrite Z.add_0_r. split; [reflexivity|]. lia.
    + apply Z.eqb_neq in E2.
      rewrite wrap64_id in H by (unfold int64_range, int64_min, int64_max in *; lia).
      apply IH in H; [|lia]. destruct H as (n & Hn & Hres).
      exists (S n). cbn [time_Sleep heap] in Hn, Hres.
      rewrite failure_reports_cons, Hn, Hl2, Hl, <- app_assoc. split; [reflexivity|].
      rewrite Hc2, Hc in Hres. destruct res as [[e'|]|msg]; lia.
  - injection H as <- <-. exists 0%nat. rewrite Hl, app_nil_r. split; [reflexivity|]. lia.
  - injection H as <- <-. exists 0%nat. rewrite Hl, app_nil_r. split; [reflexivity|]. lia.
Qed.

(** For [1 <= MaxAttempts]: [ExecuteWithRetryAndCallback] calls the
    callback once after every failed invocation of the operation, the
    last one included, and before the next invocation; its arguments are
    the number of the attempt, from 1, and the error "attempt N failed".
    A run that ends in an error has made [MaxAttempts] invocations and as
    many calls of the callback; a run that ends in nil has called it once
    less than it invoked the operation. *)
Theorem callback_called_for_every_failure r operation
    (f : Z -> error -> World U -> World U) (calls : U -> nat)
    (log : U -> list (Z * error)) w :
  1 <= MaxAttempts r -> MaxAttempts r <= int64_max ->
  counts_calls calls operation -> keeps_calls calls (Some f) ->
  records_failures log f -> keeps_log log operation ->
  exists res w' (n : nat),
    ExecuteWithRetryAndCallback r operation (Some f) w = Some (res, w')
    /\ log (heap w')
       = log (heap w)
         ++ map (fun i => (1 + Z.of_nat i,
                           String.append "attempt "
                             (String.append (fmt_d (1 + Z.of_nat i)) " failed")))
                (seq 0 n)
    /\ match res with
       | Returns (Some _) =>
           Z.of_nat n = MaxAttempts r /\ calls (heap w') = (calls (heap w) + n)%nat
       | _ => calls (heap w') = (calls (heap w) + n + 1)%nat
       end.
Proof.
  intros H1 Hmax Hcount Hkeep Hrec Hlog.
  destruct (ExecuteWithRetryAndCallback_returns r operation (Some f) w Hmax)
    as [[res w'] Hrun].
  destruct (callback_loop_reports r operation f calls log (loop_tests r) Hmax
              Hcount Hkeep Hrec Hlog 1 (InitialDelay r) w res w') as (n & Hn & Hres);
    [lia | exact Hrun |].
  exists res, w', n. split; [exact Hrun|]. split; [exact Hn|].
  destruct res as [[e|]|msg]; [|exact Hres ..]. split; [lia | apply Hres].
Qed.

(** The loop from attempt [attempt] on invokes the operation no more
    often than there are attempts left, and at least once. *)
Lemma callback_loop_calls_bound r operation onFailure (calls : U -> nat) (fuel : nat) :
  MaxAttempts r <= int64_max ->
  counts_calls calls operation -> keeps_calls calls onFailure ->
  forall attempt delay w res w',
  1 <= attempt <= MaxAttempts r ->
  callback_loop r operation onFailure fuel attempt delay w = Some (res, w') ->
  Z.of_nat (calls (heap w)) < Z.of_nat (calls (heap w'))
    <= Z.of_nat (calls (heap w)) + (MaxAttempts r - attempt + 1).
Proof.
  intros Hmax Hcount Hkeep.
  induction fuel as [|fuel IH]; intros attempt delay w res w' Ha H; [discriminate|].
  cbn [callback_loop] in H.
  destruct (attempt <=? MaxAttempts r) eqn:E1; [|apply Z.leb_gt in E1; lia].
  pose proof (Hcount w) as Hc.
  destruct (operation w) as [[[e|]|msg] w1]; cbn [snd] in Hc.
  - set (w2 := match onFailure with
               | Some f => f attempt (attempt_failed attempt) w1
               | None => w1 end) in *.
    assert (Hc2 : calls (heap w2) = S (calls (heap w))).
    { subst w2. destruct onFailure as [f|] eqn:Ef; [|exact Hc].
      rewrite (Hkeep f eq_refl). exact Hc. }
    destruct (attempt =? MaxAttempts r) eqn:E2.
    + injection H as <- <-. lia.
    + apply Z.eqb_neq in E2.
      rewrite wrap64_id in H by (unfold int64_range, int64_min, int64_max in *; lia).
      apply IH in H; [|lia]. cbn [time_Sleep heap] in H. lia.
  - injection H as <- <-. lia.
  - injection H as <- <-. lia.
Qed.

(** For [1 <= MaxAttempts], whatever the operation returns and whatever
    the callback is: both executors return after at least one and at
    most [MaxAttempts] invocations of the operation. *)
Theorem retry_invokes_at_most_MaxAttempts r operation onFailure (calls : U -> nat) w :
  1 <= MaxAttempts r -> MaxAttempts r <= int64_max ->
  counts_calls calls operation -> keeps_calls calls onFailure ->
  let bounded (run : option (outcome (option error) * World U)) :=
    exists res w',
      run = Some (res, w')
      /\ Z.of_nat (calls (heap w)) < Z.of_nat (calls (heap w'))
           <= Z.of_nat (calls (heap w)) + MaxAttempts r in
  bounded (ExecuteWithRetry r operation w)
  /\ bounded (ExecuteWithRetryAndCallback r operation onFailure w).
Proof.
  intros H1 Hmax Hcount Hkeep bounded.
  assert (Hgen : forall cb, keeps_calls calls cb ->
            bounded (ExecuteWithRetryAndCallback r operation cb w)).
  { intros cb Hcb.
    destruct (ExecuteWithRetryAndCallback_returns r operation cb w Hmax) as [[res w'] Hrun].
    exists res, w'. split; [exact Hrun|].
    pose proof (callback_loop_calls_bound r operation cb calls (loop_tests r) Hmax
                  Hcount Hcb 1 (InitialDelay r) w res w') as H.
    lapply H; [clear H; intros H; specialize (H Hrun); lia | lia]. }
  split; [|apply Hgen; exact Hkeep].
  unfold ExecuteWithRetry. rewrite retry_loop_nil_callback.
  apply Hgen. intros f Hf. discriminate.
Qed.

Lemma total_le_length (ds : list Duration) (M : Z) :
  Forall (fun d => d <= M) ds -> total ds <= Z.of_nat (length ds) * M.
Proof.
  induction 1 as [|d ds Hd _ IH]; [cbn; lia|].
  cbn [total fold_right length] in *. fold (total ds). lia.
Qed.

Lemma length_backoffs r (delay : Duration) (n : nat) :
  length (backoffs r delay n) = n.
Proof. revert delay. induction n as [|n IH]; intros delay; cbn; auto. Qed.

(** For [1 <= MaxAttempts] and [InitialDelay <= MaxDelay], [MaxDelay]
    not negative, an operation and a callback that do not sleep
    themselves: all the sleeps of a run of either executor add up to
    [(MaxAttempts - 1) * MaxDelay] at most, whatever the multiplier is. *)
Theorem retry_sleeps_bounded r operation onFailure w :
  1 <= MaxAttempts r -> MaxAttempts r <= int64_max ->
  InitialDelay r <= MaxDelay r -> 0 <= MaxDelay r ->
  sleepless operation -> sleepless_callback onFailure ->
  let bounded (run : option (outcome (option error) * World U)) :=
    exists res w' ds,
      run = Some (res, w')
      /\ sleeps w' = sleeps w ++ ds
      /\ total ds <= (MaxAttempts r - 1) * MaxDelay r in
  bounded (ExecuteWithRetry r operation w)
  /\ bounded (ExecuteWithRetryAndCallback r operation onFailure w).
Proof.
  intros H1 Hmax Hle H0 Hop Hcb bounded.
  assert (Hgen : forall cb, sleepless_callback cb ->
            bounded (ExecuteWithRetryAndCallback r operation cb w)).
  { intros cb Hs.
    destruct (callback_loop_sleeps r operation cb Hmax Hop Hs (loop_tests r)
                1 (InitialDelay r) w)
      as (n & res & w' & Hrun & Hsl & Hn & _);
      [lia | unfold loop_tests; lia | unfold loop_tests; lia |].
    exists res, w', (backoffs r (InitialDelay r) n).
    split; [exact Hrun|]. split; [exact Hsl|].
    pose proof (total_le_length _ _ (backoffs_le_MaxDelay r n (InitialDelay r) Hle)) as Ht.
    rewrite length_backoffs in Ht. nia. }
  split; [|apply Hgen; exact Hcb].
  unfold ExecuteWithRetry. rewrite retry_loop_nil_callback.
  apply Hgen. intros f Hf. discriminate.
Qed.

End More.

(** The logging callback of [processEvent] changes nothing. *)
Lemma ExecuteWithRetry_is_callback_free_witness :
  ExecuteWithRetryAndCallback fixtures.config_3 fixtures.always_fails
    (Some (fun _ _ w => w)) fixtures.start
  = ExecuteWithRetry fixtures.config_3 fixtures.always_fails fixtures.start.
Proof.
  apply (ExecuteWithRetry_is_callback_free fixtures.config_3 fixtures.always_fails
           (Some (fun _ _ w => w)) fixtures.start).
  intros f [= <-] attempt err w'. reflexivity.
Defined.

Lemma retry_outcomes_witness :
  (exists res w',
     ExecuteWithRetry fixtures.config_3 (fixtures.succeeds_on 2) fixtures.start
     = Some (res, w')
     /\ match res with
        | Returns (Some e) => e = "operation failed after 3 attempts"
        | Returns None => exists w0, fixtures.succeeds_on 2 w0 = (Returns None, w')
        | Panics msg => exists w0, fixtures.succeeds_on 2 w0 = (Panics msg, w')
        end)
  /\ (exists res w',
     ExecuteWithRetryAndCallback fixtures.config_3 (fixtures.succeeds_on 2) None
       fixtures.start = Some (res, w')
     /\ match res with
        | Returns (Some e) => e = "operation failed after 3 attempts"
        | Returns None => exists w0, fixtures.succeeds_on 2 w0 = (Returns None, w')
        | Panics msg => exists w0, fixtures.succeeds_on 2 w0 = (Panics msg, w')
        end).
Proof.
  apply (retry_outcomes fixtures.config_3 (fixtures.succeeds_on 2) None fixtures.start).
  - simpl. lia.
  - vm_compute. discriminate.
Defined.

(** [TestRetryConfig_ExecuteWithRetryAndCallback]: three attempts, three
    calls of the callback. *)
Lemma callback_called_for_every_failure_witness :
  exists res w' (n : nat),
    ExecuteWithRetryAndCallback fixtures.config_3 recorders.failing
      (Some recorders.record_failure) recorders.start = Some (res, w')
    /\ snd (heap w')
       = [] ++ map (fun i => (1 + Z.of_nat i,
                              String.append "attempt "
                                (String.append (fmt_d (1 + Z.of_nat i)) " failed")))
                   (seq 0 n)
    /\ match res with
       | Returns (Some _) => Z.of_nat n = 3 /\ fst (heap w') = (0 + n)%nat
       | _ => fst (heap w') = (0 + n + 1)%nat
       end.
Proof.
  apply (callback_called_for_every_failure fixtures.config_3 recorders.failing
           recorders.record_failure fst snd recorders.start).
  - simpl. lia.
  - vm_compute. discriminate.
  - intros w. reflexivity.
  - intros f [= <-] attempt err w. reflexivity.
  - intros attempt err w. reflexivity.
  - intros w. reflexivity.
Defined.

Lemma retry_invokes_at_most_MaxAttempts_witness :
  (exists res w',
     ExecuteWithRetry fixtures.config_3 fixtures.always_fails fixtures.start
     = Some (res, w')
     /\ Z.of_nat 0 < Z.of_nat (heap w') <= Z.of_nat 0 + 3)
  /\ (exists res w',
     ExecuteWithRetryAndCallback fixtures.config_3 fixtures.always_fails None
       fixtures.start = Some (res, w')
     /\ Z.of_nat 0 < Z.of_nat (heap w') <= Z.of_nat 0 + 3).
Proof.
  apply (retry_invokes_at_most_MaxAttempts fixtures.config_3 fixtures.always_fails
           None (fun n => n) fixtures.start).
  - simpl. lia.
  - vm_compute. discriminate.
  - intros w. reflexivity.
  - intros f Hf. discriminate.
Defined.

(** [TestRetryConfig_MaxDelayCap] with five attempts: at most 4 * 50ms. *)
Lemma retry_sleeps_bounded_witness :
  (exists res w' ds,
     ExecuteWithRetry fixtures.config_5 fixtures.always_fails fixtures.start
     = Some (res, w')
     /\ sleeps w' = [] ++ ds
     /\ total ds <= (5 - 1) * (50 * Millisecond))
  /\ (exists res w' ds,
     ExecuteWithRetryAndCallback fixtures.config_5 fixtures.always_fails None
       fixtures.start = Some (res, w')
     /\ sleeps w' = [] ++ ds
     /\ total ds <= (5 - 1) * (50 * Millisecond)).
Proof.
  apply (retry_sleeps_bounded fixtures.config_5 fixtures.always_fails None fixtures.start).
  - simpl. lia.
  - vm_compute. discriminate.
  - vm_compute. discriminate.
  - vm_compute. discriminate.
  - intros w. reflexivity.
  - intros f Hf. discriminate.
Defined.

End retry_more.

(** ** Circuit breaker: further properties *)

Module breaker_more.
Import circuitbreaker spec breaker_spec breaker_more_spec retry_facts breaker_facts.

Section More.
Context {U : Type}.
Implicit Types (cb : CircuitBreaker) (operation : Op U) (w : World U).

(** [Execute] either fails fast, which it does only when the breaker is
Open and its timeout has not elapsed, leaving breaker and world as
they are, or it invokes the operation once and returns what the
operation returned, in the world the operation left: the error of the
operation is returned as it is. *)
Theorem Execute_rejects_or_passes_through cb operation w :
  (state cb = Open
   /\ time_Since (lastFailureTime cb) w < timeout cb
   /\ Execute cb operation w = (Returns (Some "circuit breaker is open"), cb, w))
  \/ ((state cb = Open -> timeout cb <= time_Since (lastFailureTime cb) w)
      /\ fst (fst (Execute cb operation w)) = fst (operation w)
      /\ snd (Execute cb operation w) = snd (operation w)).
Proof.
  unfold Execute.
  destruct (state cb) eqn:Es.
  - right. split; [discriminate | apply run_invokes_once].
  - destruct (time_Since (lastFailureTime cb) w <? timeout cb) eqn:E.
    + left. apply Z.ltb_lt in E. auto.
    + right. apply Z.ltb_ge in E. split; [auto | apply run_invokes_once].
  - right. split; [discriminate | apply run_invokes_once].
Qed.

(** [Reset] is an override: whatever the state was, Open with the
    timeout still running included, the breaker is Closed with no failure
    and its configuration is kept, and the next [Execute], at any time,
    invokes the operation. *)
Theorem Reset_lets_next_call_through cb operation w :
  GetState (Reset cb) = Closed
  /\ GetFailureCount (Reset cb) = 0
  /\ failureThreshold (Reset cb) = failureThreshold cb
  /\ timeout (Reset cb) = timeout cb
  /\ fst (fst (Execute (Reset cb) operation w)) = fst (operation w)
  /\ snd (Execute (Reset cb) operation w) = snd (operation w).
Proof.
  repeat split; try reflexivity; unfold Execute; cbn [Reset state];
    apply run_invokes_once.
Qed.

(** A successful call on a Closed breaker. *)
Lemma Execute_closed_success cb operation w :
  state cb = Closed -> succeeds operation w ->
  let cb' := snd (fst (Execute cb operation w)) in
  state cb' = Closed /\ failures cb' = 0
  /\ failureThreshold cb' = failureThreshold cb /\ timeout cb' = timeout cb.
Proof.
  intros Hs Hok. unfold Execute, run, succeeds in *. rewrite Hs.
  destruct (operation w) as [res w1]. cbn [fst] in Hok. subst res.
  cbn. rewrite Hs. auto.
Qed.

Lemma Execute_calls_app (calls1 calls2 : list (Duration * Op U)) :
  forall cb w,
  Execute_calls (calls1 ++ calls2) cb w
  = Execute_calls calls2 (fst (Execute_calls calls1 cb w))
      (snd (Execute_calls calls1 cb w)).
Proof.
  induction calls1 as [|[d operation] calls1 IH]; intros cb w; [reflexivity|].
  cbn [app Execute_calls].
  destruct (Execute cb operation (time_Sleep d w)) as [[res cb1] w1]. apply IH.
Qed.

(** Only consecutive failures count: a success sets the failure count
    back to 0.  After fewer than [failureThreshold] failing calls, one
    successful call and again fewer than [failureThreshold] failing
    calls, the breaker is Closed and its failure count is the number of
    failures since the success, however many failures there were in
    all. *)
Theorem success_forgets_failures (threshold : Z) (to : Duration)
    (before after : list (Duration * Op U)) (d : Duration) operation w :
  threshold <= int64_max ->
  Z.of_nat (length before) < threshold ->
  Z.of_nat (length after) < threshold ->
  Forall (fun c => forall w', fails (snd c) w') before ->
  (forall w', succeeds operation w') ->
  Forall (fun c => forall w', fails (snd c) w') after ->
  let cb := fst (Execute_calls (before ++ (d, operation) :: after)
                   (NewCircuitBreaker threshold to) w) in
  GetState cb = Closed /\ GetFailureCount cb = Z.of_nat (length after).
Proof.
  intros Hth Hb Ha Hfb Hok Hfa.
  rewrite Execute_calls_app.
  destruct (Execute_calls_below before (NewCircuitBreaker threshold to) w)
    as (Hs1 & _ & Ht1 & Hto1); [reflexivity | cbn; lia | cbn; lia | cbn; lia | exact Hfb |].
  destruct (Execute_calls before (NewCircuitBreaker threshold to) w) as [cb1 w1].
  cbn [fst snd] in *. cbn [Execute_calls].
  destruct (Execute_closed_success cb1 operation (time_Sleep d w1) Hs1 (Hok _))
    as (Hs2 & Hf2 & Ht2 & Hto2).
  destruct (Execute cb1 operation (time_Sleep d w1)) as [[res cb2] w2].
  cbn [fst snd] in *.
  destruct (Execute_calls_below after cb2 w2) as (Hs3 & Hf3 & _);
    [exact Hs2 | lia | cbn in *; lia | cbn in *; lia | exact Hfa |].
  unfold GetState, GetFailureCount. rewrite Hs3, Hf3, Hf2. split; [reflexivity | lia].
Qed.

(** While the breaker is Open and its timeout has not elapsed, however
    many calls are made: none of the operations is invoked, the breaker
    does not change, and neither does its last failure time, so the calls
    that are rejected do not prolong the time the breaker stays open. *)
Theorem open_breaker_rejects_all_calls (calls : list (Duration * Op U)) :
  forall cb w,
  state cb = Open ->
  0 <= elapsed cb w ->
  elapsed cb w + waiting calls < timeout cb ->
  fst (Execute_calls calls cb w) = cb
  /\ heap (snd (Execute_calls calls cb w)) = heap w
  /\ clock (snd (Execute_calls calls cb w)) = clock w + waiting calls.
Proof.
  induction calls as [|[d operation] calls IH]; intros cb w Hs H0 Hlt.
  - cbn. rewrite Z.add_0_r. auto.
  - cbn [Execute_calls]. cbn [waiting fold_right fst] in Hlt. fold (waiting calls) in Hlt.
    assert (Hw : 0 <= waiting calls).
    { clear. induction calls as [|c calls IHc]; cbn; [lia|]. fold (waiting calls). lia. }
    rewrite Execute_rejects;
      [|exact Hs | unfold elapsed in *; cbn [time_Sleep clock]; lia].
    destruct (IH cb (time_Sleep d w)) as (Hcb & Hh & Hc);
      [exact Hs | unfold elapsed in *; cbn [time_Sleep clock]; lia
       | unfold elapsed in *; cbn [time_Sleep clock]; lia |].
    split; [exact Hcb|]. split; [rewrite Hh; reflexivity|].
    rewrite Hc. cbn [time_Sleep clock waiting fold_right fst]. fold (waiting calls). lia.
Qed.

(** A panic of the operation is not recorded as a failure: failure count
    and last failure time stay as they were; and when the operation was
    the probe of an Open breaker whose timeout had elapsed, the breaker
    is left Half-Open, where the next [Execute] invokes its operation
    at once. *)
Theorem panic_is_not_recorded cb operation w :
  panics operation w ->
  timeout cb <= int64_max ->
  (state cb = Open -> timeout cb <= elapsed cb w) ->
  let cb' := snd (fst (Execute cb operation w)) in
  failures cb' = failures cb
  /\ lastFailureTime cb' = lastFailureTime cb
  /\ state cb' = (match state cb with Open => HalfOpen | s => s end)
  /\ (state cb = Open ->
      forall operation' w',
        fst (fst (Execute cb' operation' w')) = fst (operation' w')).
Proof.
  intros [msg Hp] Hto He.
  assert (Hrun : forall cb0, snd (fst (run cb0 operation w)) = cb0).
  { intros cb0. unfold run. destruct (operation w) as [res w1].
    cbn [fst] in Hp. subst res. reflexivity. }
  destruct (state cb) eqn:Es.
  - unfold Execute. rewrite Es. cbn zeta. rewrite Hrun, Es.
    repeat split; auto. discriminate.
  - rewrite Execute_probes by auto. cbn zeta. rewrite Hrun. cbn.
    repeat split; auto. intros _ operation' w'. apply run_invokes_once.
  - unfold Execute. rewrite Es. cbn zeta. rewrite Hrun, Es.
    repeat split; auto. discriminate.
Qed.

End More.

(** Threshold 3: two failures, a success, two failures; four failures in
    all and the breaker is Closed with a failure count of 2. *)
Lemma success_forgets_failures_witness :
  let fail := (0, fixtures.always_fails) in
  let cb := fst (Execute_calls ([fail; fail] ++ (0, recorders.always_succeeds) :: [fail; fail])
                   (NewCircuitBreaker 3 (100 * Millisecond)) fixtures.start) in
  GetState cb = Closed /\ GetFailureCount cb = Z.of_nat 2.
Proof.
  intros fail.
  apply (success_forgets_failures 3 (100 * Millisecond) [fail; fail] [fail; fail]
           0 recorders.always_succeeds fixtures.start).
  - vm_compute. discriminate.
  - simpl. lia.
  - simpl. lia.
  - repeat constructor; intros w; exists "test error"; reflexivity.
  - intros w. reflexivity.
  - repeat constructor; intros w; exists "test error"; reflexivity.
Defined.

(** A breaker opened at time 0 with a timeout of 100ms: two calls, after
    10ms and after 20ms more. *)
Lemma open_breaker_rejects_all_calls_witness :
  let cb := {| failureThreshold := 2; timeout := 100 * Millisecond; state := Open;
               failures := 2; lastFailureTime := 0 |} in
  let calls := [(10 * Millisecond, recorders.always_succeeds);
                (20 * Millisecond, recorders.always_succeeds)] in
  fst (Execute_calls calls cb fixtures.start) = cb
  /\ heap (snd (Execute_calls calls cb fixtures.start)) = heap fixtures.start
  /\ clock (snd (Execute_calls calls cb fixtures.start))
     = clock fixtures.start + waiting calls.
Proof.
  intros cb calls. apply (open_breaker_rejects_all_calls calls cb fixtures.start).
  - reflexivity.
  - vm_compute. discriminate.
  - vm_compute. reflexivity.
Defined.

(** The probe of a breaker opened at time 0, made at 150ms, panics. *)
Lemma panic_is_not_recorded_witness :
  let cb := {| failureThreshold := 2; timeout := 100 * Millisecond; state := Open;
               failures := 2; lastFailureTime := 0 |} in
  let w := mkWorld (150 * Millisecond) [] 0%nat in
  let cb' := snd (fst (Execute cb recorders.panicking w)) in
  failures cb' = failures cb
  /\ lastFailureTime cb' = lastFailureTime cb
  /\ state cb' = HalfOpen
  /\ (state cb = Open ->
      forall (operation' : Op nat) (w' : World nat),
        fst (fst (Execute cb' operation' w')) = fst (operation' w')).
Proof.
  intros cb w.
  apply (panic_is_not_recorded cb recorders.panicking w).
  - exists "boom". reflexivity.
  - vm_compute. discriminate.
  - intros _. vm_compute. discriminate.
Defined.

End breaker_more.

(** ** Bounded event queue: further properties *)

Module queue_more.
Import channel models queue queue_spec queue_more_spec.

(** Enqueues that fit go to the end of the buffer. *)
Lemma Enqueue_all_fits (evs : list ProductEvent) :
  forall q : InMemoryEventQueue,
  closed (events q) = false -> recvq (events q) = O ->
  Z.of_nat (length (buf (events q)) + length evs) <= cap (events q) ->
  Enqueue_all q evs
  = (repeat (Returns None) (length evs),
     {| events := mkChan (buf (events q) ++ evs) (cap (events q)) false O
                    (handed (events q)) |}).
Proof.
  induction evs as [|event evs IH]; intros [c] Hopen Hrq Hfit; cbn [events] in *.
  - cbn. rewrite app_nil_r. destruct c; cbn in *. subst. reflexivity.
  - cbn [Enqueue_all length repeat]. unfold Enqueue, select_send. cbn [events].
    rewrite Hopen, Hrq. unfold len.
    destruct (Z.of_nat (length (buf c)) <? cap c) eqn:E;
      [|apply Z.ltb_ge in E; cbn [length] in Hfit; lia].
    rewrite IH; cbn [events closed recvq buf cap handed]; auto.
    + rewrite <- app_assoc. reflexivity.
    + rewrite length_app. cbn [length] in *. lia.
Qed.

(** Dequeues take from the front of the buffer. *)
Lemma Dequeue_many_buffered (front : list ProductEvent) :
  forall (rest : list ProductEvent) (cap : Z) (closed : bool) (recvq : nat)
         (handed : list ProductEvent),
  Dequeue_many (length front) {| events := mkChan (front ++ rest) cap closed recvq handed |}
  = (map (fun event => (event, true)) front,
     {| events := mkChan rest cap closed recvq handed |}).
Proof.
  induction front as [|event front IH]; intros rest cap closed recvq handed;
    [reflexivity|].
  cbn [length Dequeue_many app]. unfold Dequeue, recv. cbn [events buf].
  cbn [channel.cap channel.closed channel.recvq channel.handed].
  rewrite IH. reflexivity.
Qed.

(** First in, first out: the events enqueued on a fresh queue that is
    large enough for them are all accepted, and as many dequeues return
    them in the order they were enqueued in; the dequeue after the last
    parks. *)
Theorem queue_is_fifo (capacity : Z) (evs : list ProductEvent) :
  Z.of_nat (length evs) <= capacity ->
  exists q0,
    NewInMemoryEventQueue capacity = Returns q0
    /\ fst (Enqueue_all q0 evs) = repeat (Returns None) (length evs)
    /\ let q1 := snd (Enqueue_all q0 evs) in
       fst (Dequeue_many (length evs) q1) = map (fun event => (event, true)) evs
       /\ exists c, Dequeue (snd (Dequeue_many (length evs) q1)) = Parks c.
Proof.
  intros Hfit. unfold NewInMemoryEventQueue, make.
  destruct (capacity <? 0) eqn:E; [apply Z.ltb_lt in E; lia|].
  eexists. split; [reflexivity|].
  rewrite Enqueue_all_fits by (cbn; auto; lia). cbn [fst snd events buf app].
  split; [reflexivity|].
  pose proof (Dequeue_many_buffered evs [] capacity false O []) as Hd.
  rewrite app_nil_r in Hd. cbv zeta. cbn [fst snd events buf cap handed app].
  rewrite Hd.
  split; [reflexivity|]. cbn [snd]. unfold Dequeue, recv. cbn. eauto.
Qed.

Lemma Dequeue_many_closed_empty (k : nat) (cap : Z) (recvq : nat)
    (handed : list ProductEvent) :
  fst (Dequeue_many k {| events := mkChan [] cap true recvq handed |})
  = repeat (zero_ProductEvent, false) k.
Proof.
  induction k as [|k IH]; [reflexivity|].
  cbn [Dequeue_many repeat]. unfold Dequeue, recv. cbn [events buf closed].
  destruct (Dequeue_many k _) as [got q] eqn:Ed. cbn [fst] in *.
  rewrite <- IH. reflexivity.
Qed.

(** Dequeues that did not park, and more dequeues. *)
Lemma Dequeue_many_add (n m : nat) (q : InMemoryEventQueue) :
  length (fst (Dequeue_many n q)) = n ->
  fst (Dequeue_many (n + m) q)
  = fst (Dequeue_many n q) ++ fst (Dequeue_many m (snd (Dequeue_many n q))).
Proof.
  revert q. induction n as [|n IH]; intros q Hlen; [reflexivity|].
  cbn [Nat.add Dequeue_many] in *.
  destruct (Dequeue q) as [event ok c|c]; [|discriminate Hlen].
  specialize (IH {| events := c |}).
  destruct (Dequeue_many n {| events := c |}) as [got q'] eqn:E1.
  destruct (Dequeue_many (n + m) {| events := c |}) as [got2 q2] eqn:E2.
  cbn [fst snd length] in *. rewrite IH by lia. reflexivity.
Qed.

(** After [Close] the events still in the buffer are dequeued in their
    order, each with [ok] true; every dequeue after them returns the zero
    event with [ok] false, at once. *)
Theorem closed_queue_drains_in_order (q : InMemoryEventQueue) (k : nat) :
  closed (events q) = false ->
  exists q',
Close q = Returns q'
/\ fst (Dequeue_many (length (buf (events q)) + k) q')
   = map (fun event => (event, true)) (buf (events q))
     ++ repeat (zero_ProductEvent, false) k.
Proof.
  intros Hopen. unfold Close, close. rewrite Hopen.
  eexists. split; [reflexivity|].
  pose proof (Dequeue_many_buffered (buf (events q)) [] (cap (events q)) true O
                (handed (events q))) as Hd.
  rewrite app_nil_r in Hd.
  rewrite Dequeue_many_add.
  - rewrite Hd. cbn [fst snd]. rewrite Dequeue_many_closed_empty. reflexivity.
  - rewrite Hd. cbn [fst]. apply length_map.
Qed.

(** Closing a queue that is closed panics. *)
Theorem Close_twice_panics (q q' : InMemoryEventQueue) :
Close q = Returns q' -> Close q' = Panics "close of closed channel".
Proof.
  unfold Close, close. destruct (closed (events q)) eqn:E; [discriminate|].
  intros [= <-]. reflexivity.
Qed.

Lemma after_call_within_capacity (capacity : Z) (q : InMemoryEventQueue) (c : queue_call) :
  within_capacity capacity q -> within_capacity capacity (after_call q c).
Proof.
  intros (Hcap & Hlen & Hrq). destruct q as [ch]. cbn [events] in *.
  assert (Hsame : within_capacity capacity {| events := ch |})
    by (repeat split; auto; apply Hrq; auto).
  destruct c as [event| |]; cbn [after_call].
  - unfold Enqueue, select_send. cbn [events].
    destruct (closed ch) eqn:Ec; [exact Hsame|].
    destruct (recvq ch) as [|n] eqn:Er.
    + unfold len. destruct (Z.of_nat (length (buf ch)) <? cap ch) eqn:E; [|exact Hsame].
      apply Z.ltb_lt in E. split; [exact Hcap|]. split; [|intros Hn; contradiction].
      cbn. rewrite length_app. cbn. lia.
    + destruct Hrq as [Hb _]; [discriminate|].
      split; [exact Hcap|]. split; [exact Hlen|]. cbn. intros _. auto.
  - unfold Dequeue, recv. cbn [events].
    destruct (buf ch) as [|event rest] eqn:Eb.
    + destruct (closed ch) eqn:Ec; [exact Hsame|].
      split; [exact Hcap|]. split; [cbn; lia|]. cbn. intros _. auto.
    + split; [exact Hcap|]. split; [cbn in *; lia|].
      cbn. intros Hn. destruct (Hrq Hn) as [H _]. discriminate.
  - unfold Close, close. cbn [events].
    destruct (closed ch) eqn:Ec; [exact Hsame|].
    split; [exact Hcap|]. split; [exact Hlen|]. cbn. intros Hn. contradiction.
Qed.

(** Whatever [Enqueue], [Dequeue] and [Close] calls are made on a queue
    created with capacity [capacity >= 0], in whatever order: the queue
    never holds more than [capacity] events. *)
Theorem queue_never_exceeds_capacity (capacity : Z) (calls : list queue_call) :
  0 <= capacity ->
  exists q0,
    NewInMemoryEventQueue capacity = Returns q0
    /\ Z.of_nat (length (buf (events (fold_left after_call calls q0)))) <= capacity.
Proof.
  intros H0. unfold NewInMemoryEventQueue, make.
  destruct (capacity <? 0) eqn:E; [apply Z.ltb_lt in E; lia|].
  eexists. split; [reflexivity|].
  assert (Hinv : forall q, within_capacity capacity q ->
            within_capacity capacity (fold_left after_call calls q)).
  { induction calls as [|c calls IH]; intros q Hq; [exact Hq|].
    cbn [fold_left]. apply IH. apply after_call_within_capacity. exact Hq. }
  apply Hinv. repeat split; cbn; auto; contradiction.
Qed.

(** [TestInMemoryEventQueue_EventIntegrity] with two events. *)
Lemma queue_is_fifo_witness :
  let evs := [fixtures.event "1" 1 1; fixtures.event "2" 2 2] in
  exists q0,
    NewInMemoryEventQueue 10 = Returns q0
    /\ fst (Enqueue_all q0 evs) = repeat (Returns None) (length evs)
    /\ let q1 := snd (Enqueue_all q0 evs) in
       fst (Dequeue_many (length evs) q1) = map (fun event => (event, true)) evs
       /\ exists c, Dequeue (snd (Dequeue_many (length evs) q1)) = Parks c.
Proof.
  intros evs. apply (queue_is_fifo 10 evs). simpl. lia.
Defined.

(** The queue of [TestInMemoryEventQueue_Close] when it is closed, and
    three dequeues. *)
Lemma closed_queue_drains_in_order_witness :
  let q := {| events := mkChan [fixtures.event "1" 1 1; fixtures.event "2" 2 2]
                          10 false O [] |} in
  exists q',
Close q = Returns q'
/\ fst (Dequeue_many (2 + 1) q')
   = map (fun event => (event, true)) (buf (events q))
     ++ repeat (zero_ProductEvent, false) 1.
Proof.
  intros q. apply (closed_queue_drains_in_order q 1). reflexivity.
Defined.

Lemma Close_twice_panics_witness :
  let q := {| events := mkChan [] 10 false O [] |} in
  let q' := {| events := mkChan [] 10 true O [] |} in
Close q' = Panics "close of closed channel".
Proof.
  intros q q'. apply (Close_twice_panics q q'). reflexivity.
Defined.

(** A queue of capacity 1: two enqueues, a dequeue, an enqueue, a close,
    an enqueue. *)
Lemma queue_never_exceeds_capacity_witness :
  let calls := [CallEnqueue (fixtures.event "1" 1 1);
                CallEnqueue (fixtures.event "2" 2 2);
                CallDequeue;
                CallEnqueue (fixtures.event "3" 3 3);
                CallClose;
                CallEnqueue (fixtures.event "4" 4 4)] in
  exists q0,
    NewInMemoryEventQueue 1 = Returns q0
    /\ Z.of_nat (length (buf (events (fold_left after_call calls q0)))) <= 1.
Proof.
  intros calls. apply (queue_never_exceeds_capacity 1 calls). lia.
Defined.

End queue_more.

(** ** Batch accumulator: further properties *)

Module batch_more.
Import channel models queue queue_spec dispatch dispatch_spec.

(** What a flush does to a processor whose dispatch channel is open
    with nobody parked on it: nothing when the buffer is empty; else the
    buffer goes to the channel as one batch, or is dropped when the
    channel is full. *)
Lemma flushBatch_cases (b : BatchProcessor) :
  closed (flushChan b) = false -> recvq (flushChan b) = O ->
  (batch b = [] /\ flushBatch b = (Returns None, b))
  \/ (batch b <> []
      /\ len (flushChan b) < cap (flushChan b)
      /\ flushBatch b
         = (Returns None,
            set_flushChan (mkChan (buf (flushChan b) ++ [batch b]) (cap (flushChan b))
                             false O (handed (flushChan b)))
              (set_batch [] b)))
  \/ (batch b <> []
      /\ cap (flushChan b) <= len (flushChan b)
      /\ flushBatch b = (Returns (Some ErrBatchProcessorFull), set_batch [] b)).
Proof.
  intros Hopen Hrq. unfold flushBatch.
  destruct (batch b) as [|event rest] eqn:Eb.
  - left. auto.
  - right. cbn [length]. 
    destruct (Z.of_nat (S (length rest)) =? 0) eqn:E0; [apply Z.eqb_eq in E0; lia|].
    unfold select_send. cbn [set_batch flushChan]. rewrite Hopen, Hrq.
    destruct (len (flushChan b) <? cap (flushChan b)) eqn:El.
    + left. apply Z.ltb_lt in El. split; [discriminate|]. split; [exact El|].
      reflexivity.
    + right. apply Z.ltb_ge in El. split; [discriminate|]. split; [exact El|].
      reflexivity.
Qed.

(** The flush of a processor whose buffer is no longer than the batch
    size allows: the processor is in shape afterwards, and the events it
    held are the events it holds followed by what the flush dropped. *)
Lemma flushBatch_shaped (size : Z) (b : BatchProcessor) :
  batchSize b = size ->
  closed (flushChan b) = false -> recvq (flushChan b) = O ->
  cap (flushChan b) = 10 ->
  Z.of_nat (length (buf (flushChan b))) <= 10 ->
  Forall (well_sized size) (buf (flushChan b)) ->
  Z.of_nat (length (batch b)) <= Z.max 1 size ->
  let b' := snd (flushBatch b) in
  shaped size b'
  /\ held b = held b' ++ (if flush_fails b then batch b else [])
  /\ (flush_fails b = true <-> exists err, fst (flushBatch b) = Returns (Some err))
  /\ (exists err, fst (flushBatch b) = Returns err).
Proof.
  intros Hsize Hopen Hrq Hcap Hlen Hall Hb. unfold flush_fails.
  assert (H1 : 0 < Z.max 1 size) by lia.
  destruct (flushBatch_cases b Hopen Hrq) as [[He ->] | [(Hne & Hroom & ->) | (Hne & Hfull & ->)]];
    cbn [fst snd].
  - split; [|split; [rewrite app_nil_r; reflexivity|split; [|eauto]]].
    + unfold shaped. rewrite He. cbn. repeat split; auto; lia.
    + split; [discriminate | intros [err [=]]].
  - split; [|split; [|split; [|eauto]]].
    + unfold shaped, len in *. cbn. repeat split; auto; try lia.
      * rewrite length_app. cbn. lia.
      * apply Forall_app. split; [exact Hall|]. repeat constructor; auto.
    + unfold held. cbn. rewrite concat_app. cbn. rewrite !app_nil_r. reflexivity.
    + split; [discriminate | intros [err [=]]].
  - split; [|split; [|split; [|eauto]]].
    + unfold shaped. cbn. repeat split; auto; lia.
    + unfold held. cbn. rewrite app_nil_r. reflexivity.
    + split; [eauto | reflexivity].
Qed.

(** How the account is kept when the events still there and the events
    dropped change together. *)
Lemma accounted_update {A : Type} (before after lost dropped evs new : list A) :
  after ++ dropped = before ++ new ->
  sublist before evs ->
  (length before + length lost = length evs)%nat ->
  (lost = [] -> before = evs) ->
  sublist after (evs ++ new)
  /\ (length after + length (lost ++ dropped) = length (evs ++ new))%nat
  /\ (lost ++ dropped = [] -> after = evs ++ new).
Proof.
  intros Heq Hsub Hlen Hall. split; [|split].
  - transitivity (after ++ dropped); [apply sublist_inserts_r; reflexivity|].
    rewrite Heq. apply sublist_app; [exact Hsub | reflexivity].
  - pose proof (f_equal (@length A) Heq) as Hl. rewrite !length_app in *. lia.
  - intros Hnil. apply app_eq_nil in Hnil. destruct Hnil as [-> ->].
    rewrite app_nil_r in Heq. rewrite Heq, Hall by reflexivity. reflexivity.
Qed.

Section Runs.
Context {U : Type} (processor : BatchProcessorFunc U)
  (delivered : U -> list (list ProductEvent)) (size : Z).
Hypothesis Hrec : records_batches processor delivered.

#[local] Abbreviation sound := (dispatch_spec.sound delivered size).

Lemma sound_same (s : run_state) (evs : list ProductEvent) :
  sound s evs -> sound s (evs ++ []).
Proof. rewrite app_nil_r. auto. Qed.

(** A flush in the middle of a run. *)
Lemma sound_flush (p : Processor) (w : World U) (lost evs new : list ProductEvent)
    (b : BatchProcessor) (ret : bool) :
  sound (p, w, lost) evs ->
  batchSize b = size ->
  flushChan b = flushChan (bp p) ->
  batch b = batch (bp p) ++ new ->
  Z.of_nat (length (batch b)) <= Z.max 1 size ->
  sound ({| bp := snd (flushBatch b); stopChan := stopChan p; returned := ret |}, w,
         lost ++ (if flush_fails b then batch b else []))
        (evs ++ new).
Proof.
  intros (Hshape & Hdel & Hsub & Hlen & Hall) Hsize Hch Hb Hle.
  cbn [fst snd] in *. destruct Hshape as (_ & Hopen & Hrq & Hcap & Hbuf & Hws & _).
  rewrite <- Hch in Hopen, Hrq, Hcap, Hbuf, Hws.
  destruct (flushBatch_shaped size b Hsize Hopen Hrq Hcap Hbuf Hws Hle)
    as (Hshape' & Hheld & _).
  split; [exact Hshape'|]. split; [exact Hdel|].
  unfold accounted, kept in *. cbn [fst snd bp] in *.
  apply accounted_update with (before := concat (delivered (heap w)) ++ held (bp p));
    auto.
  rewrite <- !app_assoc, <- Hheld. unfold held. rewrite Hch, Hb, <- !app_assoc.
  reflexivity.
Qed.

Lemma flush_fails_empty (b : BatchProcessor) : batch b = [] -> flush_fails b = false.
Proof. intros H. unfold flush_fails, flushBatch. rewrite H. reflexivity. Qed.

(** The flush of the ticker and of the stop case. *)
Lemma sound_flush_pending (p : Processor) (w : World U) (lost evs : list ProductEvent)
    (ret : bool) :
  sound (p, w, lost) evs ->
  exists b,
    flush_pending (bp p) = Returns b
    /\ sound ({| bp := b; stopChan := stopChan p; returned := ret |}, w,
              lost ++ (if flush_fails (bp p) then batch (bp p) else []))
             (evs ++ []).
Proof.
  intros Hs. pose proof Hs as (Hshape & Hdel & Hacc).
  cbn [fst snd] in *.
  destruct Hshape as (Hsize & Hopen & Hrq & Hcap & Hbuf & Hws & Hlt).
  unfold flush_pending.
  destruct (Z.of_nat (length (batch (bp p))) >? 0) eqn:E.
  - pose proof (sound_flush p w lost evs [] (bp p) ret Hs Hsize eq_refl) as Hf.
    rewrite app_nil_r in Hf. specialize (Hf eq_refl ltac:(lia)).
    destruct (flushBatch_shaped size (bp p) Hsize Hopen Hrq Hcap Hbuf Hws ltac:(lia))
      as (_ & _ & _ & [err Herr]).
    destruct (flushBatch (bp p)) as [res b'] eqn:Ef. cbn [fst snd] in *. subst res.
    exists b'. split; [reflexivity | exact Hf].
  - exists (bp p). split; [reflexivity|].
    assert (He : batch (bp p) = []).
    { rewrite Z.gtb_ltb in E. apply Z.ltb_ge in E.
      destruct (batch (bp p)); [reflexivity | cbn in E; lia]. }
    rewrite flush_fails_empty, !app_nil_r by exact He.
    split; [|split; [exact Hdel|]].
    + cbn [fst snd bp]. repeat split; auto.
    + destruct Hacc as (Hsub & Hlen & Hall). unfold accounted, kept in *.
      cbn [fst snd bp] in *. auto.
Qed.

(** One step of a run keeps it sound. *)
Lemma step_sound (s : run_state) (a : action) (evs : list ProductEvent) :
  sound s evs -> sound (step processor s a) (evs ++ added [a]).
Proof.
  intros Hs. destruct s as [[p w] lost]. pose proof Hs as (Hshape & Hdel & Hacc).
  cbn [fst snd] in Hshape, Hdel.
  pose proof Hshape as (Hsize & Hopen & Hrq & Hcap & Hbuf & Hws & Hlt).
  destruct a as [event|c|]; cbn [step added].
  - (* AddEvent *)
    unfold AddEvent. set (b1 := set_batch (batch (bp p) ++ [event]) (bp p)).
    assert (Hlen1 : Z.of_nat (length (batch b1)) = Z.of_nat (length (batch (bp p))) + 1).
    { subst b1. cbn. rewrite length_app. cbn. lia. }
    destruct (Z.of_nat (length (batch b1)) >=? batchSize b1) eqn:E.
    + pose proof (sound_flush p w lost evs [event] b1 (returned p) Hs Hsize
                    eq_refl eq_refl ltac:(lia)) as Hf.
      destruct (flushBatch_shaped size b1 Hsize Hopen Hrq Hcap Hbuf Hws ltac:(lia))
        as (_ & _ & Hfail & [err Herr]).
      destruct (flushBatch b1) as [res b'] eqn:Ef. cbn [fst snd] in *. subst res.
      destruct err as [err|].
      * assert (Ht : flush_fails b1 = true) by (apply Hfail; eauto).
        rewrite Ht in Hf. exact Hf.
      * assert (Ht : flush_fails b1 = false).
        { destruct (flush_fails b1) eqn:Et; [|reflexivity].
          destruct (proj1 Hfail eq_refl) as [err [=]]. }
        rewrite Ht, app_nil_r in Hf. exact Hf.
    + rewrite Z.geb_leb in E. apply Z.leb_gt in E.
      split; [|split; [exact Hdel|]].
      * cbn [fst snd set_bp bp]. subst b1. unfold shaped in *. cbn in *.
        repeat split; auto. cbn in Hsize. lia.
      * destruct Hacc as (Hsub & Hlen & Hall). unfold accounted, kept in *.
        cbn [fst snd set_bp bp] in *.
        rewrite <- (app_nil_r lost).
        apply accounted_update with (before := concat (delivered (heap w)) ++ held (bp p));
          auto.
        subst b1. unfold held. cbn. rewrite app_nil_r, <- !app_assoc. reflexivity.
  - (* the loop *)
    unfold processBatches_case.
    destruct (returned p) eqn:Er; [apply sound_same; exact Hs|].
    destruct c.
    + destruct (buf (flushChan (bp p))) as [|events rest] eqn:Eb;
        [apply sound_same; exact Hs|].
      destruct (Hrec events w) as [[err Herr] Hlog].
      destruct (processor events w) as [res w'] eqn:Ep. cbn [fst snd] in *. subst res.
      rewrite app_nil_r.
      split; [|split].
      * cbn [fst snd set_bp bp]. unfold shaped in *. cbn. try rewrite Eb in *.
        cbn in Hbuf. repeat split; auto; try lia. apply (Forall_inv_tail Hws).
      * cbn [fst snd]. rewrite Hlog. apply Forall_app. split; [exact Hdel|].
        constructor; [apply (Forall_inv Hws) | constructor].
      * destruct Hacc as (Hsub & Hlen & Hall). unfold accounted, kept, held in *.
        cbn [fst snd set_bp bp] in *. cbn [set_flushChan flushChan batch buf].
        try rewrite Eb in *. rewrite Hlog, concat_app. cbn [concat] in *.
        rewrite app_nil_r, <- !app_assoc in *. rewrite ?(app_nil_r evs). auto.
    + destruct (sound_flush_pending p w lost evs false Hs) as (b & -> & Hb).
      unfold set_bp. rewrite Er. exact Hb.
    + destruct (closed (stopChan p)); [|apply sound_same; exact Hs].
      destruct (sound_flush_pending p w lost evs true Hs) as (b & -> & Hb).
      exact Hb.
  - (* Stop *)
    unfold Stop. destruct (close (stopChan p)); apply sound_same; exact Hs.
Qed.

Lemma added_app (actions1 actions2 : list action) :
  added (actions1 ++ actions2) = added actions1 ++ added actions2.
Proof.
  induction actions1 as [|[event|c|] actions1 IH]; cbn; auto. rewrite IH. reflexivity.
Qed.

Lemma run_sound (actions : list action) :
  forall (s : run_state) (evs : list ProductEvent),
  sound s evs -> sound (run processor actions s) (evs ++ added actions).
Proof.
  induction actions as [|a actions IH]; intros s evs Hs.
  - cbn. rewrite app_nil_r. exact Hs.
  - change (a :: actions) with ([a] ++ actions). rewrite added_app, app_assoc.
    cbn [run fold_left app]. apply IH. apply step_sound. exact Hs.
Qed.

(** A processor fresh from [NewBatchProcessor], nothing delivered yet. *)
Lemma fresh_sound (interval : Duration) (b0 : BatchProcessor) (w0 : World U) :
  NewBatchProcessor size interval = Returns b0 ->
  delivered (heap w0) = [] ->
  sound (started b0, w0, []) [].
Proof.
  unfold NewBatchProcessor. destruct (size <? 0) eqn:E; [discriminate|].
  intros [= <-] Hd. split; [|split].
  - cbn. unfold shaped. cbn. repeat split; auto; lia.
  - cbn. rewrite Hd. constructor.
  - unfold accounted, kept, held. cbn. rewrite Hd. cbn.
    split; [constructor | auto].
Qed.

(** Whatever [AddEvent] calls are made on a batch processor, whatever
    cases its loop takes and whenever [Stop] is called: every batch the
    processor function is called with is non-empty and has at most
    [batchSize] events (one event for a batch size below 1); the buffer
    holds fewer events than that bound whenever a call has returned; and
    at most 10 batches wait in the dispatch channel. *)
Theorem delivered_batches_are_well_sized (interval : Duration) (b0 : BatchProcessor)
    (w0 : World U) (actions : list action) :
  NewBatchProcessor size interval = Returns b0 ->
  delivered (heap w0) = [] ->
  let s := run processor actions (started b0, w0, []) in
  Forall (fun events => events <> [] /\ Z.of_nat (length events) <= Z.max 1 size)
    (delivered (heap (snd (fst s))))
  /\ GetPendingEvents (bp (fst (fst s))) < Z.max 1 size
  /\ GetBatchSize (bp (fst (fst s))) = GetPendingEvents (bp (fst (fst s)))
  /\ Z.of_nat (length (buf (flushChan (bp (fst (fst s)))))) <= 10.
Proof.
  intros Hnew Hd s.
  destruct (run_sound actions _ _ (fresh_sound interval b0 w0 Hnew Hd))
    as (Hshape & Hdel & _).
  fold s in Hshape, Hdel.
  destruct Hshape as (_ & _ & _ & _ & Hbuf & _ & Hlt).
  split; [exact Hdel|]. split; [exact Hlt|]. split; [reflexivity | exact Hbuf].
Qed.

(** In every run of a batch processor the events delivered to the
    processor function, followed by those waiting in the dispatch channel
    and those in the buffer, are events that were added, each once and in
    the order they were added in; the ones missing are those of the
    flushes that found the dispatch channel full, and when there was no
    such flush none is missing. *)
Theorem events_keep_their_order (interval : Duration) (b0 : BatchProcessor)
    (w0 : World U) (actions : list action) :
  NewBatchProcessor size interval = Returns b0 ->
  delivered (heap w0) = [] ->
  let s := run processor actions (started b0, w0, []) in
  let present := concat (delivered (heap (snd (fst s)))) ++ held (bp (fst (fst s))) in
  sublist present (added actions)
  /\ (length present + length (snd s) = length (added actions))%nat
  /\ (snd s = [] -> present = added actions).
Proof.
  intros Hnew Hd s present.
  destruct (run_sound actions _ _ (fresh_sound interval b0 w0 Hnew Hd))
    as (_ & _ & Hacc).
  exact Hacc.
Qed.

(** Once the loop has returned the world does not change any more. *)
Lemma returned_run (actions : list action) :
  forall (p : Processor) (w : World U) (lost : list ProductEvent),
  returned p = true ->
  snd (fst (run processor actions (p, w, lost))) = w
  /\ returned (fst (fst (run processor actions (p, w, lost)))) = true.
Proof.
  induction actions as [|a actions IH]; intros p w lost Hr; [auto|].
  cbn [run fold_left]. destruct a as [event|c|]; cbn [step].
  - destruct (AddEvent (bp p) event) as [[[err|]|msg] b]; apply IH; exact Hr.
  - unfold processBatches_case. rewrite Hr. apply IH. exact Hr.
  - unfold Stop. destruct (close (stopChan p)); apply IH; exact Hr.
Qed.

(** When the loop takes the stop case it flushes the buffer to the
    dispatch channel and returns: the batch of that flush, and the
    batches that were waiting in the channel, stay there.  Whatever
    happens afterwards, the processor function is not called again. *)
Theorem stop_ends_delivery (p : Processor) (w : World U) (lost : list ProductEvent)
    (actions : list action) :
  closed (stopChan p) = true -> returned p = false ->
  closed (flushChan (bp p)) = false -> recvq (flushChan (bp p)) = O ->
  ~ full (flushChan (bp p)) ->
  let s1 := step processor (p, w, lost) (Select StopRequested) in
  returned (fst (fst s1)) = true
  /\ snd (fst s1) = w
  /\ held (bp (fst (fst s1))) = held (bp p)
  /\ batch (bp (fst (fst s1))) = []
  /\ snd (fst (run processor actions s1)) = w.
Proof.
  intros Hstop Hret Hopen Hrq Hroom. cbn [step]. unfold processBatches_case.
  rewrite Hret, Hstop. unfold flush_pending.
  assert (Hfin : forall b, held b = held (bp p) -> batch b = [] ->
            let s1 := ({| bp := b; stopChan := stopChan p; returned := true |}, w,
                       lost ++ (if flush_fails (bp p) then batch (bp p) else [])) in
            returned (fst (fst s1)) = true /\ snd (fst s1) = w
            /\ held (bp (fst (fst s1))) = held (bp p)
            /\ batch (bp (fst (fst s1))) = []
            /\ snd (fst (run processor actions s1)) = w).
  { intros b Hh Hb s1. subst s1. cbn [fst snd bp returned].
    repeat split; auto. apply returned_run. reflexivity. }
  destruct (Z.of_nat (length (batch (bp p))) >? 0) eqn:E.
  - destruct (flushBatch_cases (bp p) Hopen Hrq)
      as [[He ->] | [(Hne & _ & ->) | (Hne & Hfull & _)]].
    + apply Hfin; auto.
    + apply Hfin; [|reflexivity]. unfold held. cbn. rewrite concat_app. cbn.
      rewrite !app_nil_r. reflexivity.
    + exfalso. apply Hroom. split; assumption.
  - apply Hfin; [reflexivity|].
    rewrite Z.gtb_ltb in E. apply Z.ltb_ge in E.
    destruct (batch (bp p)); [reflexivity | cbn in E; lia].
Qed.

End Runs.

Lemma record_batch_records :
  records_batches recorders.record_batch (fun batches => batches).
Proof. intros events w. split; [exists None|]; reflexivity. Qed.

Lemma delivered_batches_are_well_sized_witness :
  let s := run recorders.record_batch recorders.test_run
             (started recorders.processor_3, recorders.nothing_delivered, []) in
  Forall (fun events => events <> [] /\ Z.of_nat (length events) <= Z.max 1 3)
    (heap (snd (fst s)))
  /\ GetPendingEvents (bp (fst (fst s))) < Z.max 1 3
  /\ GetBatchSize (bp (fst (fst s))) = GetPendingEvents (bp (fst (fst s)))
  /\ Z.of_nat (length (buf (flushChan (bp (fst (fst s)))))) <= 10.
Proof.
  apply (delivered_batches_are_well_sized recorders.record_batch
           (fun batches => batches) 3 record_batch_records (1 * Second)
           recorders.processor_3 recorders.nothing_delivered recorders.test_run);
    reflexivity.
Defined.

Lemma events_keep_their_order_witness :
  let s := run recorders.record_batch recorders.test_run
             (started recorders.processor_3, recorders.nothing_delivered, []) in
  let present := concat (heap (snd (fst s))) ++ held (bp (fst (fst s))) in
  sublist present (added recorders.test_run)
  /\ (length present + length (snd s) = length (added recorders.test_run))%nat
  /\ (snd s = [] -> present = added recorders.test_run).
Proof.
  apply (events_keep_their_order recorders.record_batch
           (fun batches => batches) 3 record_batch_records (1 * Second)
           recorders.processor_3 recorders.nothing_delivered recorders.test_run);
    reflexivity.
Defined.

(** The event in the buffer at [Stop] reaches the dispatch channel and
    stays there: [TestBatchProcessor_Stop] waits for it in vain. *)
Lemma stop_ends_delivery_witness :
  let actions := [Add (fixtures.event "4" 4 4); Select BatchReady; Select TickerFired] in
  let s1 := step recorders.record_batch
              (recorders.stopped, recorders.nothing_delivered, [])
              (Select StopRequested) in
  returned (fst (fst s1)) = true
  /\ snd (fst s1) = recorders.nothing_delivered
  /\ held (bp (fst (fst s1))) = held (bp recorders.stopped)
  /\ batch (bp (fst (fst s1))) = []
  /\ snd (fst (run recorders.record_batch actions s1)) = recorders.nothing_delivered.
Proof.
  intros actions.
  apply (stop_ends_delivery recorders.record_batch recorders.stopped
           recorders.nothing_delivered [] actions); try reflexivity.
  intros [_ H]. vm_compute in H. apply H. reflexivity.
Defined.

End batch_more.

(** ** Product store *)

Module repository_more.
Import models repositories.

(** [Get] after [Update]: the product written for the id that was
    updated, with that id, price and stock; for every other id what [Get]
    returned before.  A new repository has no product. *)
Theorem Get_after_Update (r : InMemoryProductRepository) (id id' : string)
    (price : float) (stock : Z) :
  Get (Update r id price stock) id'
  = (if decide (id = id')
     then Some {| ID := id; Price := price; Stock := stock |}
     else Get r id')
  /\ Get NewInMemoryProductRepository id' = None.
Proof.
  unfold Get, Update, NewInMemoryProductRepository. cbn [data]. split.
  - apply lookup_insert.
  - apply lookup_empty.
Qed.

(** The last write wins: of two updates of one id only the second is
    left; updates of different ids can be made in either order. *)
Theorem Update_last_write_wins (r : InMemoryProductRepository) (id id' : string)
    (price price' : float) (stock stock' : Z) :
  Update (Update r id price stock) id price' stock' = Update r id price' stock'
  /\ (id <> id' ->
      Update (Update r id price stock) id' price' stock'
      = Update (Update r id' price' stock') id price stock).
Proof.
  unfold Update. cbn [data]. split.
  - f_equal. apply insert_insert_eq.
  - intros Hne. f_equal. apply insert_insert_ne. congruence.
Qed.

Lemma Update_last_write_wins_witness :
  let r := NewInMemoryProductRepository in
  Update (Update r "a" 1 1) "a" 2 2 = Update r "a" 2 2
  /\ ("a" <> "b" ->
      Update (Update r "a" 1 1) "b" 2 2 = Update (Update r "b" 2 2) "a" 1 1).
Proof.
  intros r. apply (Update_last_write_wins r "a" "b" 1 2 1 2).
Defined.

End repository_more.

(** ** Classified errors *)

Module errors_more.
Import errors.

(** The six declared types have six different names, and every other
    value of [ErrorType] is named "UnknownError": two values have the same
    name when they are the same type or both undeclared. *)
Theorem String_tells_types_apart (a b : ErrorType) :
  String a = String b <->
  (a = b \/ (~ 0 <= a <= 5 /\ ~ 0 <= b <= 5)).
Proof.
  unfold String, RetryableError, NonRetryableError, ValidationError, SystemError,
    NetworkError, TimeoutError.
  repeat match goal with
         | |- context [?x =? ?y] => destruct (Z.eqb_spec x y)
         end; subst;
    (split; [intros H; try discriminate H; try (left; reflexivity); right; lia
            | intros [H|[H1 H2]]; try reflexivity; try discriminate H; try lia]).
Qed.

(** The three predicates sort an error into at most one class:
    [ShouldRetry] holds for the retryable, network and timeout types
    only, [IsValidationError] and [IsSystemError] for their own type, and
    none of them for a non-retryable error or an undeclared type. *)
Theorem classes_are_disjoint (ce : ClassifiedError) :
  (ShouldRetry ce = true <->
     Type_ ce = RetryableError \/ Type_ ce = NetworkError \/ Type_ ce = TimeoutError)
  /\ (ShouldRetry ce = true -> IsValidationError ce = false /\ IsSystemError ce = false)
  /\ (IsValidationError ce = true -> IsSystemError ce = false)
  /\ (Type_ ce = NonRetryableError \/ ~ 0 <= Type_ ce <= 5 ->
      ShouldRetry ce = false /\ IsValidationError ce = false
      /\ IsSystemError ce = false).
Proof.
  unfold ShouldRetry, IsValidationError, IsSystemError, RetryableError,
    NonRetryableError, ValidationError, SystemError, NetworkError, TimeoutError.
  repeat match goal with
         | |- context [?x =? ?y] => destruct (Z.eqb_spec x y)
         end; cbn; repeat split; intros; try discriminate; try lia; auto;
    try (destruct H as [H|[H|H]]; lia); try (destruct H; lia).
Qed.

End errors_more.

(** ** Service and worker pool: further properties *)

Module service_more.
Import channel models queue queue_spec repositories circuitbreaker retry services.
Import spec breaker_spec services_spec retry_facts breaker_facts.

(** What holds of the worlds between the attempts of a run holds at its
    end, when whatever the run does between two attempts keeps it. *)
Lemma callback_loop_invariant {U : Type} (P : World U -> Prop) (r : RetryConfig)
    (operation : Op U) (onFailure : option (Z -> error -> World U -> World U))
    (fuel : nat) :
  MaxAttempts r <= int64_max ->
  (forall w e w', P w -> operation w = (Returns (Some e), w') -> P w') ->
  (forall f, onFailure = Some f -> forall attempt err w, P w -> P (f attempt err w)) ->
  (forall d w, P w -> P (time_Sleep d w)) ->
  forall attempt delay w res w',
  1 <= attempt <= MaxAttempts r -> P w ->
  callback_loop r operation onFailure fuel attempt delay w = Some (res, w') ->
  match res with
  | Returns (Some e) => P w' /\ e = exhausted r
  | Returns None => exists w0, P w0 /\ operation w0 = (Returns None, w')
  | Panics msg => exists w0, P w0 /\ operation w0 = (Panics msg, w')
  end.
Proof.
  intros Hmax Hop Hcb Hsleep.
  induction fuel as [|fuel IH]; intros attempt delay w res w' Ha HP H; [discriminate|].
  cbn [callback_loop] in H.
  destruct (attempt <=? MaxAttempts r) eqn:E1; [|apply Z.leb_gt in E1; lia].
  destruct (operation w) as [[[e|]|msg] w1] eqn:Eo.
  - assert (HP2 : P (match onFailure with
                     | Some f => f attempt (attempt_failed attempt) w1
                     | None => w1 end)).
    { destruct onFailure as [f|] eqn:Ef; [apply (Hcb f eq_refl)|]; eapply Hop; eauto. }
    destruct (attempt =? MaxAttempts r) eqn:E2.
    + injection H as <- <-. auto.
    + apply Z.eqb_neq in E2.
      rewrite wrap64_id in H by (unfold int64_range, int64_min, int64_max in *; lia).
      apply IH in H; [exact H | lia | apply Hsleep; exact HP2].
  - injection H as <- <-. eauto.
  - injection H as <- <-. eauto.
Qed.

Lemma select_send_sent_once {A : Type} (c c' : chan A) (v : A) :
  select_send c v = Returns (Some c') -> sent_once c v c'.
Proof.
  unfold select_send, sent_once. destruct (closed c) eqn:Ec; [discriminate|].
  destruct (recvq c) as [|n].
  - destruct (len c <? cap c); [|discriminate]. intros [= <-]. cbn. auto.
  - intros [= <-]. cbn. auto.
Qed.

(** One attempt of [ProcessEvent] that does not succeed leaves all but
    the breaker as it is. *)
Lemma enqueue_attempt_fails (event : ProductEvent) (w w' : World Heap) (e : error) :
  circuitBreaker_Execute (queue_Enqueue event) w = (Returns (Some e), w') ->
  same_but_breaker (heap w) (heap w').
Proof.
  unfold circuitBreaker_Execute, Execute, run, queue_Enqueue, Enqueue.
  set (q := eventQueue (heap w)).
  assert (Hq : forall h, same_but_breaker (heap w) h ->
            forall cb, same_but_breaker (heap w) (set_circuitBreaker cb h)).
  { intros h Hh cb. unfold same_but_breaker in *. cbn. exact Hh. }
  assert (H0 : same_but_breaker (heap w) (heap w)) by (repeat split).
  destruct (state (circuitBreaker (heap w)));
    try (destruct (time_Since _ w <? _);
         [intros [= _ <-]; cbn [heap set_heap]; apply Hq; exact H0|]);
    destruct (select_send (events q) event) as [[c|]|msg];
    intros [= _ <-]; cbn [heap set_heap]; apply Hq;
    unfold same_but_breaker; cbn; repeat split; destruct q; reflexivity.
Qed.

(** The runs of [ProcessEvent] on an open queue. *)
Lemma ProcessEvent_outcomes (event : ProductEvent) (w : World Heap) :
  closed (events (eventQueue (heap w))) = false ->
  1 <= MaxAttempts (retryConfig (heap w)) ->
  MaxAttempts (retryConfig (heap w)) <= int64_max ->
  exists err w',
    ProcessEvent event w = Some (Returns err, w')
    /\ repository (heap w') = repository (heap w)
    /\ match err with
       | None =>
           sent_once (events (eventQueue (heap w))) event
             (events (eventQueue (heap w')))
       | Some e =>
           eventQueue (heap w') = eventQueue (heap w)
           /\ e = String.append "operation failed after "
                    (String.append (fmt_d (MaxAttempts (retryConfig (heap w))))
                       " attempts")
       end.
Proof.
  intros Hopen H1 Hmax. unfold ProcessEvent.
  set (r := retryConfig (heap w)) in *.
  set (operation := circuitBreaker_Execute (queue_Enqueue event)).
  destruct (ExecuteWithRetry_returns r operation w Hmax) as [[res w'] Hrun].
  rewrite Hrun. unfold ExecuteWithRetry in Hrun. rewrite retry_loop_nil_callback in Hrun.
  pose proof (callback_loop_invariant (fun w1 => same_but_breaker (heap w) (heap w1))
                r operation None (loop_tests r) Hmax) as Hinv.
  lapply Hinv; [clear Hinv; intros Hinv|].
  2:{ intros w1 e w2 HP Hop. apply enqueue_attempt_fails in Hop.
      unfold same_but_breaker in *. intuition congruence. }
  specialize (Hinv ltac:(intros f Hf; discriminate) ltac:(intros d w1 HP; exact HP)
                1 (InitialDelay r) w res w' ltac:(lia) ltac:(repeat split) Hrun).
  destruct res as [[e|]|msg].
  - destruct Hinv as [(Hrepo & Hq & _) ->]. exists (Some (exhausted r)), w'.
    split; [reflexivity|]. split; [exact Hrepo|]. split; [exact Hq | reflexivity].
  - destruct Hinv as (w0 & (Hrepo & Hq & _) & Hop). exists None, w'.
    split; [reflexivity|].
    revert Hop. unfold operation, circuitBreaker_Execute, Execute, run, queue_Enqueue, Enqueue.
    rewrite Hq.
    destruct (state (circuitBreaker (heap w0)));
      try (destruct (time_Since _ w0 <? _); [discriminate|]);
      destruct (select_send (events (eventQueue (heap w))) event) as [[c|]|msg] eqn:Es;
      try discriminate; intros [= <-]; cbn [heap set_heap];
      (split; [cbn; exact Hrepo | cbn; apply select_send_sent_once; exact Es]).
  - exfalso. destruct Hinv as (w0 & (Hrepo & Hq & _) & Hop).
    revert Hop. unfold operation, circuitBreaker_Execute, Execute, run, queue_Enqueue, Enqueue.
    rewrite Hq. unfold select_send. rewrite Hopen.
    destruct (state (circuitBreaker (heap w0)));
      try (destruct (time_Since _ w0 <? _); [discriminate|]);
      destruct (recvq (events (eventQueue (heap w))));
      try destruct (len _ <? _); discriminate.
Qed.

(** [ProcessEvent] on an open queue, for a retry configuration with at
    least one attempt: it returns; it does not touch the store; when it
    returns nil the event was sent on the queue, once; when it returns an
    error the queue is as it was and the error is "operation failed after
    N attempts", whether the queue was full or the breaker open. *)
Theorem ProcessEvent_enqueues_or_fails (event : ProductEvent) (w : World Heap) :
  closed (events (eventQueue (heap w))) = false ->
  1 <= MaxAttempts (retryConfig (heap w)) ->
  MaxAttempts (retryConfig (heap w)) <= int64_max ->
  exists err w',
    ProcessEvent event w = Some (Returns err, w')
    /\ repository (heap w') = repository (heap w)
    /\ match err with
       | None =>
           sent_once (events (eventQueue (heap w))) event
             (events (eventQueue (heap w')))
       | Some e =>
           eventQueue (heap w') = eventQueue (heap w)
           /\ e = String.append "operation failed after "
                    (String.append (fmt_d (MaxAttempts (retryConfig (heap w))))
                       " attempts")
       end.
Proof. exact (ProcessEvent_outcomes event w). Qed.

(** A call of [processEvent] that the breaker lets through. *)
Lemma processEvent_passes (event : ProductEvent) (id : Z) (w : World Heap) :
  lets_through (circuitBreaker (heap w)) w ->
  1 <= MaxAttempts (retryConfig (heap w)) ->
  exists w',
    processEvent event id w = Some (Returns tt, w')
    /\ repository (heap w') = apply_event (repository (heap w)) event
    /\ eventQueue (heap w') = eventQueue (heap w)
    /\ retryConfig (heap w') = retryConfig (heap w)
    /\ cancelled (heap w') = cancelled (heap w)
    /\ state (circuitBreaker (heap w')) = Closed
    /\ failures (circuitBreaker (heap w')) = 0
    /\ sleeps w' = sleeps w ++ [10 * Millisecond]
    /\ clock w' = clock w + 10 * Millisecond.
Proof.
  intros Hlet H1. unfold processEvent, ExecuteWithRetryAndCallback, loop_tests.
  cbn [callback_loop].
  destruct (1 <=? MaxAttempts (retryConfig (heap w))) eqn:E; [|apply Z.leb_gt in E; lia].
  unfold circuitBreaker_Execute, Execute, run, update_product.
  unfold lets_through in Hlet.
  destruct (state (circuitBreaker (heap w))) eqn:Es.
  - eexists. split; [reflexivity|]. cbn. repeat split. rewrite Es. reflexivity.
  - specialize (Hlet eq_refl). apply Z.ltb_ge in Hlet. rewrite Hlet.
    eexists. split; [reflexivity|]. cbn. repeat split.
  - eexists. split; [reflexivity|]. cbn. repeat split. rewrite Es. reflexivity.
Qed.

(** A worker that takes an event while the breaker lets calls through:
    [processEvent] returns after one sleep of 10ms, the store then holds
    the product the event describes under the event's id and every other
    product as before, the queue is as it was, and the breaker is closed
    with no failure counted. *)
Theorem processEvent_updates_store (event : ProductEvent) (id : Z) (w : World Heap) :
  lets_through (circuitBreaker (heap w)) w ->
  1 <= MaxAttempts (retryConfig (heap w)) ->
  exists w',
    processEvent event id w = Some (Returns tt, w')
    /\ GetProduct (ProductID event) w' = Some (product_of event)
    /\ (forall other, other <> ProductID event ->
          GetProduct other w' = GetProduct other w)
    /\ eventQueue (heap w') = eventQueue (heap w)
    /\ GetState (circuitBreaker (heap w')) = Closed
    /\ GetFailureCount (circuitBreaker (heap w')) = 0
    /\ sleeps w' = sleeps w ++ [10 * Millisecond].
Proof.
  intros Hlet H1.
  destruct (processEvent_passes event id w Hlet H1)
    as (w' & Hrun & Hrepo & Hq & _ & _ & Hs & Hf & Hsl & _).
  exists w'. split; [exact Hrun|].
  unfold GetProduct, Get, GetState, GetFailureCount. rewrite Hrepo.
  unfold apply_event, Update. cbn [data].
  split; [apply lookup_insert_eq|].
  split; [intros other Hne; apply lookup_insert_ne; congruence|].
  auto.
Qed.

Lemma time_Since_Sleep {U : Type} (t : Time) (d : Duration) (w : World U) :
  time_Since t (time_Sleep d w) <= time_Since t w + Z.max 0 d.
Proof.
  unfold time_Since, time_Now, time_Sleep, Time_Sub. cbn [clock]. lia.
Qed.

Lemma total_max0_nonneg (ds : list Duration) :
  0 <= retry_spec.total (map (Z.max 0) ds).
Proof.
  induction ds as [|d ds IH]; [cbn; lia|].
  cbn [map]. unfold retry_spec.total in *. cbn [fold_right].
  apply Z.add_nonneg_nonneg; [lia | exact IH].
Qed.

(** The retry loop of [processEvent] from attempt [attempt] on, while
    the breaker stays open. *)
Lemma open_loop (event : ProductEvent) (h : Heap) (fuel : nat) :
  state (circuitBreaker h) = Open ->
  MaxAttempts (retryConfig h) <= int64_max ->
  forall attempt delay w,
  heap w = h ->
  1 <= attempt <= MaxAttempts (retryConfig h) ->
  MaxAttempts (retryConfig h) - attempt < Z.of_nat fuel ->
  time_Since (lastFailureTime (circuitBreaker h)) w
    + retry_spec.total
        (map (Z.max 0)
           (backoffs (retryConfig h) delay
              (Z.to_nat (MaxAttempts (retryConfig h) - attempt))))
    < timeout (circuitBreaker h) ->
  exists w',
    callback_loop (retryConfig h) (circuitBreaker_Execute (update_product event))
      (Some (fun _ _ w => w)) fuel attempt delay w
    = Some (Returns (Some (exhausted (retryConfig h))), w')
    /\ heap w' = h
    /\ sleeps w' = sleeps w
         ++ backoffs (retryConfig h) delay
              (Z.to_nat (MaxAttempts (retryConfig h) - attempt)).
Proof.
  intros Hopen Hmax. set (r := retryConfig h) in *. set (cb := circuitBreaker h) in *.
  induction fuel as [|fuel IH]; intros attempt delay w Hh Ha Hfuel Ht; [lia|].
  cbn [callback_loop].
  destruct (attempt <=? MaxAttempts r) eqn:E1; [|apply Z.leb_gt in E1; lia].
  assert (Hpos : 0 <= retry_spec.total
            (map (Z.max 0) (backoffs r delay (Z.to_nat (MaxAttempts r - attempt))))).
  { apply total_max0_nonneg. }
  assert (Hrej : circuitBreaker_Execute (update_product event) w
                 = (Returns (Some "circuit breaker is open"), w)).
  { unfold circuitBreaker_Execute, Execute. rewrite Hh. fold cb. rewrite Hopen.
    destruct (time_Since (lastFailureTime cb) w <? timeout cb) eqn:E;
      [|apply Z.ltb_ge in E; lia].
    f_equal. destruct w as [c s hw]. cbn in *. subst hw. unfold set_heap. cbn.
    f_equal. destruct h; reflexivity. }
  rewrite Hrej.
  destruct (attempt =? MaxAttempts r) eqn:E2.
  - apply Z.eqb_eq in E2. exists w. split; [reflexivity|]. split; [exact Hh|].
    replace (MaxAttempts r - attempt) with 0 by lia. cbn. symmetry. apply app_nil_r.
  - apply Z.eqb_neq in E2.
    rewrite wrap64_id by (unfold int64_range, int64_min, int64_max in *; lia).
    assert (Hn : Z.to_nat (MaxAttempts r - attempt)
                 = S (Z.to_nat (MaxAttempts r - (attempt + 1)))) by lia.
    rewrite Hn in Ht |- *. cbn [backoffs map] in Ht |- *.
    destruct (IH (attempt + 1) (backoff r delay) (time_Sleep delay w)) as (w' & Hrun & Hh' & Hs).
    + exact Hh.
    + lia.
    + lia.
    + pose proof (time_Since_Sleep (lastFailureTime cb) delay w) as Hsl.
      unfold retry_spec.total in Ht |- *. cbn [fold_right] in Ht. lia.
    + exists w'. split; [exact Hrun|]. split; [exact Hh'|].
      rewrite Hs. cbn [time_Sleep sleeps]. rewrite <- app_assoc. reflexivity.
Qed.

(** A worker that takes an event while the breaker is open, and stays
    open for all the retries (the time since the last failure and the
    backoff sleeps together stay below the breaker's timeout): the
    update is never made, [processEvent] returns all the same, and the
    service is as it was before the call: the store has not changed, and
    the event, which the worker had already taken off the queue, is kept
    nowhere.  The worker only slept, for the backoff delays. *)
Theorem open_breaker_loses_event (event : ProductEvent) (id : Z) (w : World Heap) :
  state (circuitBreaker (heap w)) = Open ->
  1 <= MaxAttempts (retryConfig (heap w)) ->
  MaxAttempts (retryConfig (heap w)) <= int64_max ->
  time_Since (lastFailureTime (circuitBreaker (heap w))) w
    + backoff_time (retryConfig (heap w))
    < timeout (circuitBreaker (heap w)) ->
  exists w',
    processEvent event id w = Some (Returns tt, w')
    /\ heap w' = heap w
    /\ sleeps w' = sleeps w
         ++ backoffs (retryConfig (heap w)) (InitialDelay (retryConfig (heap w)))
              (Z.to_nat (MaxAttempts (retryConfig (heap w)) - 1)).
Proof.
  intros Hopen H1 Hmax Ht. unfold processEvent, ExecuteWithRetryAndCallback.
  destruct (open_loop event (heap w) (loop_tests (retryConfig (heap w))) Hopen Hmax
              1 (InitialDelay (retryConfig (heap w))) w eq_refl)
    as (w' & Hrun & Hh & Hs).
  - lia.
  - unfold loop_tests. lia.
  - exact Ht.
  - rewrite Hrun. exists w'. auto.
Qed.

(** The loop of [worker] on a queue that holds [evs]. *)
Lemma worker_drains (id : Z) (evs : list ProductEvent) :
  forall (fuel : nat) (w : World Heap),
  (length evs < fuel)%nat ->
  cancelled (heap w) = false ->
  buf (events (eventQueue (heap w))) = evs ->
  (evs <> [] -> lets_through (circuitBreaker (heap w)) w) ->
  1 <= MaxAttempts (retryConfig (heap w)) ->
  exists w',
    worker fuel id w
    = (if closed (events (eventQueue (heap w))) then Exited else Parked, w')
    /\ repository (heap w') = fold_left apply_event evs (repository (heap w))
    /\ buf (events (eventQueue (heap w'))) = []
    /\ sleeps w' = sleeps w ++ repeat (10 * Millisecond) (length evs).
Proof.
  induction evs as [|event evs IH]; intros fuel w Hfuel Hc Hbuf Hlet H1;
    (destruct fuel as [|fuel]; [cbn in Hfuel; lia|]); cbn [worker]; rewrite Hc;
    unfold Dequeue, recv; rewrite Hbuf.
  - destruct (closed (events (eventQueue (heap w)))) eqn:Ecl.
    + exists w. cbn. rewrite app_nil_r. auto.
    + eexists. split; [reflexivity|]. cbn. rewrite app_nil_r. auto.
  - set (c := mkChan evs _ _ _ _).
    set (w1 := set_heap (set_eventQueue {| events := c |} (heap w)) w).
    destruct (processEvent_passes event id w1) as
      (w2 & Hrun & Hrepo & Hq & Hr & Hcan & Hs & _ & Hsl & _).
    { apply (Hlet ltac:(discriminate)). }
    { exact H1. }
    rewrite Hrun.
    destruct (IH fuel w2) as (w' & Hw & Hrepo' & Hbuf' & Hsl').
    + cbn in Hfuel. lia.
    + rewrite Hcan. exact Hc.
    + rewrite Hq. reflexivity.
    + intros _ Ho. rewrite Hs in Ho. discriminate.
    + rewrite Hr. exact H1.
    + exists w'. rewrite Hq in Hw. cbn [w1 heap set_heap set_eventQueue eventQueue events c closed] in Hw.
      split; [exact Hw|]. split.
      * rewrite Hrepo', Hrepo. reflexivity.
      * split; [exact Hbuf'|]. rewrite Hsl', Hsl. cbn [length repeat].
        rewrite <- app_assoc. reflexivity.
Qed.

(** A worker started on a queue that holds the events [evs], with the
    breaker letting calls through: it takes them all, applies them to
    the store in the order they were enqueued, each after a sleep of
    10ms, and then parks on the empty queue, or returns if the queue was
    closed.  It neither panics nor loses an event. *)
Theorem worker_applies_events_in_order (id : Z) (fuel : nat) (w : World Heap) :
  let evs := buf (events (eventQueue (heap w))) in
  (length evs < fuel)%nat ->
  cancelled (heap w) = false ->
  lets_through (circuitBreaker (heap w)) w ->
  1 <= MaxAttempts (retryConfig (heap w)) ->
  exists w',
    worker fuel id w
    = (if closed (events (eventQueue (heap w))) then Exited else Parked, w')
    /\ repository (heap w') = fold_left apply_event evs (repository (heap w))
    /\ buf (events (eventQueue (heap w'))) = []
    /\ sleeps w' = sleeps w ++ repeat (10 * Millisecond) (length evs).
Proof.
  intros evs Hfuel Hc Hlet H1.
  apply (worker_drains id evs fuel w Hfuel Hc eq_refl (fun _ => Hlet) H1).
Qed.

Lemma ProcessEvent_enqueues_or_fails_witness :
  exists err w',
    ProcessEvent (fixtures.event "p1" 10 5) service_fixtures.fresh
    = Some (Returns err, w')
    /\ repository (heap w') = repository (heap service_fixtures.fresh)
    /\ match err with
       | None =>
           sent_once (events (eventQueue (heap service_fixtures.fresh)))
             (fixtures.event "p1" 10 5) (events (eventQueue (heap w')))
       | Some e =>
           eventQueue (heap w') = eventQueue (heap service_fixtures.fresh)
           /\ e = String.append "operation failed after "
                    (String.append
                       (fmt_d (MaxAttempts (retryConfig (heap service_fixtures.fresh))))
                       " attempts")
       end.
Proof.
  apply (ProcessEvent_enqueues_or_fails (fixtures.event "p1" 10 5) service_fixtures.fresh).
  - reflexivity.
  - simpl. lia.
  - vm_compute. discriminate.
Defined.

Lemma processEvent_updates_store_witness :
  exists w',
    processEvent (fixtures.event "p1" 10 5) 0 service_fixtures.fresh
    = Some (Returns tt, w')
    /\ GetProduct "p1" w' = Some (product_of (fixtures.event "p1" 10 5))
    /\ (forall other, other <> "p1" ->
          GetProduct other w' = GetProduct other service_fixtures.fresh)
    /\ eventQueue (heap w') = eventQueue (heap service_fixtures.fresh)
    /\ GetState (circuitBreaker (heap w')) = Closed
    /\ GetFailureCount (circuitBreaker (heap w')) = 0
    /\ sleeps w' = [] ++ [10 * Millisecond].
Proof.
  apply (processEvent_updates_store (fixtures.event "p1" 10 5) 0 service_fixtures.fresh).
  - intros H. vm_compute in H. discriminate.
  - simpl. lia.
Defined.

Lemma open_breaker_loses_event_witness :
  exists w',
    processEvent (fixtures.event "p1" 10 5) 0 service_fixtures.tripped
    = Some (Returns tt, w')
    /\ heap w' = heap service_fixtures.tripped
    /\ sleeps w' = [] ++ backoffs DefaultRetryConfig (100 * Millisecond)
                           (Z.to_nat (3 - 1)).
Proof.
  apply (open_breaker_loses_event (fixtures.event "p1" 10 5) 0 service_fixtures.tripped).
  - reflexivity.
  - simpl. lia.
  - vm_compute. discriminate.
  - vm_compute. reflexivity.
Defined.

Lemma worker_applies_events_in_order_witness :
  exists w',
    worker 3 0 service_fixtures.two_waiting = (Parked, w')
    /\ repository (heap w')
       = fold_left apply_event
           [fixtures.event "p1" 10 5; fixtures.event "p2" 20 7]
           NewInMemoryProductRepository
    /\ buf (events (eventQueue (heap w'))) = []
    /\ sleeps w' = [] ++ repeat (10 * Millisecond) 2.
Proof.
  apply (worker_applies_events_in_order 0 3 service_fixtures.two_waiting).
  - simpl. lia.
  - reflexivity.
  - intros H. vm_compute in H. discriminate.
  - simpl. lia.
Defined.

End service_more.

(** ** HTTP handlers *)

Module controllers_more.
Import channel models queue queue_spec repositories circuitbreaker retry services.
Import services_spec.

(** [HandleEvent] on a service whose queue is open and whose retry
    configuration has at least one attempt: it answers, without a panic
    and without touching the store.  The answer is 202 with the event's
    id only when the event was sent on the queue, once, and the event
    then has an id that is not empty; every other answer is an error of
    status 400 or 503 and leaves the queue as it was. *)
Theorem HandleEvent_accepts_what_it_enqueues (bound : option ProductEvent)
    (w : World Heap) :
  closed (events (eventQueue (heap w))) = false ->
  1 <= MaxAttempts (retryConfig (heap w)) ->
  MaxAttempts (retryConfig (heap w)) <= int64_max ->
  exists resp w',
    controllers.HandleEvent bound w = Some (Returns resp, w')
    /\ repository (heap w') = repository (heap w)
    /\ match controllers.json resp with
       | controllers.EventResponse _ id =>
           controllers.code resp = 202
           /\ exists event,
                bound = Some event /\ ProductID event = id /\ id <> ""
                /\ sent_once (events (eventQueue (heap w))) event
                     (events (eventQueue (heap w')))
       | controllers.ErrorResponse _ =>
           (controllers.code resp = 400 \/ controllers.code resp = 503)
           /\ eventQueue (heap w') = eventQueue (heap w)
       | _ => False
       end.
Proof.
  intros Hopen H1 Hmax. unfold controllers.HandleEvent.
  destruct bound as [event|].
  - destruct (String.eqb (ProductID event) "") eqn:Eid.
    + eexists. exists w. split; [reflexivity|]. cbn. auto.
    + apply String.eqb_neq in Eid.
      destruct (service_more.ProcessEvent_outcomes event w Hopen H1 Hmax)
        as (err & w' & Hrun & Hrepo & Hres).
      rewrite Hrun. destruct err as [e|].
      * eexists. exists w'. split; [reflexivity|]. cbn.
        split; [exact Hrepo|]. split; [right; reflexivity | apply Hres].
      * eexists. exists w'. split; [reflexivity|]. cbn.
        split; [exact Hrepo|]. split; [reflexivity|].
        exists event. auto.
  - eexists. exists w. split; [reflexivity|]. cbn. auto.
Qed.

(** An event a worker has processed is what the [GetProduct] handler
    then serves for the event's id: status 200 and the product the
    event describes.  For any other id the handler answers as before. *)
Theorem processed_event_is_served (event : ProductEvent) (id : Z) (w : World Heap) :
  lets_through (circuitBreaker (heap w)) w ->
  1 <= MaxAttempts (retryConfig (heap w)) ->
  exists w',
    processEvent event id w = Some (Returns tt, w')
    /\ controllers.GetProduct (ProductID event) w'
       = {| controllers.code := 200;
            controllers.json := controllers.ProductBody (product_of event) |}
    /\ forall other, other <> ProductID event ->
         controllers.GetProduct other w' = controllers.GetProduct other w.
Proof.
  intros Hlet H1.
  destruct (service_more.processEvent_passes event id w Hlet H1)
    as (w' & Hrun & Hrepo & _).
  exists w'. split; [exact Hrun|].
  unfold controllers.GetProduct, GetProduct, Get. rewrite Hrepo.
  unfold apply_event, Update. cbn [data]. split.
  - rewrite lookup_insert_eq. reflexivity.
  - intros other Hne. rewrite lookup_insert_ne by congruence. reflexivity.
Qed.

Lemma HandleEvent_accepts_what_it_enqueues_witness :
  exists resp w',
    controllers.HandleEvent (Some (fixtures.event "p1" 10 5)) service_fixtures.fresh
    = Some (Returns resp, w')
    /\ repository (heap w') = repository (heap service_fixtures.fresh)
    /\ match controllers.json resp with
       | controllers.EventResponse _ id =>
           controllers.code resp = 202
           /\ exists event,
                Some (fixtures.event "p1" 10 5) = Some event
                /\ ProductID event = id /\ id <> ""
                /\ sent_once (events (eventQueue (heap service_fixtures.fresh))) event
                     (events (eventQueue (heap w')))
       | controllers.ErrorResponse _ =>
           (controllers.code resp = 400 \/ controllers.code resp = 503)
           /\ eventQueue (heap w') = eventQueue (heap service_fixtures.fresh)
       | _ => False
       end.
Proof.
  apply (HandleEvent_accepts_what_it_enqueues (Some (fixtures.event "p1" 10 5))
           service_fixtures.fresh).
  - reflexivity.
  - simpl. lia.
  - vm_compute. discriminate.
Defined.

Lemma processed_event_is_served_witness :
  exists w',
    processEvent (fixtures.event "p1" 10 5) 0 service_fixtures.fresh
    = Some (Returns tt, w')
    /\ controllers.GetProduct "p1" w'
       = {| controllers.code := 200;
            controllers.json :=
              controllers.ProductBody (product_of (fixtures.event "p1" 10 5)) |}
    /\ forall other, other <> "p1" ->
         controllers.GetProduct other w'
         = controllers.GetProduct other service_fixtures.fresh.
Proof.
  apply (processed_event_is_served (fixtures.event "p1" 10 5) 0 service_fixtures.fresh).
  - intros H. vm_compute in H. discriminate.
  - simpl. lia.
Defined.

End controllers_more.
